(** * GenerateReservedWords: the reserved-word switch generator

    A shallow embedding of [js/src/frontend/GenerateReservedWords.py].
    The generator receives a list of [(index, word)] pairs and writes, line
    by line, a C-like decision procedure over the macros [JSRW_LENGTH],
    [JSRW_AT], [JSRW_GOT_MATCH], [JSRW_TEST_GUESS] and [JSRW_NO_MATCH].

    Python values are modelled as follows: [str] as [string], the integers
    that are list positions, lengths and counts as [nat], the word indices
    and the differences of character codes as [Z], a [dict] as an
    association list in insertion order, the [opt] dictionary as a record
    and the output stream as the list of the chunks written to it.
    Exceptions are explicit: every fallible operation returns a [Result]. *)

From Stdlib Require Import String Ascii List ZArith Arith Bool Lia.
From Stdlib Require Import DecimalString Permutation Sorted.
Import ListNotations.

Open Scope string_scope.
Open Scope list_scope.
Open Scope nat_scope.

(** ** Python runtime *)

Module Py.

(** The exceptions the generator can raise. *)
Inductive Exception : Type :=
| AssertionError
| IndexError.

Inductive Result (A : Type) : Type :=
| Ok (a : A)
| Raise (e : Exception).

Arguments Ok {A} a.
Arguments Raise {A} e.

Definition bind {A B : Type} (r : Result A) (k : A -> Result B) : Result B :=
  match r with
  | Ok a => k a
  | Raise e => Raise e
  end.

(** [assert b] *)
Definition assert (b : bool) : Result unit :=
  if b then Ok tt else Raise AssertionError.

(** [xs[i]] for a non-negative position [i] *)
Definition getitem {A : Type} (xs : list A) (i : nat) : Result A :=
  match nth_error xs i with
  | Some x => Ok x
  | None => Raise IndexError
  end.

(** [xs[i] = v] on a list: an assignment out of range raises. *)
Fixpoint setitem {A : Type} (xs : list A) (i : nat) (v : A) : Result (list A) :=
  match xs, i with
  | [], _ => Raise IndexError
  | _ :: tl, O => Ok (v :: tl)
  | x :: tl, S j => bind (setitem tl j v) (fun tl' => Ok (x :: tl'))
  end.

(** [word[column]] on a string *)
Definition char_at (word : string) (column : nat) : Result ascii :=
  match String.get column word with
  | Some c => Ok c
  | None => Raise IndexError
  end.

(** [ord(c)] *)
Definition ord (c : ascii) : nat := nat_of_ascii c.

(** [range(a, a + n)] as the list of its elements *)
Definition range (a n : nat) : list nat := seq a n.

(** [str(n)] for integers *)
Definition str_of_nat (n : nat) : string := NilZero.string_of_uint (Nat.to_uint n).
Definition str_of_Z (z : Z) : string := NilZero.string_of_int (Z.to_int z).

(** [s * n]: a negative count gives the empty string. *)
Fixpoint repeat_str (s : string) (n : nat) : string :=
  match n with
  | O => EmptyString
  | S m => (s ++ repeat_str s m)%string
  end.

Definition str_mul (s : string) (n : Z) : string := repeat_str s (Z.to_nat n).

(** [sep.join(xs)] *)
Fixpoint join (sep : string) (xs : list string) : string :=
  match xs with
  | [] => EmptyString
  | [x] => x
  | x :: tl => (x ++ sep ++ join sep tl)%string
  end.

Definition newline : string := String (ascii_of_nat 10) EmptyString.
Definition str1 (c : ascii) : string := String c EmptyString.

(** An f-string or a [format] call, as the concatenation of its parts. *)
Definition fmt (parts : list string) : string :=
  fold_right String.append EmptyString parts.

Definition hex_digit (n : nat) : ascii :=
  if n <? 10 then ascii_of_nat (48 + n) else ascii_of_nat (87 + n).

(** [repr(c)] of a one-character string, for code points below 256:
    quotes and backslash are escaped the way CPython does, control
    characters and the non-printable part of Latin-1 are written in hex. *)
Definition repr_char (c : ascii) : string :=
  let n := ord c in
  let q := str1 (ascii_of_nat 39) in
  let dq := str1 (ascii_of_nat 34) in
  let bs := str1 (ascii_of_nat 92) in
  if n =? 39 then fmt [dq; q; dq]
  else if n =? 92 then fmt [q; bs; bs; q]
  else if n =? 9 then fmt [q; bs; "t"; q]
  else if n =? 10 then fmt [q; bs; "n"; q]
  else if n =? 13 then fmt [q; bs; "r"; q]
  else if (n <? 32) || ((126 <? n) && (n <? 161)) || (n =? 173)
       then fmt [q; bs; "x"; str1 (hex_digit (n / 16)); str1 (hex_digit (n mod 16)); q]
  else fmt [q; str1 c; q].

(** [xs[-1]] *)
Definition getitem_last {A : Type} (xs : list A) : Result A :=
  match xs with
  | [] => Raise IndexError
  | x :: tl => Ok (last tl x)
  end.

(** [sorted(xs)], the elements compared through [rank]; a stable
    insertion sort, elements going in one by one. *)
Section Sorted.
Context {A : Type} (rank : A -> nat).

Fixpoint insert_sorted (a : A) (l : list A) : list A :=
  match l with
  | [] => [a]
  | b :: tl => if rank a <? rank b then a :: l else b :: insert_sorted a tl
  end.

Definition sorted (l : list A) : list A := fold_right insert_sorted [] l.
End Sorted.

(** *** Dictionaries

    A [dict] keeps its keys in insertion order.  The keys used by the
    generator are integers and one-character strings; two keys are equal
    when their ranks are ([ord] for a character), and [sorted] orders the
    items of a dictionary by the rank of their keys, which are unique. *)
Section Dict.
Context {K V : Type} (rank : K -> nat).

Definition dict : Type := list (K * V).

(** [d.get(k)] *)
Fixpoint dict_get (d : dict) (k : K) : option V :=
  match d with
  | [] => None
  | (k', v) :: tl => if rank k' =? rank k then Some v else dict_get tl k
  end.

(** [d[k] = v]: a present key keeps its place, a new one goes last. *)
Fixpoint dict_set (d : dict) (k : K) (v : V) : dict :=
  match d with
  | [] => [(k, v)]
  | (k', v') :: tl =>
      if rank k' =? rank k then (k', v) :: tl else (k', v') :: dict_set tl k v
  end.

(** [d.setdefault(k, v)]: the value now stored under [k], and [d]. *)
Definition dict_setdefault (d : dict) (k : K) (v : V) : V * dict :=
  match dict_get d k with
  | Some v' => (v', d)
  | None => (v, dict_set d k v)
  end.

Definition dict_keys (d : dict) : list K := map fst d.

(** [sorted(d.items())] *)
Definition sorted_items (d : dict) : list (K * V) :=
  sorted (fun kv => rank (fst kv)) d.
End Dict.

(** *** Loops *)

(** [for x in xs: s = body(x, s)], stopping at the first exception. *)
Fixpoint for_each {X S : Type} (xs : list X) (body : X -> S -> Result S) (s : S)
  : Result S :=
  match xs with
  | [] => Ok s
  | x :: tl => bind (body x s) (for_each tl body)
  end.

(** A loop body either goes on with a new state or leaves the enclosing
    function with [return]. *)
Inductive LoopExit (R S : Type) : Type :=
| Return (r : R)
| Continue (s : S).

Arguments Return {R S} r.
Arguments Continue {R S} s.

Fixpoint for_each_return {X R S : Type} (xs : list X)
    (body : X -> S -> Result (LoopExit R S)) (s : S) : Result (LoopExit R S) :=
  match xs with
  | [] => Ok (Continue s)
  | x :: tl =>
      bind (body x s) (fun r =>
        match r with
        | Return v => Ok (Return v)
        | Continue s' => for_each_return tl body s'
        end)
  end.

End Py.

Export Py.

Notation "'let*' x ':=' r 'in' k" := (Py.bind r (fun x => k))
  (at level 10, x name, r at level 100, k at level 200).
Notation "'let*' ' pat ':=' r 'in' k" :=
  (Py.bind r (fun v => let 'pat := v in k))
  (at level 10, pat pattern, r at level 100, k at level 200).

(** ** The generator state *)

(** An entry of the reserved-word list: [(index, word)]. *)
Definition item : Type := Z * string.

(** The [opt] dictionary.  [output] is the stream: the chunks passed to
    [write], oldest first. *)
Record Opt : Type := mkOpt {
  indent_level : Z;
  use_if_threshold : nat;
  char_tail_test_threshold : nat;
  output : list string
}.

(** A function that receives [opt] and may update it; the state reached
    when an exception is raised is kept, as whatever was written to the
    stream stays written. *)
Definition Gen (A : Type) : Type := Opt -> Result A * Opt.

Definition ret {A : Type} (a : A) : Gen A := fun opt => (Ok a, opt).

Definition gbind {A B : Type} (m : Gen A) (k : A -> Gen B) : Gen B :=
  fun opt =>
    match m opt with
    | (Ok a, opt') => k a opt'
    | (Raise e, opt') => (Raise e, opt')
    end.

Definition lift {A : Type} (r : Result A) : Gen A := fun opt => (r, opt).

Definition get_opt : Gen Opt := fun opt => (Ok opt, opt).

Notation "x <- m ;; k" := (gbind m (fun x => k))
  (right associativity, at level 61, m at next level).
Notation "' pat <- m ;; k" := (gbind m (fun r => let 'pat := r in k))
  (right associativity, at level 61, pat pattern, m at next level).
Notation "m ;; k" := (gbind m (fun _ => k))
  (right associativity, at level 61).

(** [for x in xs: body(x)] *)
Fixpoint gen_for_each {X : Type} (xs : list X) (body : X -> Gen unit) : Gen unit :=
  match xs with
  | [] => ret tt
  | x :: tl => body x ;; gen_for_each tl body
  end.

(** [opt["output"].write(s)] *)
Definition write (s : string) : Gen unit :=
  fun opt =>
    (Ok tt, mkOpt (indent_level opt) (use_if_threshold opt)
                  (char_tail_test_threshold opt) (output opt ++ [s])).

Definition set_indent_level (z : Z) : Gen unit :=
  fun opt =>
    (Ok tt, mkOpt z (use_if_threshold opt) (char_tail_test_threshold opt) (output opt)).

(** ** The generator *)

Definition line (s : string) : Gen unit :=
  opt <- get_opt ;;
  write (fmt [str_mul "    " (indent_level opt); s; newline]).

Definition indent : Gen unit :=
  opt <- get_opt ;; set_indent_level (indent_level opt + 1).

Definition dedent : Gen unit :=
  opt <- get_opt ;; set_indent_level (indent_level opt - 1).

Definition span_and_count_at (reserved_word_list : list item) (column : nat)
  : Result (Z * nat) :=
  let* _ := assert (negb (length reserved_word_list =? 0)) in
  let* chars_dict :=
    for_each reserved_word_list
      (fun '(index, word) (chars_dict : dict) =>
         let* c := char_at word column in
         Ok (dict_set (fun k : nat => k) chars_dict (ord c) true))
      [] in
  let chars := sorted (fun k : nat => k) (dict_keys chars_dict) in
  let* hi := getitem_last chars in
  let* lo := getitem chars 0 in
  Ok ((Z.of_nat hi - Z.of_nat lo + 1)%Z, length chars).

(** The locals of [optimal_switch_column] that the scan updates. *)
Record ScanState : Type := mkScan {
  min_count : nat;
  min_span : Z;
  min_count_index : nat;
  min_span_index : nat
}.

Definition scan_column (reserved_word_list : list item) (columns : list nat)
    (index : nat) (st : ScanState) : Result (LoopExit (nat * bool) ScanState) :=
  let* column := getitem columns index in
  let* '(span, count) := span_and_count_at reserved_word_list column in
  let* _ := assert (negb (span =? 0)%Z) in
  if (span =? 1)%Z then
    let* _ := assert (count =? 1) in
    Ok (Return (1, true))
  else
    let* _ := assert (negb (count =? 1)) in
    let st :=
      if (index =? 0) || (span <? min_span st)%Z
      then mkScan (min_count st) span (min_count_index st) index
      else st in
    let st :=
      if (index =? 0) || (count <? min_count st)
      then mkScan count (min_span st) index (min_span_index st)
      else st in
    Ok (Continue st).

Definition optimal_switch_column (opt : Opt) (reserved_word_list : list item)
    (columns : list nat) (unprocessed_columns : nat) : Result (nat * bool) :=
  let* _ := assert (negb (length reserved_word_list =? 0)) in
  let* _ := assert (negb (unprocessed_columns =? 0)) in
  let* r := for_each_return (range 0 unprocessed_columns)
              (scan_column reserved_word_list columns) (mkScan 0 0 0 0) in
  match r with
  | Return v => Ok v
  | Continue st =>
      if min_count st <=? use_if_threshold opt
      then Ok (min_count_index st, true)
      else Ok (min_span_index st, false)
  end.

(** [per = d.setdefault(k, [])] followed by [per.append(item)]: the list
    stored under [k] is the one that grows. *)
Definition setdefault_append {K : Type} (rank : K -> nat)
    (d : @dict K (list item)) (k : K) (it : item) : @dict K (list item) :=
  let '(per, d') := dict_setdefault rank d k [] in
  dict_set rank d' k (per ++ [it]).

Definition split_list_per_column (reserved_word_list : list item) (column : nat)
  : Result (list (ascii * list item)) :=
  let* _ := assert (negb (length reserved_word_list =? 0)) in
  let* column_dict :=
    for_each reserved_word_list
      (fun it column_dict =>
         let '(index, word) := it in
         let* c := char_at word column in
         Ok (setdefault_append ord column_dict c it))
      [] in
  Ok (sorted_items ord column_dict).

Definition split_list_per_length (reserved_word_list : list item)
  : Result (list (nat * list item)) :=
  let* _ := assert (negb (length reserved_word_list =? 0)) in
  let* length_dict :=
    for_each reserved_word_list
      (fun it length_dict =>
         let '(index, word) := it in
         Ok (setdefault_append (fun k : nat => k) length_dict (String.length word) it))
      [] in
  Ok (sorted_items (fun k : nat => k) length_dict).

(** [if not columns: columns = range(0, unprocessed_columns)]: the default
    [None] and an empty list are both replaced. *)
Definition default_columns (columns : option (list nat)) (unprocessed_columns : nat)
  : list nat :=
  match columns with
  | None | Some [] => range 0 unprocessed_columns
  | Some cs => cs
  end.

Definition got_match (index : Z) (word : string) : string :=
  fmt ["JSRW_GOT_MATCH("; str_of_Z index; ") /* "; word; " */"].

Definition test_guess (index : Z) (word : string) : string :=
  fmt ["JSRW_TEST_GUESS("; str_of_Z index; ") /* "; word; " */"].

Definition cond_text (column : nat) (c : ascii) : string :=
  fmt ["JSRW_AT("; str_of_nat column; ")=="; repr_char c].

(** The recursion is on [unprocessed_columns]: the only recursive call
    is made below the assertion [unprocessed_columns != 0], with
    [unprocessed_columns - 1]. *)
Fixpoint generate_letter_switch (unprocessed_columns : nat)
    (reserved_word_list : list item) (columns : option (list nat))
    {struct unprocessed_columns} : Gen unit :=
  lift (assert (negb (length reserved_word_list =? 0))) ;;
  let columns := default_columns columns unprocessed_columns in
  if length reserved_word_list =? 1 then
    '(index, word) <- lift (getitem reserved_word_list 0) ;;
    if unprocessed_columns =? 0 then
      line (got_match index word)
    else
      opt <- get_opt ;;
      if char_tail_test_threshold opt <? unprocessed_columns then
        line (test_guess index word)
      else
        conds <- lift (for_each (firstn unprocessed_columns columns)
                         (fun column conds =>
                            let* c := char_at word column in
                            Ok (conds ++ [cond_text column c]))
                         []) ;;
        line (fmt ["if ("; join " && " conds; ") {"]) ;;
        indent ;;
        line (got_match index word) ;;
        dedent ;;
        line "}" ;;
        line "JSRW_NO_MATCH()"
  else
    match unprocessed_columns with
    | O => lift (Raise AssertionError)
    | S unprocessed_columns_minus_1 =>
        opt <- get_opt ;;
        '(optimal_column_index, use_if) <-
          lift (optimal_switch_column opt reserved_word_list columns
                  unprocessed_columns) ;;
        optimal_column <- lift (getitem columns optimal_column_index) ;;
        last_column <- lift (getitem columns (unprocessed_columns - 1)) ;;
        columns <- lift (setitem columns optimal_column_index last_column) ;;
        list_per_column <-
          lift (split_list_per_column reserved_word_list optimal_column) ;;
        (if negb use_if
         then line (fmt ["switch (JSRW_AT("; str_of_nat optimal_column; ")) {"])
         else ret tt) ;;
        gen_for_each list_per_column
          (fun '(char, reserved_word_list_per_column) =>
             let quoted := repr_char char in
             (if use_if
              then line (fmt ["if (JSRW_AT("; str_of_nat optimal_column;
                              ") == "; quoted; ") {"])
              else line (fmt ["  case "; quoted; ":"])) ;;
             indent ;;
             generate_letter_switch unprocessed_columns_minus_1
               reserved_word_list_per_column (Some columns) ;;
             dedent ;;
             (if use_if then line "}" else ret tt)) ;;
        (if negb use_if then line "}" else ret tt) ;;
        line "JSRW_NO_MATCH()"
    end.

Definition generate_switch (reserved_word_list : list item) : Gen unit :=
  lift (assert (negb (length reserved_word_list =? 0))) ;;
  line "/*" ;;
  line (fmt [" * Generating switch for the list of ";
             str_of_nat (length reserved_word_list); " entries:"]) ;;
  gen_for_each reserved_word_list
    (fun '(index, word) => line (fmt [" * "; word])) ;;
  line " */" ;;
  list_per_length <- lift (split_list_per_length reserved_word_list) ;;
  opt <- get_opt ;;
  let use_if := length list_per_length <? use_if_threshold opt in
  (if negb use_if then line "switch (JSRW_LENGTH()) {" else ret tt) ;;
  gen_for_each list_per_length
    (fun '(length, reserved_word_list_per_length) =>
       (if use_if
        then line (fmt ["if (JSRW_LENGTH() == "; str_of_nat length; ") {"])
        else line (fmt ["  case "; str_of_nat length; ":"])) ;;
       indent ;;
       generate_letter_switch length reserved_word_list_per_length None ;;
       dedent ;;
       (if use_if then line "}" else ret tt)) ;;
  (if negb use_if then line "}" else ret tt) ;;
  line "JSRW_NO_MATCH()".

(** [main]: the list comes from [ReservedWordReader], which is another
    module; [main] receives what the reader returned. *)
Definition main_opt (out : list string) : Opt := mkOpt 1 3 4 out.

Definition main (out : list string) (reserved_word_list : list item)
  : Result unit * Opt :=
  generate_switch reserved_word_list (main_opt out).

(** The text in the stream: the chunks written, one after the other. *)
Definition contents (opt : Opt) : string := fmt (output opt).

(** ** The decision tree behind the emitted text

    The generator prints as it recurses.  To speak about the procedure it
    prints, [build_letter_switch] and [build_switch] follow the same
    recursion and return the tree of dispatches and leaves instead of
    lines; [render_node] and [render_switch] print a tree, and the
    theorems [generate_letter_switch_renders] and [generate_switch_renders]
    below show that the generator writes exactly the rendering of the tree
    built. *)

#[warnings="-register-all"]
Inductive DecisionNode : Type :=
| LeafMatch (index : Z) (word : string)
| LeafGuessMatch (index : Z) (word : string)
| TailTest (tests : list (nat * ascii)) (index : Z) (word : string)
| ColumnDispatch (column : nat) (use_if : bool)
    (children : list (ascii * DecisionNode)).

Record DecisionTree : Type := LengthDispatch {
  header_words : list string;
  length_use_if : bool;
  length_children : list (nat * DecisionNode)
}.

(** [[f(x) for x in xs]], stopping at the first exception. *)
Fixpoint map_result {X Y : Type} (f : X -> Result Y) (xs : list X)
  : Result (list Y) :=
  match xs with
  | [] => Ok []
  | x :: tl =>
      let* y := f x in
      let* ys := map_result f tl in
      Ok (y :: ys)
  end.

Fixpoint build_letter_switch (opt : Opt) (unprocessed_columns : nat)
    (reserved_word_list : list item) (columns : option (list nat))
    {struct unprocessed_columns} : Result DecisionNode :=
  let* _ := assert (negb (length reserved_word_list =? 0)) in
  let columns := default_columns columns unprocessed_columns in
  if length reserved_word_list =? 1 then
    let* '(index, word) := getitem reserved_word_list 0 in
    if unprocessed_columns =? 0 then Ok (LeafMatch index word)
    else if char_tail_test_threshold opt <? unprocessed_columns
    then Ok (LeafGuessMatch index word)
    else
      let* tests := map_result
                      (fun column =>
                         let* c := char_at word column in Ok (column, c))
                      (firstn unprocessed_columns columns) in
      Ok (TailTest tests index word)
  else
    match unprocessed_columns with
    | O => Raise AssertionError
    | S unprocessed_columns_minus_1 =>
        let* '(optimal_column_index, use_if) :=
          optimal_switch_column opt reserved_word_list columns
            unprocessed_columns in
        let* optimal_column := getitem columns optimal_column_index in
        let* last_column := getitem columns (unprocessed_columns - 1) in
        let* columns := setitem columns optimal_column_index last_column in
        let* list_per_column :=
          split_list_per_column reserved_word_list optimal_column in
        let* children :=
          map_result
            (fun '(char, reserved_word_list_per_column) =>
               let* t := build_letter_switch opt unprocessed_columns_minus_1
                           reserved_word_list_per_column (Some columns) in
               Ok (char, t))
            list_per_column in
        Ok (ColumnDispatch optimal_column use_if children)
    end.

Definition build_switch (opt : Opt) (reserved_word_list : list item)
  : Result DecisionTree :=
  let* _ := assert (negb (length reserved_word_list =? 0)) in
  let* list_per_length := split_list_per_length reserved_word_list in
  let use_if := length list_per_length <? use_if_threshold opt in
  let* children :=
    map_result
      (fun '(length, reserved_word_list_per_length) =>
         let* t := build_letter_switch opt length
                     reserved_word_list_per_length None in
         Ok (length, t))
      list_per_length in
  Ok (LengthDispatch (map snd reserved_word_list) use_if children).

(** *** Printing a tree *)

(** The chunk [line] writes at indentation [lvl]. *)
Definition line_at (lvl : Z) (s : string) : string :=
  fmt [str_mul "    " lvl; s; newline].

Fixpoint render_node (lvl : Z) (t : DecisionNode) : list string :=
  match t with
  | LeafMatch index word => [line_at lvl (got_match index word)]
  | LeafGuessMatch index word => [line_at lvl (test_guess index word)]
  | TailTest tests index word =>
      [line_at lvl
         (fmt ["if (";
               join " && " (map (fun '(column, c) => cond_text column c) tests);
               ") {"]);
       line_at (lvl + 1) (got_match index word);
       line_at lvl "}";
       line_at lvl "JSRW_NO_MATCH()"]
  | ColumnDispatch column use_if children =>
      (if negb use_if
       then [line_at lvl (fmt ["switch (JSRW_AT("; str_of_nat column; ")) {"])]
       else [])
      ++ flat_map
           (fun '(char, child) =>
              (if use_if
               then [line_at lvl (fmt ["if (JSRW_AT("; str_of_nat column;
                                       ") == "; repr_char char; ") {"])]
               else [line_at lvl (fmt ["  case "; repr_char char; ":"])])
              ++ render_node (lvl + 1) child
              ++ (if use_if then [line_at lvl "}"] else []))
           children
      ++ (if negb use_if then [line_at lvl "}"] else [])
      ++ [line_at lvl "JSRW_NO_MATCH()"]
  end.

Definition render_header (lvl : Z) (words : list string) : list string :=
  [line_at lvl "/*";
   line_at lvl (fmt [" * Generating switch for the list of ";
                     str_of_nat (length words); " entries:"])]
  ++ map (fun word => line_at lvl (fmt [" * "; word])) words
  ++ [line_at lvl " */"].

Definition render_length_children (lvl : Z) (use_if : bool)
    (cs : list (nat * DecisionNode)) : list string :=
  flat_map
    (fun '(len, child) =>
       (if use_if
        then [line_at lvl (fmt ["if (JSRW_LENGTH() == "; str_of_nat len; ") {"])]
        else [line_at lvl (fmt ["  case "; str_of_nat len; ":"])])
       ++ render_node (lvl + 1) child
       ++ (if use_if then [line_at lvl "}"] else []))
    cs.

Definition render_dispatch (lvl : Z) (t : DecisionTree) : list string :=
  (if negb (length_use_if t) then [line_at lvl "switch (JSRW_LENGTH()) {"] else [])
  ++ render_length_children lvl (length_use_if t) (length_children t)
  ++ (if negb (length_use_if t) then [line_at lvl "}"] else [])
  ++ [line_at lvl "JSRW_NO_MATCH()"].

Definition render_switch (lvl : Z) (t : DecisionTree) : list string :=
  render_header lvl (header_words t) ++ render_dispatch lvl t.

(** The state after [lines] have been written. *)
Definition emit (opt : Opt) (lines : list string) : Opt :=
  mkOpt (indent_level opt) (use_if_threshold opt) (char_tail_test_threshold opt)
        (output opt ++ lines).

(** *** Running the emitted procedure

    The macros are given the meaning the surrounding recogniser gives
    them: [JSRW_AT(i)] reads the candidate at [i], [JSRW_GOT_MATCH],
    [JSRW_TEST_GUESS] and [JSRW_NO_MATCH] leave the procedure.  Every
    branch body ends by leaving the procedure, so an if-chain and a switch
    take the same branch: the first whose character fits.  [run_node]
    returns the columns the run consults, each listed once in the order
    of the run, and the way the procedure is left.  How often [JSRW_AT]
    is evaluated on a column is another matter, see [reads_node]. *)

Inductive Outcome : Type :=
| GOT_MATCH (index : Z)
| TEST_GUESS (index : Z)
| NO_MATCH.

Definition at_is (s : string) (column : nat) (c : ascii) : bool :=
  match String.get column s with
  | Some x => Ascii.eqb x c
  | None => false
  end.

Definition reading (column : nat) (r : list nat * Outcome) : list nat * Outcome :=
  (column :: fst r, snd r).

(** [c1 && c2 && ...] guarding a match: evaluation stops at the first
    test that fails. *)
Fixpoint run_tests (tests : list (nat * ascii)) (index : Z) (s : string)
  : list nat * Outcome :=
  match tests with
  | [] => ([], GOT_MATCH index)
  | (column, c) :: tl =>
      if at_is s column c
      then reading column (run_tests tl index s)
      else ([column], NO_MATCH)
  end.

(** A chain of branches, each body leaving the procedure: the first
    branch whose test holds runs, [default] if there is none. *)
Section FirstBranch.
Context {K T R : Type} (test : K -> bool) (body : T -> R) (default : R).

Fixpoint first_branch (cs : list (K * T)) : R :=
  match cs with
  | [] => default
  | (k, t) :: tl => if test k then body t else first_branch tl
  end.
End FirstBranch.

Fixpoint run_node (t : DecisionNode) (s : string) : list nat * Outcome :=
  match t with
  | LeafMatch index _ => ([], GOT_MATCH index)
  | LeafGuessMatch index _ => ([], TEST_GUESS index)
  | TailTest tests index _ => run_tests tests index s
  | ColumnDispatch column _ children =>
      reading column
        (first_branch (at_is s column) (fun child => run_node child s)
           ([], NO_MATCH) children)
  end.

Definition run_length_children (cs : list (nat * DecisionNode)) (s : string)
  : list nat * Outcome :=
  first_branch (Nat.eqb (String.length s)) (fun child => run_node child s)
    ([], NO_MATCH) cs.

Definition run_switch (t : DecisionTree) (s : string) : list nat * Outcome :=
  run_length_children (length_children t) s.

(** The columns tested along each path from a node down to a leaf, the
    trailing [JSRW_NO_MATCH()] of a dispatch included. *)
Fixpoint paths (t : DecisionNode) : list (list nat) :=
  match t with
  | LeafMatch _ _ => [[]]
  | LeafGuessMatch _ _ => [[]]
  | TailTest tests _ _ => [map fst tests]
  | ColumnDispatch column _ children =>
      [column]
      :: flat_map (fun '(_, child) => map (cons column) (paths child)) children
  end.

Definition paths_switch (t : DecisionTree) : list (list nat) :=
  flat_map (fun '(_, child) => paths child) (length_children t).

(** ** Vocabulary of the statements

    The notions the properties are stated with.  None of them is used by
    the generator: they describe its inputs and what it returns. *)

(** The character of a word at a column and its code; [zero] and [0] stand
    for a column the word does not reach. *)
Definition char_of (column : nat) (it : item) : ascii :=
  match String.get column (snd it) with
  | Some c => c
  | None => zero
  end.

Definition code_at (column : nat) (it : item) : nat :=
  match String.get column (snd it) with
  | Some c => ord c
  | None => 0
  end.

Definition word_length (it : item) : nat := String.length (snd it).

Definition column_codes (l : list item) (column : nat) : list nat :=
  map (code_at column) l.

Definition max_code (l : list item) (column : nat) : nat :=
  fold_right Nat.max 0 (column_codes l column).

Definition min_code (l : list item) (column : nat) : nat :=
  fold_right Nat.min (max_code l column) (column_codes l column).

(** Span: greatest code - least code + 1. *)
Definition span_of (l : list item) (column : nat) : Z :=
  (Z.of_nat (max_code l column) - Z.of_nat (min_code l column) + 1)%Z.

(** Count: the number of distinct characters. *)
Definition count_of (l : list item) (column : nat) : nat :=
  length (nodup Nat.eq_dec (column_codes l column)).

(** All the words carry the same character in a column. *)
Definition shared_column (l : list item) (column : nat) : Prop :=
  forall it1 it2, In it1 l -> In it2 l -> code_at column it1 = code_at column it2.

(** Every word of [l] has a character at [column]. *)
Definition column_in_range (l : list item) (column : nat) : Prop :=
  forall it, In it l -> column < String.length (snd it).

Definition rank_le {A : Type} (rank : A -> nat) (a b : A) : Prop := rank a <= rank b.
Definition rank_lt {A : Type} (rank : A -> nat) (a b : A) : Prop := rank a < rank b.

Definition has_rank {K : Type} (rank : K -> nat) (k : K) (ks : list K) : bool :=
  existsb (fun k' => rank k' =? rank k) ks.

(** The keys of a list, each kept where it first occurs. *)
Definition distinct_keys {K : Type} (rank : K -> nat) (ks : list K) : list K :=
  fold_left (fun acc k => if has_rank rank k acc then acc else acc ++ [k]) ks [].

(** The entries of [l] whose key has the rank of [k], in the order of [l]. *)
Definition group_of {K : Type} (rank : K -> nat) (key : item -> K)
    (l : list item) (k : K) : list item :=
  filter (fun it => rank (key it) =? rank k) l.

(** The dictionary the splitting loops build. *)
Definition grouping {K : Type} (rank : K -> nat) (key : item -> K)
    (l : list item) : list (K * list item) :=
  fold_left (fun d it => setdefault_append rank d (key it) it) l [].

(** The distinct keys of [l], in ascending order. *)
Definition sorted_keys {K : Type} (rank : K -> nat) (key : item -> K)
    (l : list item) : list K :=
  sorted rank (distinct_keys rank (map key l)).

(** [k] is the first position below [n] where [f] is least. *)
Definition first_min (f : nat -> Z) (n k : nat) : Prop :=
  k < n /\ (forall j, j < n -> (f k <= f j)%Z) /\ (forall j, j < k -> (f k < f j)%Z).

Definition column_of (columns : list nat) (index : nat) : nat := nth index columns 0.

Definition span_at (l : list item) (columns : list nat) (index : nat) : Z :=
  span_of l (column_of columns index).

Definition count_at (l : list item) (columns : list nat) (index : nat) : Z :=
  Z.of_nat (count_of l (column_of columns index)).

(** Position [index] of [columns] holds a column every word reaches. *)
Definition scannable (l : list item) (columns : list nat) (index : nat) : Prop :=
  index < length columns /\ column_in_range l (column_of columns index).

(** One step of the scan that does not return. *)
Definition scan_update (st : ScanState) (index : nat) (span : Z) (count : nat)
  : ScanState :=
  let st := if (index =? 0) || (span <? min_span st)%Z
            then mkScan (min_count st) span (min_count_index st) index else st in
  if (index =? 0) || (count <? min_count st)
  then mkScan count (min_span st) index (min_span_index st) else st.

(** What the scan knows after [m] columns. *)
Definition scan_inv (l : list item) (columns : list nat) (st : ScanState) (m : nat)
  : Prop :=
  first_min (span_at l columns) m (min_span_index st)
  /\ min_span st = span_at l columns (min_span_index st)
  /\ first_min (count_at l columns) m (min_count_index st)
  /\ Z.of_nat (min_count st) = count_at l columns (min_count_index st).

(** The state with another indentation level. *)
Definition with_indent (opt : Opt) (z : Z) : Opt :=
  mkOpt z (use_if_threshold opt) (char_tail_test_threshold opt) (output opt).

Definition same_thresholds (opt0 opt : Opt) : Prop :=
  use_if_threshold opt = use_if_threshold opt0
  /\ char_tail_test_threshold opt = char_tail_test_threshold opt0.

(** A corpus the reader may hand over: not empty, no word twice. *)
Definition valid_corpus (l : list item) : Prop :=
  l <> [] /\ NoDup (map snd l).

(** The situation at a node of the recursion: the words have length [L],
    are pairwise distinct, the first [n] entries of [columns] are distinct
    columns below [L], and the words agree on every other column. *)
Record node_inv (L n : nat) (l : list item) (columns : list nat) : Prop := {
  inv_nonempty : l <> [];
  inv_length : forall it, In it l -> word_length it = L;
  inv_distinct : NoDup (map snd l);
  inv_n : n <= length columns;
  inv_window_nodup : NoDup (firstn n columns);
  inv_window_range : forall c, In c (firstn n columns) -> c < L;
  inv_agree : forall p, p < L -> ~ In p (firstn n columns) -> shared_column l p
}.

(** A run on a word of index [index], at a node with [n] columns left:
    the columns read are distinct and among those left; the word is
    accepted after all [n] were read, or guessed with more than the
    threshold left unread. *)
Definition run_ok (opt : Opt) (n : nat) (columns : list nat) (index : Z)
    (r : list nat * Outcome) : Prop :=
  NoDup (fst r) /\ incl (fst r) (firstn n columns)
  /\ ((snd r = GOT_MATCH index /\ length (fst r) = n)
      \/ (snd r = TEST_GUESS index
          /\ char_tail_test_threshold opt < n - length (fst r))).

Definition node_ok (opt : Opt) (n : nat) (l : list item) (columns : list nat)
    (t : DecisionNode) : Prop :=
  (forall index word, In (index, word) l ->
     run_ok opt n columns index (run_node t word))
  /\ (forall p, In p (paths t) -> NoDup p /\ incl p (firstn n columns)).

(** The lengths of the words, ascending, and the words of one length. *)
Definition length_keys (l : list item) : list nat :=
  sorted_keys (fun k : nat => k) word_length l.

Definition length_group (l : list item) (len : nat) : list item :=
  group_of (fun k : nat => k) word_length l len.

(** Whatever [m] does, the stream it leaves is the one it found, with
    chunks added at the end. *)
Definition appends {A : Type} (m : Gen A) : Prop :=
  forall opt, exists ls, output (snd (m opt)) = output opt ++ ls.

(** Sample corpora. *)
Definition corpus_A : list item := [(0%Z, "if"); (1%Z, "in"); (2%Z, "int")].

Definition corpus_B : list item :=
  [(0%Z, "case"); (1%Z, "else"); (2%Z, "enum"); (3%Z, "null"); (4%Z, "this")].

Definition corpus_C : list item := [(0%Z, "ab"); (1%Z, "ac")].

Definition corpus_D : list item := [(0%Z, "if"); (1%Z, "in")].
Definition corpus_D' : list item := [(1%Z, "in"); (0%Z, "if")].

(** *** Vocabulary of the further properties *)

(** [s] carries, on every column below [L] outside the window, the
    character all the words of [l] carry there. *)
Definition agrees_outside (s : string) (L n : nat) (columns : list nat)
    (l : list item) : Prop :=
  forall p, p < L -> ~ In p (firstn n columns) ->
  forall it, In it l -> String.get p s = String.get p (snd it).

(** What a run on any string [s] of the right length may do at a node:
    it reads distinct columns of the window; it accepts only [s] itself,
    guesses only a word that carries the characters of [s] on the columns
    read, and rejects only strings that are not among the words. *)
Definition run_sound (opt : Opt) (n : nat) (columns : list nat) (l : list item)
    (s : string) (r : list nat * Outcome) : Prop :=
  NoDup (fst r) /\ incl (fst r) (firstn n columns)
  /\ match snd r with
     | GOT_MATCH i => In (i, s) l
     | TEST_GUESS i =>
         exists w, In (i, w) l
                   /\ (forall c, In c (fst r) -> String.get c s = String.get c w)
                   /\ char_tail_test_threshold opt < n - length (fst r)
     | NO_MATCH => forall i, ~ In (i, s) l
     end.

(** A tree is sound for a node when every run on a string of length [L]
    that agrees with the words outside the window is. *)
Definition sound_node (opt : Opt) (L n : nat) (l : list item)
    (columns : list nat) (t : DecisionNode) : Prop :=
  forall s, String.length s = L -> agrees_outside s L n columns l ->
            run_sound opt n columns l s (run_node t s).

(** The entries at the leaves of a tree, left to right. *)
Fixpoint leaves (t : DecisionNode) : list item :=
  match t with
  | LeafMatch index word => [(index, word)]
  | LeafGuessMatch index word => [(index, word)]
  | TailTest _ index word => [(index, word)]
  | ColumnDispatch _ _ children => flat_map (fun '(_, child) => leaves child) children
  end.

Definition leaves_switch (t : DecisionTree) : list item :=
  flat_map (fun '(_, child) => leaves child) (length_children t).

(** Every dispatch on a character has at least one branch, and its
    branches come in strictly ascending order of character code. *)
Fixpoint labels_ascending (t : DecisionNode) : Prop :=
  match t with
  | ColumnDispatch _ _ children =>
      children <> []
      /\ StronglySorted (fun c1 c2 => ord c1 < ord c2) (map fst children)
      /\ fold_right (fun '(_, child) rest => labels_ascending child /\ rest)
           True children
  | _ => True
  end.

(** Two entries of the list carry the same word. *)
Definition repeats_word (l : list item) : Prop :=
  exists l1 a l2 b l3, l = l1 ++ a :: l2 ++ b :: l3 /\ snd a = snd b.

(** Every [switch] on a character has more than [threshold] branches. *)
Fixpoint switches_wide (threshold : nat) (t : DecisionNode) : Prop :=
  match t with
  | ColumnDispatch _ use_if children =>
      (use_if = false -> threshold < length children)
      /\ fold_right (fun '(_, child) rest => switches_wide threshold child /\ rest)
           True children
  | _ => True
  end.

(** *** Every evaluation of [JSRW_AT]

    [run_node] lists each column a run consults once.  The text evaluates
    [JSRW_AT] more often than that: [switch (JSRW_AT(c))] evaluates it
    once, but a chain of [if (JSRW_AT(c) == ...)] evaluates it again for
    every branch it tries, up to the one that is taken.  [reads_node]
    lists every evaluation, in the order of the run. *)
Fixpoint reads_tests (tests : list (nat * ascii)) (s : string) : list nat :=
  match tests with
  | [] => []
  | (column, c) :: tl =>
      column :: (if at_is s column c then reads_tests tl s else [])
  end.

Section IfChain.
Context {T : Type} (s : string) (column : nat) (body : T -> list nat).

Fixpoint reads_chain (cs : list (ascii * T)) : list nat :=
  match cs with
  | [] => []
  | (c, t) :: tl =>
      column :: (if at_is s column c then body t else reads_chain tl)
  end.
End IfChain.

Fixpoint reads_node (t : DecisionNode) (s : string) : list nat :=
  match t with
  | LeafMatch _ _ => []
  | LeafGuessMatch _ _ => []
  | TailTest tests _ _ => reads_tests tests s
  | ColumnDispatch column use_if children =>
      if use_if
      then reads_chain s column (fun child => reads_node child s) children
      else column :: first_branch (at_is s column)
                       (fun child => reads_node child s) [] children
  end.

Definition reads_switch (t : DecisionTree) (s : string) : list nat :=
  first_branch (Nat.eqb (String.length s)) (fun child => reads_node child s)
    [] (length_children t).

(** The evaluations of one position come one after the other: between
    two reads of [c] only [c] is read. *)
Definition reads_in_runs (reads : list nat) : Prop :=
  forall a b d c, reads = a ++ c :: b ++ c :: d -> forall x, In x b -> x = c.

(** What the reads at a node are: columns of the window, each position in
    one run, and the same positions as the columns [run_node] lists. *)
Definition reads_ok (n : nat) (columns : list nat) (t : DecisionNode) : Prop :=
  forall s,
    incl (reads_node t s) (firstn n columns)
    /\ reads_in_runs (reads_node t s)
    /\ forall c, In c (reads_node t s) <-> In c (fst (run_node t s)).

(** * Properties *)

(** ** The generator writes the rendering of the tree it builds *)

Lemma emit_nil opt : emit opt [] = opt.
Proof. destruct opt; unfold emit; simpl; now rewrite app_nil_r. Qed.

Lemma emit_emit opt a b : emit (emit opt a) b = emit opt (a ++ b).
Proof. unfold emit; simpl; now rewrite app_assoc. Qed.

Lemma line_run s opt :
  line s opt = (Ok tt, emit opt [line_at (indent_level opt) s]).
Proof. reflexivity. Qed.

Lemma indent_run opt : indent opt = (Ok tt, with_indent opt (indent_level opt + 1)).
Proof. reflexivity. Qed.

Lemma dedent_run opt : dedent opt = (Ok tt, with_indent opt (indent_level opt - 1)).
Proof. reflexivity. Qed.

Lemma for_each_conds word xs acc :
  for_each xs
    (fun column conds =>
       let* c := char_at word column in Ok (conds ++ [cond_text column c])) acc
  = let* tests := map_result
                    (fun column => let* c := char_at word column in Ok (column, c))
                    xs in
    Ok (acc ++ map (fun '(column, c) => cond_text column c) tests).
Proof.
  revert acc; induction xs as [|x xs IH]; intros acc; simpl.
  - now rewrite app_nil_r.
  - destruct (char_at word x) as [c|e]; simpl; [|reflexivity].
    rewrite IH.
    destruct (map_result _ xs) as [tests|e]; simpl; [|reflexivity].
    now rewrite <- app_assoc.
Qed.

Section GeneratorRenders.
Variable opt0 : Opt.

Lemma same_thresholds_emit opt ls :
  same_thresholds opt0 opt -> same_thresholds opt0 (emit opt ls).
Proof. now intros [? ?]. Qed.

Lemma same_thresholds_indent opt z :
  same_thresholds opt0 opt -> same_thresholds opt0 (with_indent opt z).
Proof. now intros [? ?]. Qed.

Lemma optimal_switch_column_thresholds opt l cols n :
  same_thresholds opt0 opt ->
  optimal_switch_column opt l cols n = optimal_switch_column opt0 l cols n.
Proof. intros [Hu _]; unfold optimal_switch_column; now rewrite Hu. Qed.

Lemma gen_for_each_blocks {K : Type} (head : K -> Gen unit) (hd : Z -> K -> list string)
    (tail : Gen unit) (tl : Z -> list string)
    (body : K -> list item -> Gen unit) (build : K -> list item -> Result DecisionNode) :
  (forall k opt, head k opt = (Ok tt, emit opt (hd (indent_level opt) k))) ->
  (forall opt, tail opt = (Ok tt, emit opt (tl (indent_level opt)))) ->
  (forall k g opt t, same_thresholds opt0 opt -> build k g = Ok t ->
     body k g opt = (Ok tt, emit opt (render_node (indent_level opt) t))) ->
  forall (xs : list (K * list item)) children opt,
    same_thresholds opt0 opt ->
    map_result (fun '(k, g) => let* t := build k g in Ok (k, t)) xs = Ok children ->
    gen_for_each xs (fun '(k, g) => head k ;; indent ;; body k g ;; dedent ;; tail) opt
    = (Ok tt,
       emit opt
         (flat_map
            (fun '(k, child) =>
               hd (indent_level opt) k
               ++ render_node (indent_level opt + 1) child
               ++ tl (indent_level opt))
            children)).
Proof.
  intros Hhead Htail Hbody.
  induction xs as [|[k g] xs IHl]; intros children opt Hs Hm; simpl in Hm.
  - inversion Hm; subst. simpl. now rewrite emit_nil.
  - destruct (build k g) as [t|e] eqn:Hb; simpl in Hm; [|discriminate].
    destruct (map_result _ xs) as [cs|e] eqn:Hcs; simpl in Hm; [|discriminate].
    inversion Hm; subst children; clear Hm.
    cbn [gen_for_each flat_map]. unfold gbind.
    rewrite Hhead, indent_run.
    rewrite (Hbody k g _ t); [|now apply same_thresholds_indent, same_thresholds_emit|exact Hb].
    rewrite dedent_run, Htail.
    cbn [indent_level emit with_indent].
    match goal with |- gen_for_each _ _ ?o = _ =>
      replace o with (emit opt (hd (indent_level opt) k
               ++ render_node (indent_level opt + 1) t
               ++ tl (indent_level opt)))
    end.
    2:{ destruct opt as [lvl u c out]; unfold emit, with_indent; cbn.
        replace (lvl + 1 - 1)%Z with lvl by lia.
        f_equal. now rewrite <- !app_assoc. }
    fold (@gbind unit unit) in IHl. 
    rewrite (IHl cs); [|now apply same_thresholds_emit|reflexivity].
    rewrite emit_emit. cbn [indent_level emit]. now rewrite <- !app_assoc.
Qed.

Lemma opt_line_run (b : bool) s opt :
  (if b then line s else ret tt) opt
  = (Ok tt, emit opt (if b then [line_at (indent_level opt) s] else [])).
Proof. destruct b; [reflexivity|]. unfold ret. now rewrite emit_nil. Qed.

Lemma ite_line_run (b : bool) s1 s2 opt :
  (if b then line s1 else line s2) opt
  = (Ok tt, emit opt (if b then [line_at (indent_level opt) s1]
                      else [line_at (indent_level opt) s2])).
Proof. now destruct b. Qed.

Lemma generate_letter_switch_renders n :
  forall l cols opt t,
    same_thresholds opt0 opt ->
    build_letter_switch opt0 n l cols = Ok t ->
    generate_letter_switch n l cols opt
    = (Ok tt, emit opt (render_node (indent_level opt) t)).
Proof.
  induction n as [|n IH]; intros l cols opt t Hs Hb.
  - cbn [build_letter_switch generate_letter_switch] in *.
    destruct (negb (length l =? 0)); cbn in Hb |- *; [|discriminate].
    unfold gbind at 1; cbn [lift assert].
    destruct (length l =? 1); [|discriminate].
    destruct (getitem l 0) as [[index word]|e]; cbn in Hb |- *; [|discriminate].
    inversion Hb; subst; reflexivity.
  - cbn [build_letter_switch generate_letter_switch] in *.
    destruct (negb (length l =? 0)); cbn [assert bind] in Hb |- *; [|discriminate].
    unfold gbind at 1; cbn [lift assert].
    destruct (length l =? 1).
    + destruct (getitem l 0) as [[index word]|e]; cbn [bind] in Hb |- *; [|discriminate].
      unfold gbind at 1; cbn [lift].
      cbn [Nat.eqb] in Hb |- *.
      unfold gbind at 1; cbn [get_opt].
      destruct Hs as [Hu Hc]. rewrite Hc.
      destruct (char_tail_test_threshold opt0 <? S n).
      * inversion Hb; subst; reflexivity.
      * unfold gbind at 1; cbn [lift]. rewrite for_each_conds.
        destruct (map_result _ _) as [tests|e]; cbn [bind] in Hb |- *; [|discriminate].
        inversion Hb; subst; clear Hb.
        unfold gbind.
        repeat (first [rewrite line_run | rewrite indent_run | rewrite dedent_run];
                cbv beta iota).
        f_equal.
        destruct opt as [lvl u c out]; unfold emit, with_indent; cbn [indent_level use_if_threshold char_tail_test_threshold output render_node].
        replace (lvl + 1 - 1)%Z with lvl by lia.
        now rewrite <- !app_assoc.
    + unfold gbind at 1; cbn [get_opt].
      rewrite (optimal_switch_column_thresholds opt) by exact Hs.
      destruct (optimal_switch_column opt0 l _ (S n)) as [[oci use_if]|e];
        cbn [bind] in Hb |- *; [|discriminate].
      unfold gbind at 1; cbn [lift].
      destruct (getitem _ oci) as [optimal_column|e]; cbn [bind] in Hb |- *; [|discriminate].
      unfold gbind at 1; cbn [lift].
      destruct (getitem _ (S n - 1)) as [last_column|e]; cbn [bind] in Hb |- *; [|discriminate].
      unfold gbind at 1; cbn [lift].
      destruct (setitem _ oci last_column) as [columns|e]; cbn [bind] in Hb |- *; [|discriminate].
      unfold gbind at 1; cbn [lift].
      destruct (split_list_per_column l optimal_column) as [lpc|e];
        cbn [bind] in Hb |- *; [|discriminate].
      destruct (map_result _ lpc) as [children|e] eqn:Hch; cbn [bind] in Hb; [|discriminate].
      inversion Hb; subst t; clear Hb.
      unfold gbind at 1; cbn [lift].
      unfold gbind at 1. rewrite opt_line_run.
      unfold gbind at 1.
      rewrite (gen_for_each_blocks
                 (fun char => if use_if
                     then line (fmt ["if (JSRW_AT("; str_of_nat optimal_column;
                                     ") == "; repr_char char; ") {"])
                     else line (fmt ["  case "; repr_char char; ":"]))
                 (fun lvl char => if use_if
                     then [line_at lvl (fmt ["if (JSRW_AT("; str_of_nat optimal_column;
                                     ") == "; repr_char char; ") {"])]
                     else [line_at lvl (fmt ["  case "; repr_char char; ":"])])
                 (if use_if then line "}" else ret tt)
                 (fun lvl => if use_if then [line_at lvl "}"] else [])
                 (fun _ g => generate_letter_switch n g (Some columns))
                 (fun _ g => build_letter_switch opt0 n g (Some columns))
                 ltac:(intros; apply ite_line_run)
                 ltac:(intros; apply opt_line_run)
                 ltac:(intros; now apply IH)
                 lpc children);
        [|now apply same_thresholds_emit|exact Hch].
      unfold gbind. rewrite opt_line_run, line_run.
      rewrite !emit_emit. cbn [indent_level emit render_node].
      rewrite <- ?app_assoc. reflexivity.
Qed.

Lemma header_words_run (l : list item) opt :
  gen_for_each l (fun '(index, word) => line (fmt [" * "; word])) opt
  = (Ok tt, emit opt (map (fun word => line_at (indent_level opt) (fmt [" * "; word]))
                        (map snd l))).
Proof.
  revert opt; induction l as [|[index word] l IH]; intros opt.
  - cbn. unfold ret. now rewrite emit_nil.
  - cbn [gen_for_each map snd]. unfold gbind. rewrite line_run, IH, emit_emit.
    reflexivity.
Qed.

Lemma generate_switch_renders l opt t :
  same_thresholds opt0 opt ->
  build_switch opt0 l = Ok t ->
  generate_switch l opt = (Ok tt, emit opt (render_switch (indent_level opt) t)).
Proof.
  intros Hs Hb. unfold build_switch, generate_switch in *.
  destruct (negb (length l =? 0)); cbn [assert bind] in Hb |- *; [|discriminate].
  unfold gbind at 1; cbn [lift].
  unfold gbind at 1; rewrite line_run.
  unfold gbind at 1; rewrite line_run.
  unfold gbind at 1; rewrite header_words_run.
  unfold gbind at 1; rewrite line_run.
  destruct (split_list_per_length l) as [lpl|e]; cbn [bind] in Hb |- *; [|discriminate].
  unfold gbind at 1; cbn [lift].
  unfold gbind at 1; cbn [get_opt].
  destruct (map_result _ lpl) as [children|e] eqn:Hch; cbn [bind] in Hb; [|discriminate].
  inversion Hb; subst t; clear Hb.
  rewrite !emit_emit. cbn [use_if_threshold emit].
  destruct Hs as [Hu Hc]. rewrite Hu.
  set (use_if := length lpl <? use_if_threshold opt0).
  unfold gbind at 1. rewrite opt_line_run.
  unfold gbind at 1.
  rewrite (gen_for_each_blocks
             (fun len => if use_if
                 then line (fmt ["if (JSRW_LENGTH() == "; str_of_nat len; ") {"])
                 else line (fmt ["  case "; str_of_nat len; ":"]))
             (fun lvl len => if use_if
                 then [line_at lvl (fmt ["if (JSRW_LENGTH() == "; str_of_nat len; ") {"])]
                 else [line_at lvl (fmt ["  case "; str_of_nat len; ":"])])
             (if use_if then line "}" else ret tt)
             (fun lvl => if use_if then [line_at lvl "}"] else [])
             (fun len g => generate_letter_switch len g None)
             (fun len g => build_letter_switch opt0 len g None)
             ltac:(intros; apply ite_line_run)
             ltac:(intros; apply opt_line_run)
             ltac:(intros; now apply generate_letter_switch_renders)
             lpl children);
    [|now apply same_thresholds_emit; split|exact Hch].
  unfold gbind. rewrite opt_line_run, line_run.
  rewrite !emit_emit. cbn [indent_level emit].
  unfold render_switch, render_dispatch, render_header, render_length_children.
  cbn [header_words length_use_if length_children].
  rewrite length_map. rewrite <- ?app_assoc. reflexivity.
Qed.
End GeneratorRenders.

(** ** Sorting *)
Section SortedFacts.
Context {A : Type} (rank : A -> nat).
Local Abbreviation rank_le := (rank_le rank).
Local Abbreviation rank_lt := (rank_lt rank).

Lemma insert_sorted_perm a l : Permutation (a :: l) (insert_sorted rank a l).
Proof.
  induction l as [|b l IH]; simpl; [reflexivity|].
  destruct (rank a <? rank b); [reflexivity|].
  rewrite perm_swap. now constructor.
Qed.

Lemma sorted_perm l : Permutation l (sorted rank l).
Proof.
  induction l as [|a l IH]; simpl; [reflexivity|].
  rewrite <- insert_sorted_perm. now constructor.
Qed.

Lemma insert_sorted_sorted a l :
  StronglySorted rank_le l -> StronglySorted rank_le (insert_sorted rank a l).
Proof.
  induction 1 as [|b l Hs IH Hb]; simpl.
  - repeat constructor.
  - destruct (rank a <? rank b) eqn:E.
    + apply Nat.ltb_lt in E. constructor; [now constructor|].
      constructor; [unfold rank_le; lia|].
      eapply Forall_impl; [|exact Hb]. unfold rank_le; intros; lia.
    + apply Nat.ltb_ge in E. constructor; [exact IH|].
      eapply Permutation_Forall; [apply insert_sorted_perm|].
      constructor; [exact E|exact Hb].
Qed.

Lemma sorted_sorted l : StronglySorted rank_le (sorted rank l).
Proof.
  induction l as [|a l IH]; simpl; [constructor|now apply insert_sorted_sorted].
Qed.

Lemma sorted_le_nodup_lt l :
  StronglySorted rank_le l -> NoDup (map rank l) -> StronglySorted rank_lt l.
Proof.
  induction 1 as [|a l Hs IH Ha]; intros Hn; [constructor|].
  simpl in Hn. inversion Hn as [|? ? Hni Hn']; subst.
  constructor; [auto|].
  rewrite Forall_forall in Ha |- *. intros b Hb.
  specialize (Ha b Hb). unfold rank_le, rank_lt in *.
  assert (rank a <> rank b); [|lia].
  intros E. apply Hni. rewrite E. now apply in_map.
Qed.

Lemma sorted_strict l :
  NoDup (map rank l) -> StronglySorted rank_lt (sorted rank l).
Proof.
  intros Hn. apply sorted_le_nodup_lt; [apply sorted_sorted|].
  eapply Permutation_NoDup; [|exact Hn].
  apply Permutation_map, sorted_perm.
Qed.

(** Two strictly sorted lists with the same ranks are the same list of ranks. *)
Lemma strictly_sorted_unique (l1 l2 : list A) :
  StronglySorted rank_lt l1 -> StronglySorted rank_lt l2 ->
  (forall r, In r (map rank l1) <-> In r (map rank l2)) ->
  map rank l1 = map rank l2.
Proof.
  intros H1; revert l2; induction H1 as [|a l1 Hs1 IH Ha]; intros l2 H2 Hin.
  - destruct l2 as [|b l2]; [reflexivity|].
    exfalso. apply (proj2 (Hin (rank b))). now left.
  - destruct H2 as [|b l2 Hs2 Hb].
    + exfalso. apply (proj1 (Hin (rank a))). now left.
    + rewrite Forall_forall in Ha, Hb. unfold rank_lt in *.
      assert (Hab : rank a = rank b).
      { destruct (proj1 (Hin (rank a)) (or_introl eq_refl)) as [E|E]; [now symmetry|].
        destruct (proj2 (Hin (rank b)) (or_introl eq_refl)) as [E'|E']; [exact E'|].
        apply in_map_iff in E as (x & Ex & Hx). apply in_map_iff in E' as (y & Ey & Hy).
        specialize (Ha y Hy). specialize (Hb x Hx). lia. }
      simpl. f_equal; [exact Hab|].
      apply IH; [exact Hs2|].
      intros r; split; intros Hr.
      * destruct (proj1 (Hin r) (or_intror Hr)) as [E|E]; [|exact E].
        apply in_map_iff in Hr as (x & Ex & Hx). specialize (Ha x Hx). lia.
      * destruct (proj2 (Hin r) (or_intror Hr)) as [E|E]; [|exact E].
        apply in_map_iff in Hr as (x & Ex & Hx). specialize (Hb x Hx). lia.
Qed.
End SortedFacts.

(** ** Loops without exceptions *)
Lemma for_each_ok {X S : Type} (xs : list X) (body : X -> S -> Result S)
    (f : S -> X -> S) :
  (forall x, In x xs -> forall s, body x s = Ok (f s x)) ->
  forall s, for_each xs body s = Ok (fold_left f xs s).
Proof.
  induction xs as [|x xs IH]; intros Hb s; simpl; [reflexivity|].
  rewrite Hb by now left. simpl. apply IH. intros; apply Hb; now right.
Qed.

Lemma for_each_inv {X S : Type} (xs : list X) (body : X -> S -> Result S) s s' :
  for_each xs body s = Ok s' ->
  forall x, In x xs -> exists s1 s2, body x s1 = Ok s2.
Proof.
  revert s; induction xs as [|x xs IH]; intros s H y Hy; [contradiction|].
  simpl in H. destruct (body x s) as [s1|e] eqn:E; simpl in H; [|discriminate].
  destruct Hy as [->|Hy]; [eauto|]. eapply IH; eauto.
Qed.

(** ** Dictionaries *)
Section DictFacts.
Context {K V : Type} (rank : K -> nat).
Local Abbreviation has_rank := (has_rank rank).
Local Abbreviation distinct_keys := (distinct_keys rank).

Lemma dict_keys_set (d : @dict K V) k v :
  dict_keys (dict_set rank d k v)
  = if has_rank k (dict_keys d) then dict_keys d else dict_keys d ++ [k].
Proof.
  unfold dict_keys.
  induction d as [|[k' v'] d IH]; simpl; [reflexivity|].
  destruct (rank k' =? rank k); simpl; [reflexivity|].
  rewrite IH. now destruct (has_rank k (map fst d)).
Qed.

Lemma has_rank_true k ks :
  has_rank k ks = true <-> exists k', In k' ks /\ rank k' = rank k.
Proof.
  unfold has_rank. rewrite existsb_exists.
  split; intros (k' & Hin & E); exists k'; split; auto; now apply Nat.eqb_eq.
Qed.

Lemma has_rank_false k ks :
  has_rank k ks = false <-> forall k', In k' ks -> rank k' <> rank k.
Proof.
  split.
  - intros H k' Hin E. 
    assert (has_rank k ks = true) by (apply has_rank_true; eauto). congruence.
  - intros H. destruct (has_rank k ks) eqn:E; [|reflexivity].
    apply has_rank_true in E as (k' & Hin & E). now apply H in Hin.
Qed.

Lemma distinct_keys_snoc ks k :
  distinct_keys (ks ++ [k])
  = if has_rank k (distinct_keys ks) then distinct_keys ks
    else distinct_keys ks ++ [k].
Proof. unfold distinct_keys. now rewrite fold_left_app. Qed.

Lemma distinct_keys_nodup ks : NoDup (map rank (distinct_keys ks)).
Proof.
  induction ks as [|k ks IH] using rev_ind; [constructor|].
  rewrite distinct_keys_snoc.
  destruct (has_rank k (distinct_keys ks)) eqn:E; [exact IH|].
  rewrite map_app. simpl.
  apply NoDup_app; [exact IH|repeat constructor; intros []|].
  intros r Hr [<-|[]]. apply in_map_iff in Hr as (k' & Hk' & Hin).
  rewrite has_rank_false in E. now apply (E k').
Qed.

Lemma distinct_keys_incl ks k : In k (distinct_keys ks) -> In k ks.
Proof.
  induction ks as [|k0 ks IH] using rev_ind; [intros []|].
  rewrite distinct_keys_snoc, in_app_iff.
  destruct (has_rank k0 (distinct_keys ks)); [auto|].
  rewrite in_app_iff. intros [H|H]; auto.
Qed.

Lemma distinct_keys_complete ks k :
  In k ks -> has_rank k (distinct_keys ks) = true.
Proof.
  induction ks as [|k0 ks IH] using rev_ind; [intros []|].
  rewrite distinct_keys_snoc, in_app_iff.
  intros [H|[->|[]]].
  - specialize (IH H). apply has_rank_true in IH as (k' & Hin & E).
    apply has_rank_true. exists k'. split; [|exact E].
    destruct (has_rank k0 (distinct_keys ks)); [exact Hin|apply in_app_iff; now left].
  - destruct (has_rank k (distinct_keys ks)) eqn:E; [exact E|].
    apply has_rank_true. exists k. split; [apply in_app_iff; right; now left|reflexivity].
Qed.

Lemma dict_set_set (d : @dict K V) k v v' :
  dict_set rank (dict_set rank d k v) k v' = dict_set rank d k v'.
Proof.
  induction d as [|[k0 v0] d IH]; simpl.
  - now rewrite Nat.eqb_refl.
  - destruct (rank k0 =? rank k) eqn:E; simpl; rewrite E; [reflexivity|now rewrite IH].
Qed.
End DictFacts.

(** ** Character codes of a column *)

Lemma fold_max_spec (codes : list nat) :
  codes <> [] ->
  In (fold_right Nat.max 0 codes) codes
  /\ forall x, In x codes -> x <= fold_right Nat.max 0 codes.
Proof.
  induction codes as [|c codes IH]; [congruence|]. intros _.
  destruct codes as [|c' codes].
  - simpl. split; [left; lia|]. intros x [<-|[]]. lia.
  - destruct IH as [Hin Hub]; [discriminate|].
    set (m := fold_right Nat.max 0 (c' :: codes)) in *.
    change (fold_right Nat.max 0 (c :: c' :: codes)) with (Nat.max c m).
    split.
    + destruct (Nat.max_spec c m) as [[_ ->]|[_ ->]]; [now right|now left].
    + intros x [<-|Hx]; [lia|]. specialize (Hub x Hx). lia.
Qed.

Lemma fold_min_spec (codes : list nat) (M : nat) :
  codes <> [] -> (forall x, In x codes -> x <= M) ->
  In (fold_right Nat.min M codes) codes
  /\ forall x, In x codes -> fold_right Nat.min M codes <= x.
Proof.
  induction codes as [|c codes IH]; [congruence|]. intros _ HM.
  destruct codes as [|c' codes].
  - simpl. assert (c <= M) by (apply HM; now left).
    split; [left; lia|]. intros x [<-|[]]. lia.
  - destruct IH as [Hin Hlb]; [discriminate|intros; apply HM; now right|].
    set (m := fold_right Nat.min M (c' :: codes)) in *.
    change (fold_right Nat.min M (c :: c' :: codes)) with (Nat.min c m).
    split.
    + destruct (Nat.min_spec c m) as [[_ ->]|[_ ->]]; [now left|now right].
    + intros x [<-|Hx]; [lia|]. specialize (Hlb x Hx). lia.
Qed.

Lemma column_codes_nonempty l column : l <> [] -> column_codes l column <> [].
Proof. destruct l; [congruence|discriminate]. Qed.

Lemma max_code_spec l column :
  l <> [] ->
  In (max_code l column) (column_codes l column)
  /\ forall x, In x (column_codes l column) -> x <= max_code l column.
Proof. intros H. apply fold_max_spec. now apply column_codes_nonempty. Qed.

Lemma min_code_spec l column :
  l <> [] ->
  In (min_code l column) (column_codes l column)
  /\ forall x, In x (column_codes l column) -> min_code l column <= x.
Proof.
  intros H. apply fold_min_spec; [now apply column_codes_nonempty|].
  now apply max_code_spec.
Qed.

Lemma span_of_pos l column : l <> [] -> (1 <= span_of l column)%Z.
Proof.
  intros H. unfold span_of.
  destruct (min_code_spec l column H) as [Hin _].
  destruct (max_code_spec l column H) as [_ Hub].
  specialize (Hub _ Hin). lia.
Qed.

Lemma span_of_one l column :
  l <> [] -> (span_of l column = 1%Z <-> shared_column l column).
Proof.
  intros H.
  destruct (min_code_spec l column H) as [Hmin Hlb].
  destruct (max_code_spec l column H) as [Hmax Hub].
  unfold span_of, shared_column. split.
  - intros E it1 it2 H1 H2.
    assert (A1 := Hlb _ (in_map (code_at column) _ _ H1)).
    assert (A2 := Hub _ (in_map (code_at column) _ _ H1)).
    assert (B1 := Hlb _ (in_map (code_at column) _ _ H2)).
    assert (B2 := Hub _ (in_map (code_at column) _ _ H2)).
    lia.
  - intros Hs.
    apply in_map_iff in Hmin as (a & Ea & Ha).
    apply in_map_iff in Hmax as (b & Eb & Hb).
    rewrite <- Ea, <- Eb, (Hs a b Ha Hb). lia.
Qed.

Lemma count_of_one l column :
  l <> [] -> (count_of l column = 1 <-> shared_column l column).
Proof.
  intros H. unfold count_of, shared_column, column_codes. split.
  - intros E it1 it2 H1 H2.
    destruct (nodup Nat.eq_dec (map (code_at column) l)) as [|c [|c' cs]] eqn:En;
      try discriminate.
    assert (I1 : In (code_at column it1) [c])
      by (rewrite <- En; apply nodup_In; now apply in_map).
    assert (I2 : In (code_at column it2) [c])
      by (rewrite <- En; apply nodup_In; now apply in_map).
    destruct I1 as [<-|[]]. destruct I2 as [I2|[]]. now symmetry.
  - intros Hs. destruct l as [|it l]; [congruence|].
    assert (Hp : Permutation (nodup Nat.eq_dec (map (code_at column) (it :: l)))
                   [code_at column it]).
    { apply NoDup_Permutation; [apply NoDup_nodup|repeat constructor; intros []|].
      intros x. rewrite nodup_In, in_map_iff. split.
      - intros (y & <- & Hy). left. apply Hs; [now left|exact Hy].
      - intros [<-|[]]. exists it. split; [reflexivity|now left]. }
    now rewrite (Permutation_length Hp).
Qed.

Lemma get_in_range (s : string) (n : nat) :
  n < String.length s -> exists c, String.get n s = Some c.
Proof.
  revert n; induction s as [|a s IH]; intros n H; simpl in H; [lia|].
  destruct n as [|n]; simpl; [eauto|]. apply IH. lia.
Qed.

Lemma get_some_range (s : string) (n : nat) c :
  String.get n s = Some c -> n < String.length s.
Proof.
  revert n; induction s as [|a s IH]; intros n H; simpl in H; [discriminate|].
  destruct n as [|n]; simpl; [lia|]. apply IH in H. lia.
Qed.

Lemma char_at_ok word column c :
  char_at word column = Ok c <-> String.get column word = Some c.
Proof.
  unfold char_at. destruct (String.get column word); split; congruence.
Qed.

Lemma last_shift {A} (l : list A) (a b : A) : last (b :: l) a = last l b.
Proof.
  revert a b; induction l as [|c l IH]; intros a b; [reflexivity|].
  change (last (b :: c :: l) a) with (last (c :: l) a).
  now rewrite (IH a c), (IH b c).
Qed.

Lemma last_in {A} (l : list A) (a : A) : In (last l a) (a :: l).
Proof.
  revert a; induction l as [|b l IH]; intros a; [now left|].
  right. rewrite last_shift. apply IH.
Qed.

Lemma sorted_le_bounds (c : nat) (cs : list nat) :
  StronglySorted (rank_le (fun k : nat => k)) (c :: cs) ->
  forall x, In x (c :: cs) -> c <= x <= last cs c.
Proof.
  revert c; induction cs as [|c' cs IH]; intros c Hs x Hx.
  - destruct Hx as [<-|[]]. simpl. lia.
  - inversion Hs as [|? ? Hs' Hall]; subst.
    rewrite Forall_forall in Hall. unfold rank_le in Hall.
    rewrite last_shift.
    assert (Hl : In (last cs c') (c' :: cs)) by apply last_in.
    destruct Hx as [<-|Hx].
    + split; [lia|]. now apply Hall.
    + destruct (IH c' Hs' x Hx). split; [|lia].
      now apply Hall.
Qed.

Lemma chars_dict_keys l column :
  dict_keys
    (fold_left (fun (d : @dict nat bool) it =>
                  dict_set (fun k : nat => k) d (code_at column it) true) l [])
  = distinct_keys (fun k : nat => k) (column_codes l column).
Proof.
  induction l as [|it l IH] using rev_ind; [reflexivity|].
  unfold column_codes in *.
  rewrite fold_left_app, map_app. simpl.
  now rewrite distinct_keys_snoc, dict_keys_set, IH.
Qed.

Lemma distinct_keys_nat_In (ks : list nat) x :
  In x (distinct_keys (fun k : nat => k) ks) <-> In x ks.
Proof.
  split; [apply distinct_keys_incl|].
  intros H. apply (distinct_keys_complete (fun k : nat => k)) in H.
  apply has_rank_true in H as (k' & Hin & E). now subst.
Qed.

Lemma span_and_count_at_spec l column :
  l <> [] -> column_in_range l column ->
  span_and_count_at l column = Ok (span_of l column, count_of l column).
Proof.
  intros Hne Hr. unfold span_and_count_at.
  destruct l as [|it0 l0] eqn:El; [congruence|]. rewrite <- El in *.
  replace (negb (length l =? 0)) with true by (subst l; reflexivity).
  cbn [assert bind].
  rewrite (for_each_ok l _
             (fun (d : @dict nat bool) it =>
                dict_set (fun k : nat => k) d (code_at column it) true)).
  2:{ intros [index word] Hin s.
      destruct (get_in_range word column (Hr _ Hin)) as [c Hc].
      rewrite (proj2 (char_at_ok word column c) Hc). cbn [bind].
      unfold code_at; simpl. now rewrite Hc. }
  cbn [bind]. rewrite chars_dict_keys.
  set (D := distinct_keys (fun k : nat => k) (column_codes l column)).
  assert (HD : forall x, In x (sorted (fun k : nat => k) D) <-> In x (column_codes l column)).
  { intros x. transitivity (In x D); [|apply distinct_keys_nat_In].
    split; apply Permutation_in; [symmetry|]; apply sorted_perm. }
  assert (Hs := sorted_sorted (fun k : nat => k) D).
  destruct (sorted (fun k : nat => k) D) as [|c cs] eqn:Ec.
  { exfalso. destruct (max_code_spec l column Hne) as [Hin _].
    now apply HD in Hin. }
  cbn [getitem_last getitem nth_error bind].
  assert (Hb := sorted_le_bounds c cs Hs).
  destruct (max_code_spec l column Hne) as [Hmax Hub].
  destruct (min_code_spec l column Hne) as [Hmin Hlb].
  assert (last cs c = max_code l column).
  { apply Nat.le_antisymm.
    - apply Hub, HD, last_in.
    - apply Hb, HD, Hmax. }
  assert (c = min_code l column).
  { apply Nat.le_antisymm.
    - apply Hb, HD, Hmin.
    - apply Hlb, HD. now left. }
  unfold span_of, count_of.
  replace (last cs c) with (max_code l column).
  replace c with (min_code l column) at 1.
  do 2 f_equal.
  rewrite <- Ec. rewrite <- (Permutation_length (sorted_perm _ D)).
  apply Permutation_length, NoDup_Permutation.
  - generalize (distinct_keys_nodup (fun k : nat => k) (column_codes l column)).
    now rewrite map_id.
  - apply NoDup_nodup.
  - intros x. unfold D. now rewrite distinct_keys_nat_In, nodup_In.
Qed.

Lemma span_and_count_at_ok l column r :
  span_and_count_at l column = Ok r ->
  l <> [] /\ column_in_range l column.
Proof.
  unfold span_and_count_at. intros H.
  destruct l as [|it0 l0] eqn:El; [discriminate|]. rewrite <- El in *.
  split; [subst; discriminate|].
  replace (negb (length l =? 0)) with true in H by (subst l; reflexivity).
  cbn [assert bind] in H.
  match type of H with (bind ?fe _ = _) => destruct fe as [d|e] eqn:E end;
    [|discriminate].
  intros [index word] Hin.
  destruct (for_each_inv _ _ _ _ E _ Hin) as (s1 & s2 & Hb).
  cbn in Hb. destruct (char_at word column) as [c|] eqn:Ec; [|discriminate].
  apply char_at_ok in Ec. now apply get_some_range in Ec.
Qed.

(** ** The column scan *)

Lemma getitem_ok {A} (xs : list A) i x :
  getitem xs i = Ok x <-> nth_error xs i = Some x.
Proof. unfold getitem. destruct (nth_error xs i); split; congruence. Qed.

Lemma getitem_nth (xs : list nat) i :
  i < length xs -> getitem xs i = Ok (nth i xs 0).
Proof.
  intros H. apply getitem_ok. now apply nth_error_nth'.
Qed.

Lemma getitem_range {A} (xs : list A) i x : getitem xs i = Ok x -> i < length xs.
Proof.
  intros H. apply getitem_ok in H. apply nth_error_Some. congruence.
Qed.

Section Scan.
Variables (l : list item) (columns : list nat).
Hypothesis l_nonempty : l <> [].

Lemma scan_column_spec index st :
  scannable l columns index ->
  scan_column l columns index st
  = Ok (if (span_at l columns index =? 1)%Z then Return (1, true)
        else Continue (scan_update st index (span_at l columns index)
                         (count_of l (column_of columns index)))).
Proof.
  intros [Hi Hr]. unfold scan_column.
  rewrite (getitem_nth _ _ Hi). cbn [bind].
  fold (column_of columns index).
  rewrite (span_and_count_at_spec _ _ l_nonempty Hr). cbn [bind].
  fold (span_at l columns index).
  assert (Hp := span_of_pos l (column_of columns index) l_nonempty).
  fold (span_at l columns index) in Hp.
  replace (span_at l columns index =? 0)%Z with false by (symmetry; apply Z.eqb_neq; lia).
  cbn [negb assert bind].
  destruct (span_at l columns index =? 1)%Z eqn:E.
  - apply Z.eqb_eq in E. unfold span_at in E.
    apply (span_of_one _ _ l_nonempty), (count_of_one _ _ l_nonempty) in E.
    rewrite E. reflexivity.
  - apply Z.eqb_neq in E.
    destruct (count_of l (column_of columns index) =? 1) eqn:Ec.
    + exfalso. apply E. apply Nat.eqb_eq in Ec.
      now apply (span_of_one _ _ l_nonempty), (count_of_one _ _ l_nonempty).
    + reflexivity.
Qed.

Lemma scan_column_ok index st r :
  scan_column l columns index st = Ok r -> scannable l columns index.
Proof.
  unfold scan_column. intros H.
  destruct (getitem columns index) as [c|e] eqn:Eg; [|discriminate].
  cbn [bind] in H.
  destruct (span_and_count_at l c) as [sc|e] eqn:Es; [|discriminate].
  assert (Hi := getitem_range _ _ _ Eg).
  rewrite (getitem_nth _ _ Hi) in Eg. inversion Eg; subst c.
  split; [exact Hi|]. now apply span_and_count_at_ok in Es.
Qed.
End Scan.

Lemma for_each_return_app {X R S : Type} (xs ys : list X)
    (body : X -> S -> Result (LoopExit R S)) (s : S) :
  for_each_return (xs ++ ys) body s
  = bind (for_each_return xs body s)
      (fun r => match r with
                | Return v => Ok (Return v)
                | Continue s' => for_each_return ys body s'
                end).
Proof.
  revert s; induction xs as [|x xs IH]; intros s; simpl; [reflexivity|].
  destruct (body x s) as [[v|s']|e]; simpl; auto.
Qed.

Lemma first_min_step (f : nat -> Z) (m k : nat) :
  first_min f m k ->
  first_min f (S m) (if (f m <? f k)%Z then m else k).
Proof.
  intros (Hk & Hle & Hlt). destruct (f m <? f k)%Z eqn:E.
  - apply Z.ltb_lt in E. repeat split; [lia| |].
    + intros j Hj. destruct (Nat.eq_dec j m) as [->|]; [lia|].
      specialize (Hle j ltac:(lia)). lia.
    + intros j Hj. specialize (Hle j Hj). lia.
  - apply Z.ltb_ge in E. repeat split; [lia| |exact Hlt].
    intros j Hj. destruct (Nat.eq_dec j m) as [->|]; [lia|].
    apply Hle. lia.
Qed.

Lemma first_min_one (f : nat -> Z) : first_min f 1 0.
Proof.
  repeat split; [lia| |intros; lia].
  intros j Hj. replace j with 0 by lia. lia.
Qed.

Section ScanLoop.
Variables (l : list item) (columns : list nat).
Hypothesis l_nonempty : l <> [].
Local Abbreviation scan_inv := (scan_inv l columns).

Lemma scan_update_inv st m :
  (0 < m -> scan_inv st m) ->
  scan_inv (scan_update st m (span_at l columns m)
              (count_of l (column_of columns m))) (S m).
Proof.
  intros H. unfold scan_update. destruct m as [|m].
  - cbn. unfold scan_inv; cbn.
    split; [apply first_min_one|]. split; [reflexivity|].
    split; [apply first_min_one|reflexivity].
  - destruct H as (Hs & Es & Hc & Ec); [lia|].
    cbn [Nat.eqb orb].
    assert (F1 := first_min_step _ _ _ Hs).
    assert (F2 := first_min_step _ _ _ Hc).
    rewrite <- Es, <- Ec in *.
    replace (count_at l columns (S m) <? Z.of_nat (min_count st))%Z
      with (count_of l (column_of columns (S m)) <? min_count st) in F2.
    2:{ unfold count_at. destruct (Nat.ltb_spec (count_of l (column_of columns (S m)))
                                    (min_count st));
        symmetry; [apply Z.ltb_lt|apply Z.ltb_ge]; lia. }
    destruct (span_at l columns (S m) <? min_span st)%Z;
      cbn [min_count min_span min_count_index min_span_index];
      destruct (count_of l (column_of columns (S m)) <? min_count st);
      unfold scan_inv; cbn [min_count min_span min_count_index min_span_index];
      repeat split; try apply F1; try apply F2; try apply Hs; try apply Hc;
      auto.
Qed.

Lemma scan_loop m st0 r :
  for_each_return (range 0 m) (scan_column l columns) st0 = Ok r ->
  match r with
  | Return v =>
      v = (1, true)
      /\ exists i, i < m /\ span_at l columns i = 1%Z
                   /\ forall j, j <= i -> scannable l columns j
  | Continue st =>
      (forall i, i < m -> scannable l columns i /\ span_at l columns i <> 1%Z)
      /\ (0 < m -> scan_inv st m)
  end.
Proof.
  revert r; induction m as [|m IH]; intros r H.
  - cbn in H. inversion H; subst. split; intros; lia.
  - unfold range in *. rewrite seq_S, for_each_return_app in H. cbn [Nat.add] in H.
    destruct (for_each_return (seq 0 m) _ st0) as [[v|st]|e]; [| |discriminate].
    + cbn in H. inversion H; subst r.
      destruct (IH _ eq_refl) as (-> & i & Hi & Hsp & Hsc).
      split; [reflexivity|]. exists i. split; [lia|split; [exact Hsp|exact Hsc]].
    + cbn [bind for_each_return] in H.
      destruct (IH _ eq_refl) as (Hall & Hinv).
      destruct (scan_column l columns m st) as [r'|e] eqn:Es; [|discriminate].
      assert (Hm := scan_column_ok _ _ _ _ _ Es).
      rewrite (scan_column_spec _ _ l_nonempty _ _ Hm) in Es.
      cbn [bind] in H.
      destruct (span_at l columns m =? 1)%Z eqn:E1.
      * inversion Es; subst r'. inversion H; subst r.
        split; [reflexivity|]. exists m. apply Z.eqb_eq in E1.
        split; [lia|split; [exact E1|]].
        intros j Hj. destruct (Nat.eq_dec j m) as [->|]; [exact Hm|].
        apply Hall. lia.
      * inversion Es; subst r'. inversion H; subst r.
        apply Z.eqb_neq in E1. split.
        -- intros i Hi. destruct (Nat.eq_dec i m) as [->|]; [now split|].
           apply Hall. lia.
        -- intros _. now apply scan_update_inv.
Qed.

Lemma scan_loop_total m st0 :
  (forall i, i < m -> scannable l columns i) ->
  exists r, for_each_return (range 0 m) (scan_column l columns) st0 = Ok r.
Proof.
  induction m as [|m IH]; intros Hs; [cbn; eauto|].
  unfold range in *. rewrite seq_S, for_each_return_app. cbn [Nat.add].
  destruct IH as [[v|st] ->]; [intros; apply Hs; lia| |]; cbn [bind for_each_return].
  - eauto.
  - rewrite (scan_column_spec _ _ l_nonempty _ _ (Hs m ltac:(lia))). cbn [bind].
    destruct (span_at l columns m =? 1)%Z; eauto.
Qed.
End ScanLoop.

(** What [optimal_switch_column] returns, when it returns. *)
Lemma optimal_switch_column_inv opt l columns n k use_if :
  optimal_switch_column opt l columns n = Ok (k, use_if) ->
  l <> [] /\ 0 < n
  /\ ((k = 1 /\ use_if = true
       /\ exists i, i < n /\ span_at l columns i = 1%Z
                    /\ forall j, j <= i -> scannable l columns j)
      \/ ((forall i, i < n -> scannable l columns i /\ span_at l columns i <> 1%Z)
          /\ exists kc ks,
               first_min (count_at l columns) n kc
               /\ first_min (span_at l columns) n ks
               /\ (k, use_if)
                  = if (count_at l columns kc <=? Z.of_nat (use_if_threshold opt))%Z
                    then (kc, true) else (ks, false))).
Proof.
  unfold optimal_switch_column. intros H.
  destruct l as [|it0 l0] eqn:El; [discriminate|]. rewrite <- El in *.
  assert (Hne : l <> []) by (subst; discriminate).
  replace (negb (length l =? 0)) with true in H by (subst l; reflexivity).
  destruct n as [|n]; [discriminate|].
  cbn [assert bind Nat.eqb negb] in H.
  destruct (for_each_return _ _ _) as [r|e] eqn:E; [|discriminate].
  apply (scan_loop _ _ Hne) in E. cbn [bind] in H.
  split; [exact Hne|]. split; [lia|].
  destruct r as [v|st].
  - destruct E as (-> & i & Hi). inversion H; subst. left. eauto.
  - destruct E as (Hall & Hinv). right. split; [exact Hall|].
    destruct Hinv as (Hs & Es & Hc & Ec); [lia|].
    exists (min_count_index st), (min_span_index st).
    repeat split; try apply Hs; try apply Hc.
    rewrite <- Ec.
    replace (Z.of_nat (min_count st) <=? Z.of_nat (use_if_threshold opt))%Z
      with (min_count st <=? use_if_threshold opt).
    2:{ destruct (Nat.leb_spec (min_count st) (use_if_threshold opt));
        symmetry; [apply Z.leb_le|apply Z.leb_gt]; lia. }
    destruct (min_count st <=? use_if_threshold opt); now inversion H.
Qed.

Lemma optimal_switch_column_total opt l columns n :
  l <> [] -> 0 < n -> (forall i, i < n -> scannable l columns i) ->
  exists k use_if, optimal_switch_column opt l columns n = Ok (k, use_if).
Proof.
  intros Hne Hn Hs. unfold optimal_switch_column.
  destruct l as [|it0 l0] eqn:El; [congruence|]. rewrite <- El in *.
  replace (negb (length l =? 0)) with true by (subst l; reflexivity).
  destruct n as [|n]; [lia|].
  cbn [assert bind Nat.eqb negb].
  destruct (scan_loop_total l columns Hne (S n) (mkScan 0 0 0 0) Hs) as [r ->].
  cbn [bind]. destruct r as [[k b]|st]; [eauto|].
  destruct (min_count st <=? use_if_threshold opt); eauto.
Qed.

Lemma filter_none {A} (f : A -> bool) (l : list A) :
  (forall a, In a l -> f a = false) -> filter f l = [].
Proof.
  induction l as [|a l IH]; intros H; simpl; [reflexivity|].
  rewrite (H a) by now left. apply IH. intros; apply H; now right.
Qed.

(** ** Grouping by a key *)
Section Grouping.
Context {K : Type} (rank : K -> nat) (key : item -> K).
Local Abbreviation group_of := (group_of rank key).
Local Abbreviation grouping := (grouping rank key).

Lemma setdefault_append_eq (d : @dict K (list item)) k it :
  setdefault_append rank d k it
  = dict_set rank d k
      (match dict_get rank d k with Some v => v | None => [] end ++ [it]).
Proof.
  unfold setdefault_append, dict_setdefault.
  destruct (dict_get rank d k); [reflexivity|]. apply dict_set_set.
Qed.

Lemma dict_get_map (F : K -> list item) (D : list K) k :
  (forall k', rank k' = rank k -> F k' = F k) ->
  dict_get rank (map (fun k' => (k', F k')) D) k
  = if has_rank rank k D then Some (F k) else None.
Proof.
  intros HF. induction D as [|k0 D IH]; simpl; [reflexivity|].
  destruct (rank k0 =? rank k) eqn:E; simpl; [|exact IH].
  apply Nat.eqb_eq in E. now rewrite (HF _ E).
Qed.

Lemma dict_set_map (F : K -> list item) (D : list K) k v :
  NoDup (map rank D) ->
  dict_set rank (map (fun k' => (k', F k')) D) k v
  = if has_rank rank k D
    then map (fun k' => (k', if rank k' =? rank k then v else F k')) D
    else map (fun k' => (k', F k')) D ++ [(k, v)].
Proof.
  induction D as [|k0 D IH]; intros Hn; simpl; [reflexivity|].
  inversion Hn as [|? ? Hni Hn']; subst.
  destruct (rank k0 =? rank k) eqn:E; simpl.
  - f_equal. apply map_ext_in. intros k' Hk'.
    destruct (rank k' =? rank k) eqn:E'; [|reflexivity].
    exfalso. apply Hni. apply Nat.eqb_eq in E, E'. rewrite E, <- E'.
    now apply in_map.
  - rewrite (IH Hn'). now destruct (has_rank rank k D).
Qed.

Lemma group_of_snoc l it k :
  group_of (l ++ [it]) k
  = group_of l k ++ (if rank (key it) =? rank k then [it] else []).
Proof. unfold group_of. rewrite filter_app. reflexivity. Qed.

Lemma grouping_spec l :
  grouping l = map (fun k => (k, group_of l k)) (distinct_keys rank (map key l)).
Proof.
  unfold grouping. induction l as [|it l IH] using rev_ind; [reflexivity|].
  rewrite fold_left_app, map_app. cbn [fold_left map].
  rewrite IH, setdefault_append_eq, distinct_keys_snoc.
  set (D := distinct_keys rank (map key l)).
  assert (Hn : NoDup (map rank D)) by apply distinct_keys_nodup.
  rewrite dict_get_map.
  2:{ intros k' E. unfold group_of. apply filter_ext. intros a. now rewrite E. }
  rewrite (dict_set_map _ _ _ _ Hn).
  destruct (has_rank rank (key it) D) eqn:E.
  - apply map_ext. intros k. rewrite group_of_snoc.
    rewrite (Nat.eqb_sym (rank k)).
    destruct (rank (key it) =? rank k) eqn:E'.
    + f_equal. f_equal. unfold group_of. apply filter_ext. intros a.
      apply Nat.eqb_eq in E'. now rewrite E'.
    + now rewrite app_nil_r.
  - rewrite map_app. cbn [map]. f_equal.
    + apply map_ext_in. intros k Hk. rewrite group_of_snoc.
      rewrite has_rank_false in E. specialize (E k Hk).
      replace (rank (key it) =? rank k) with false
        by (symmetry; apply Nat.eqb_neq; congruence).
      now rewrite app_nil_r.
    + f_equal. f_equal. rewrite group_of_snoc, Nat.eqb_refl.
      unfold group_of. rewrite filter_none; [reflexivity|].
      intros a Ha. apply Nat.eqb_neq. intros Er.
      assert (Hc := distinct_keys_complete rank (map key l) (key a)
                      (in_map key _ _ Ha)).
      apply has_rank_true in Hc as (k' & Hk' & Ek').
      rewrite has_rank_false in E. apply (E k' Hk'). congruence.
Qed.
End Grouping.

Section GroupingSorted.
Context {K : Type} (rank : K -> nat) (key : item -> K).
Local Abbreviation sorted_keys := (sorted_keys rank key).

Lemma insert_sorted_map {V} (F : K -> V) k D :
  insert_sorted (fun kv : K * V => rank (fst kv)) (k, F k)
    (map (fun k' => (k', F k')) D)
  = map (fun k' => (k', F k')) (insert_sorted rank k D).
Proof.
  induction D as [|k0 D IH]; simpl; [reflexivity|].
  destruct (rank k <? rank k0); simpl; [reflexivity|]. now rewrite IH.
Qed.

Lemma sorted_map {V} (F : K -> V) D :
  sorted (fun kv : K * V => rank (fst kv)) (map (fun k => (k, F k)) D)
  = map (fun k => (k, F k)) (sorted rank D).
Proof.
  induction D as [|k D IH]; simpl; [reflexivity|].
  now rewrite IH, insert_sorted_map.
Qed.

Lemma sorted_grouping l :
  sorted_items rank (grouping rank key l)
  = map (fun k => (k, group_of rank key l k)) (sorted_keys l).
Proof. unfold sorted_items. now rewrite grouping_spec, sorted_map. Qed.

Lemma sorted_keys_strict l : StronglySorted (rank_lt rank) (sorted_keys l).
Proof. apply sorted_strict, distinct_keys_nodup. Qed.

Lemma sorted_keys_incl l k : In k (sorted_keys l) -> exists it, In it l /\ key it = k.
Proof.
  intros H. apply (Permutation_in _ (Permutation_sym (sorted_perm rank _))) in H.
  apply distinct_keys_incl, in_map_iff in H as (it & E & Hin). eauto.
Qed.

Lemma sorted_keys_complete l it :
  In it l -> exists k, In k (sorted_keys l) /\ rank k = rank (key it).
Proof.
  intros H. apply (in_map key) in H.
  apply (distinct_keys_complete rank), has_rank_true in H as (k & Hk & E).
  exists k. split; [|exact E].
  now apply (Permutation_in _ (sorted_perm rank _)).
Qed.

Lemma group_of_nonempty l k : In k (sorted_keys l) -> group_of rank key l k <> [].
Proof.
  intros H. apply sorted_keys_incl in H as (it & Hin & <-).
  intros E. assert (Hf : In it (group_of rank key l (key it))).
  { apply filter_In. split; [exact Hin|apply Nat.eqb_refl]. }
  now rewrite E in Hf.
Qed.
End GroupingSorted.

Lemma nonempty_assert {A} (l : list A) : l <> [] -> negb (length l =? 0) = true.
Proof. destruct l; [congruence|reflexivity]. Qed.

Lemma split_list_per_column_spec l column :
  l <> [] -> column_in_range l column ->
  split_list_per_column l column
  = Ok (map (fun c => (c, group_of ord (char_of column) l c))
          (sorted_keys ord (char_of column) l)).
Proof.
  intros Hne Hr. unfold split_list_per_column.
  rewrite (nonempty_assert _ Hne). cbn [assert bind].
  rewrite (for_each_ok l _
             (fun d it => setdefault_append ord d (char_of column it) it)).
  2:{ intros [index word] Hin s.
      destruct (get_in_range word column (Hr _ Hin)) as [c Hc].
      rewrite (proj2 (char_at_ok word column c) Hc). cbn [bind].
      unfold char_of; simpl. now rewrite Hc. }
  cbn [bind]. f_equal. apply sorted_grouping.
Qed.

Lemma split_list_per_length_spec l :
  l <> [] ->
  split_list_per_length l
  = Ok (map (fun n => (n, group_of (fun k : nat => k) word_length l n))
          (sorted_keys (fun k : nat => k) word_length l)).
Proof.
  intros Hne. unfold split_list_per_length.
  rewrite (nonempty_assert _ Hne). cbn [assert bind].
  rewrite (for_each_ok l _
             (fun d it => setdefault_append (fun k : nat => k) d (word_length it) it)).
  2:{ now intros [index word] Hin s. }
  cbn [bind]. f_equal. apply sorted_grouping.
Qed.

(** ** Removing a column from the window *)

Lemma setitem_spec {A} (xs : list A) (i : nat) (v : A) :
  i < length xs ->
  exists xs', setitem xs i v = Ok xs'
              /\ length xs' = length xs
              /\ forall j d, nth j xs' d = if j =? i then v else nth j xs d.
Proof.
  revert i; induction xs as [|x xs IH]; intros i Hi; simpl in Hi; [lia|].
  destruct i as [|i]; simpl.
  - eexists; split; [reflexivity|]. split; [reflexivity|].
    intros [|j] d; reflexivity.
  - destruct (IH i ltac:(lia)) as (xs' & -> & Hl & Hn). simpl.
    eexists; split; [reflexivity|]. split; [simpl; lia|].
    intros [|j] d; simpl; [reflexivity|apply Hn].
Qed.

Lemma in_window m (cols : list nat) c :
  m <= length cols ->
  (In c (firstn m cols) <-> exists j, j < m /\ nth j cols 0 = c).
Proof.
  intros Hm. split.
  - intros H. apply (In_nth _ _ 0) in H as (j & Hj & E).
    rewrite length_firstn in Hj. rewrite nth_firstn in E.
    destruct (Nat.ltb_spec j m); [|lia]. eauto.
  - intros (j & Hj & <-).
    replace (nth j cols 0) with (nth j (firstn m cols) 0).
    + apply nth_In. rewrite length_firstn. lia.
    + rewrite nth_firstn. destruct (Nat.ltb_spec j m); [reflexivity|lia].
Qed.

Section Window.
Variables (columns columns' : list nat) (n k : nat).
Hypothesis Hk : k < S n.
Hypothesis Hn : S n <= length columns.
Hypothesis Hnodup : NoDup (firstn (S n) columns).
Hypothesis Hlen : length columns' = length columns.
Hypothesis Hnth : forall j, nth j columns' 0 = if j =? k then nth n columns 0
                                               else nth j columns 0.

Lemma window_nth i j :
  i < S n -> j < S n -> nth i columns 0 = nth j columns 0 -> i = j.
Proof.
  intros Hi Hj E.
  apply (proj1 (NoDup_nth (firstn (S n) columns) 0) Hnodup);
    rewrite ?length_firstn; try lia.
  rewrite !nth_firstn.
  destruct (Nat.ltb_spec i (S n)); [|lia].
  destruct (Nat.ltb_spec j (S n)); [|lia]. exact E.
Qed.

Lemma window_remove c :
  In c (firstn n columns')
  <-> In c (firstn (S n) columns) /\ c <> nth k columns 0.
Proof.
  rewrite !in_window by lia. split.
  - intros (j & Hj & <-). rewrite Hnth.
    destruct (Nat.eqb_spec j k) as [->|Hjk].
    + split; [exists n; split; [lia|reflexivity]|].
      intros E. apply window_nth in E; lia.
    + split; [exists j; split; [lia|reflexivity]|].
      intros E. apply window_nth in E; lia.
  - intros ((j & Hj & <-) & Hne).
    assert (j <> k) by congruence.
    destruct (Nat.eq_dec j n) as [->|].
    + exists k. split; [lia|]. rewrite Hnth, Nat.eqb_refl. reflexivity.
    + exists j. split; [lia|]. rewrite Hnth.
      destruct (Nat.eqb_spec j k); [lia|reflexivity].
Qed.

Lemma window_remove_nodup : NoDup (firstn n columns').
Proof.
  apply (NoDup_nth _ 0). intros i j Hi Hj.
  rewrite length_firstn in Hi, Hj. rewrite !nth_firstn.
  destruct (Nat.ltb_spec i n); [|lia].
  destruct (Nat.ltb_spec j n); [|lia].
  rewrite !Hnth.
  destruct (Nat.eqb_spec i k); destruct (Nat.eqb_spec j k); intros E;
    try lia; apply window_nth in E; lia.
Qed.
End Window.

(** ** Words that agree on every column *)

Lemma string_ext (s1 s2 : string) :
  String.length s1 = String.length s2 ->
  (forall p, p < String.length s1 -> String.get p s1 = String.get p s2) ->
  s1 = s2.
Proof.
  revert s2; induction s1 as [|a s1 IH]; intros [|b s2] Hl Hg; simpl in Hl;
    try discriminate; [reflexivity|].
  f_equal.
  - specialize (Hg 0 ltac:(simpl; lia)). simpl in Hg. congruence.
  - apply IH; [lia|]. intros p Hp. apply (Hg (S p)). simpl. lia.
Qed.

Lemma ord_inj c1 c2 : ord c1 = ord c2 -> c1 = c2.
Proof.
  unfold ord. intros E.
  rewrite <- (ascii_nat_embedding c1), <- (ascii_nat_embedding c2). now rewrite E.
Qed.

Lemma code_at_char_of column it : code_at column it = ord (char_of column it).
Proof.
  unfold code_at, char_of. destruct (String.get column (snd it)); reflexivity.
Qed.

Lemma get_char_of column it :
  column < word_length it -> String.get column (snd it) = Some (char_of column it).
Proof.
  intros H. destruct (get_in_range _ _ H) as [c Hc].
  unfold char_of. now rewrite Hc.
Qed.

Lemma shared_all_equal (l : list item) (L : nat) :
  (forall it, In it l -> word_length it = L) ->
  (forall p, p < L -> shared_column l p) ->
  forall it1 it2, In it1 l -> In it2 l -> snd it1 = snd it2.
Proof.
  intros Hl Hs it1 it2 H1 H2.
  assert (L1 := Hl _ H1). assert (L2 := Hl _ H2). unfold word_length in *.
  apply string_ext; [congruence|].
  intros p Hp. rewrite !get_char_of by (unfold word_length; lia).
  f_equal. apply ord_inj. rewrite <- !code_at_char_of.
  apply (Hs p); [lia|exact H1|exact H2].
Qed.

Lemma distinct_words_differ (l : list item) (L : nat) :
  2 <= length l -> NoDup (map snd l) ->
  (forall it, In it l -> word_length it = L) ->
  (forall p, p < L -> shared_column l p) -> False.
Proof.
  intros Hlen Hn Hl Hs.
  destruct l as [|a [|b l]]; simpl in Hlen; try lia.
  assert (E : snd a = snd b).
  { apply (shared_all_equal _ L Hl Hs); [now left|right; now left]. }
  simpl in Hn. inversion Hn as [|? ? Hni _]; subst. apply Hni. left. now symmetry.
Qed.

(** The position returned by [optimal_switch_column] lies in the window
    as soon as the words can only differ inside the window. *)
Lemma optimal_switch_column_in_window opt l columns n L k use_if :
  2 <= length l -> NoDup (map snd l) ->
  (forall it, In it l -> word_length it = L) ->
  (forall p, p < L -> ~ In p (firstn n columns) -> shared_column l p) ->
  optimal_switch_column opt l columns n = Ok (k, use_if) ->
  k < n /\ k < length columns.
Proof.
  intros Hlen Hn Hl Hagree H.
  apply optimal_switch_column_inv in H as (Hne & Hpos & [Hearly|Hscan]).
  - destruct Hearly as (-> & _ & i & Hi & Hsp & Hsc).
    destruct (Nat.eq_dec i 0) as [->|Hi0].
    + assert (Hsmall : n <= 1 \/ length columns <= 1 -> False).
      { intros Hsm. apply (distinct_words_differ l L Hlen Hn Hl).
        intros p Hp.
        destruct (in_dec Nat.eq_dec p (firstn n columns)) as [Hin|Hout];
          [|now apply Hagree].
        apply (In_nth _ _ 0) in Hin as (j & Hj & <-).
        rewrite length_firstn in Hj. rewrite nth_firstn.
        destruct (Nat.ltb_spec j n); [|lia].
        replace j with 0 by lia.
        now apply (span_of_one _ _ Hne). }
      lia.
    + destruct (Hsc i (Nat.le_refl i)) as [Hic _]. lia.
  - destruct Hscan as (Hall & kc & ks & (Hkc & _) & (Hks & _) & E).
    destruct (count_at l columns kc <=? Z.of_nat (use_if_threshold opt))%Z;
      inversion E; subst; split; auto;
      match goal with |- ?x < length _ => destruct (Hall x ltac:(assumption)) as [[? _] _] end;
      assumption.
Qed.

(** ** The tree built for a group of words *)

Lemma map_result_keys {K X Y : Type} (G : K -> X) (f : K -> X -> Result Y)
    (Q : K -> Y -> Prop) (keys : list K) :
  (forall c, In c keys -> exists t, f c (G c) = Ok t /\ Q c t) ->
  exists children,
    map_result (fun '(c, g) => let* t := f c g in Ok (c, t))
      (map (fun c => (c, G c)) keys) = Ok children
    /\ Forall2 (fun c ct => fst ct = c /\ Q c (snd ct)) keys children.
Proof.
  induction keys as [|c keys IH]; intros H.
  - exists []. split; [reflexivity|constructor].
  - destruct (H c (or_introl eq_refl)) as (t & Ht & Hq).
    destruct IH as (children & Hm & Hf); [intros; apply H; now right|].
    exists ((c, t) :: children). cbn [map map_result]. rewrite Ht. cbn [bind].
    rewrite Hm. cbn [bind]. split; [reflexivity|]. constructor; [now split|exact Hf].
Qed.

Lemma first_branch_key {K T R : Type} (Q : K -> T -> Prop) (test : K -> bool)
    (body : T -> R) (default : R) (keys : list K) (children : list (K * T)) c :
  Forall2 (fun c ct => fst ct = c /\ Q c (snd ct)) keys children ->
  In c keys -> test c = true ->
  (forall c', In c' keys -> test c' = true -> c' = c) ->
  exists t, Q c t /\ first_branch test body default children = body t.
Proof.
  induction 1 as [|c0 [c1 t0] keys children [E Hq] Hf IH]; intros Hin Ht Hu;
    [contradiction|].
  simpl in E; subst c1. cbn [first_branch].
  destruct (test c0) eqn:E0.
  - assert (c0 = c) by (apply Hu; [now left|exact E0]). subst c0.
    exists t0. split; [exact Hq|reflexivity].
  - destruct Hin as [->|Hin]; [congruence|].
    apply IH; [exact Hin|exact Ht|]. intros; apply Hu; [now right|assumption].
Qed.

Lemma Forall2_in_r {A B} (R : A -> B -> Prop) xs ys y :
  Forall2 R xs ys -> In y ys -> exists x, In x xs /\ R x y.
Proof.
  induction 1 as [|x0 y0 xs ys HR Hf IH]; intros Hin; [contradiction|].
  destruct Hin as [->|Hin]; [exists x0; split; [now left|exact HR]|].
  destruct (IH Hin) as (x & Hx & Hr). exists x. split; [now right|exact Hr].
Qed.

Lemma tail_tests_ok (it : item) (cols : list nat) :
  (forall c, In c cols -> c < word_length it) ->
  map_result (fun column => let* c := char_at (snd it) column in Ok (column, c)) cols
  = Ok (map (fun c => (c, char_of c it)) cols).
Proof.
  induction cols as [|c cols IH]; intros H; [reflexivity|].
  cbn [map_result map].
  rewrite (proj2 (char_at_ok _ _ _) (get_char_of c it (H c (or_introl eq_refl)))).
  cbn [bind]. rewrite IH by (intros; apply H; now right). reflexivity.
Qed.

Lemma at_is_char_of (it : item) (c : nat) :
  c < word_length it -> at_is (snd it) c (char_of c it) = true.
Proof.
  intros H. unfold at_is. rewrite (get_char_of c it H). apply Ascii.eqb_refl.
Qed.

Lemma at_is_true (it : item) (c : nat) (ch : ascii) :
  c < word_length it -> at_is (snd it) c ch = true -> ch = char_of c it.
Proof.
  intros H. unfold at_is. rewrite (get_char_of c it H). intros E.
  apply Ascii.eqb_eq in E. now symmetry.
Qed.

Lemma run_tests_ok (it : item) (index : Z) (cols : list nat) :
  (forall c, In c cols -> c < word_length it) ->
  run_tests (map (fun c => (c, char_of c it)) cols) index (snd it)
  = (cols, GOT_MATCH index).
Proof.
  induction cols as [|c cols IH]; intros H; [reflexivity|].
  cbn [map run_tests]. rewrite at_is_char_of by (apply H; now left).
  rewrite IH by (intros; apply H; now right). reflexivity.
Qed.

Lemma length_one {A} (l : list A) : (length l =? 1) = true -> exists a, l = [a].
Proof.
  destruct l as [|a [|b l]]; try discriminate. eauto.
Qed.

Lemma length_two {A} (l : list A) :
  l <> [] -> (length l =? 1) = false -> 2 <= length l.
Proof.
  destruct l as [|a [|b l]]; simpl; try congruence; try discriminate. lia.
Qed.

Lemma filter_words_distinct (keep : item -> bool) (l : list item) :
  NoDup (map snd l) -> NoDup (map snd (filter keep l)).
Proof.
  induction l as [|it l IH]; intros H; simpl; [constructor|].
  simpl in H. inversion H as [|? ? Hni Hn]; subst.
  destruct (keep it); simpl; [|now apply IH].
  constructor; [|now apply IH].
  intros Hin. apply Hni. apply in_map_iff in Hin as (x & E & Hx).
  apply filter_In in Hx as [Hx _]. apply in_map_iff. eauto.
Qed.

Lemma default_columns_some cols n :
  cols <> [] -> default_columns (Some cols) n = cols.
Proof. destruct cols; [congruence|reflexivity]. Qed.

(** The group of a character keeps the invariant, one column fewer. *)
Lemma node_inv_group L n l columns columns' k c :
  node_inv L (S n) l columns ->
  k < S n ->
  length columns' = length columns ->
  (forall j, nth j columns' 0 = if j =? k then nth n columns 0 else nth j columns 0) ->
  In c (sorted_keys ord (char_of (nth k columns 0)) l) ->
  node_inv L n (group_of ord (char_of (nth k columns 0)) l c) columns'.
Proof.
  intros [Hne Hlen Hdis Hn Hnd Hrange Hagree] Hk Hl' Hnth Hc.
  assert (Hsub : forall it, In it (group_of ord (char_of (nth k columns 0)) l c) -> In it l).
  { intros it Hit. now apply filter_In in Hit. }
  assert (Hrem := window_remove columns columns' n k Hk Hn Hnd Hl' Hnth).
  constructor.
  - now apply group_of_nonempty.
  - intros it Hit. apply Hlen, Hsub, Hit.
  - now apply filter_words_distinct.
  - lia.
  - now apply (window_remove_nodup columns columns' n k).
  - intros p Hp. apply Hrange. now apply Hrem in Hp.
  - intros p Hp Hout it1 it2 H1 H2.
    destruct (Nat.eq_dec p (nth k columns 0)) as [->|Hpk].
    + apply filter_In in H1 as [_ E1]. apply filter_In in H2 as [_ E2].
      apply Nat.eqb_eq in E1, E2. rewrite !code_at_char_of. congruence.
    + destruct (in_dec Nat.eq_dec p (firstn (S n) columns)) as [Hin|Hnin].
      * exfalso. apply Hout. apply Hrem. now split.
      * apply (Hagree p Hp Hnin); auto.
Qed.

Lemma extend_path columns columns' n k p :
  k < S n -> S n <= length columns -> NoDup (firstn (S n) columns) ->
  length columns' = length columns ->
  (forall j, nth j columns' 0 = if j =? k then nth n columns 0 else nth j columns 0) ->
  NoDup p -> incl p (firstn n columns') ->
  NoDup (nth k columns 0 :: p) /\ incl (nth k columns 0 :: p) (firstn (S n) columns).
Proof.
  intros Hk Hn Hnd Hl' Hnth Hp Hincl.
  assert (Hrem := window_remove columns columns' n k Hk Hn Hnd Hl' Hnth).
  split.
  - constructor; [|exact Hp]. intros Hin. apply Hincl, Hrem in Hin. now destruct Hin.
  - intros c [<-|Hc].
    + apply (proj2 (in_window _ _ _ Hn)). exists k. split; [exact Hk|reflexivity].
    + now apply Hincl, Hrem in Hc.
Qed.

Section BuildValid.
Variable opt : Opt.
Variable L : nat.

Lemma build_leaf n index word columns0 columns :
  default_columns columns0 n = columns ->
  node_inv L n [(index, word)] columns ->
  exists t, build_letter_switch opt n [(index, word)] columns0 = Ok t
            /\ node_ok opt n [(index, word)] columns t.
Proof.
  intros Hd [Hne Hlen Hdis Hn Hnd Hrange Hagree].
  assert (Hw : forall c, In c (firstn n columns) -> c < word_length (index, word)).
  { intros c Hc. rewrite (Hlen (index, word)) by now left. now apply Hrange. }
  destruct n as [|n].
  - exists (LeafMatch index word). split; [reflexivity|].
    split.
    + intros i w [E|[]]. inversion E; subst. cbn.
      repeat split; [constructor|intros ? []|]. left. now split.
    + intros p [<-|[]]. split; [constructor|intros ? []].
  - cbn [build_letter_switch length Nat.eqb negb assert bind getitem nth_error].
    rewrite Hd.
    destruct (char_tail_test_threshold opt <? S n) eqn:Et.
    + exists (LeafGuessMatch index word). split; [reflexivity|].
      apply Nat.ltb_lt in Et. split.
      * intros i w [E|[]]. inversion E; subst. cbn [run_node].
        repeat split; [constructor|intros ? []|]. right. cbn. split; [reflexivity|lia].
      * intros p [<-|[]]. split; [constructor|intros ? []].
    + pose proof (tail_tests_ok (index, word) _ Hw) as Ht. cbn [snd] in Ht.
      rewrite Ht. cbn [bind].
      eexists. split; [reflexivity|]. split.
      * intros i w [E|[]]. inversion E; subst. cbn [run_node].
        pose proof (run_tests_ok (i, w) i _ Hw) as Hr. cbn [snd] in Hr.
        rewrite Hr.
        repeat split; [exact Hnd|apply incl_refl|].
        left. split; [reflexivity|]. cbn [fst]. rewrite length_firstn. lia.
      * intros p [<-|[]]. cbn [paths]. rewrite map_map. cbn [fst]. rewrite map_id.
        split; [exact Hnd|apply incl_refl].
Qed.

Lemma build_letter_switch_valid n :
  forall l columns0 columns,
    default_columns columns0 n = columns ->
    node_inv L n l columns ->
    exists t, build_letter_switch opt n l columns0 = Ok t
              /\ node_ok opt n l columns t.
Proof.
  induction n as [|n IH]; intros l columns0 columns Hd Hinv.
  - destruct (length l =? 1) eqn:E1.
    + apply length_one in E1 as [[index word] ->]. now apply build_leaf.
    + exfalso. destruct Hinv as [Hne Hlen Hdis Hn Hnd Hrange Hagree].
      apply (distinct_words_differ l L); auto using length_two.
  - destruct (length l =? 1) eqn:E1.
    + apply length_one in E1 as [[index word] ->]. now apply build_leaf.
    + assert (Hinv' := Hinv).
      destruct Hinv as [Hne Hlen Hdis Hn Hnd Hrange Hagree].
      assert (H2 := length_two l Hne E1).
      assert (Hscan : forall i, i < S n -> scannable l columns i).
      { intros i Hi. split; [lia|]. intros it Hit.
        change (column_of columns i < word_length it).
        rewrite (Hlen it Hit). apply Hrange.
        apply (proj2 (in_window _ _ _ Hn)). exists i. split; [exact Hi|reflexivity]. }
      destruct (optimal_switch_column_total opt l columns (S n) Hne ltac:(lia) Hscan)
        as (k & use_if & Hosc).
      destruct (optimal_switch_column_in_window _ _ _ _ L _ _ H2 Hdis Hlen Hagree Hosc)
        as [Hk Hkl].
      destruct (setitem_spec columns k (nth n columns 0) Hkl)
        as (columns' & Hset & Hl' & Hnth).
      set (col := nth k columns 0).
      assert (Hcol : column_in_range l col) by (apply (Hscan k Hk)).
      destruct (map_result_keys
                  (fun c => group_of ord (char_of col) l c)
                  (fun (_ : ascii) g => build_letter_switch opt n g (Some columns'))
                  (fun c t => node_ok opt n (group_of ord (char_of col) l c) columns' t)
                  (sorted_keys ord (char_of col) l))
        as (children & Hm & Hf).
      { intros c Hc. apply IH.
        - apply default_columns_some. destruct columns'; [simpl in Hl'; lia|discriminate].
        - now apply (node_inv_group L n l columns columns' k c). }
      exists (ColumnDispatch col use_if children). split.
      * cbn [build_letter_switch]. rewrite (nonempty_assert _ Hne), E1, Hd.
        cbn [assert bind]. rewrite Hosc. cbn [bind].
        rewrite (getitem_nth _ _ Hkl). cbn [bind].
        replace (S n - 1) with n by lia.
        rewrite (getitem_nth columns n) by lia. cbn [bind].
        rewrite Hset. cbn [bind]. fold col.
        rewrite (split_list_per_column_spec _ _ Hne Hcol). cbn [bind].
        cbv beta in Hm. rewrite Hm. reflexivity.
      * assert (Hext := fun p => extend_path columns columns' n k p Hk Hn Hnd Hl'
                                  (fun j => Hnth j 0)).
        fold col in Hext. split.
        -- intros index word Hit. set (it := (index, word)) in *.
           assert (Hcw : col < word_length it) by (apply (Hcol it Hit)).
           destruct (sorted_keys_complete ord (char_of col) l it Hit)
             as (c & Hc & Ec).
           apply ord_inj in Ec. subst c.
           destruct (first_branch_key
                       (fun c t => node_ok opt n (group_of ord (char_of col) l c)
                                     columns' t)
                       (at_is word col)
                       (fun child => run_node child word) ([], NO_MATCH)
                       _ _ _ Hf Hc (at_is_char_of it col Hcw))
             as (t & [Hrun _] & Hfb).
           { intros c' _ Hc'. now apply (at_is_true it col c' Hcw). }
           cbn [run_node]. rewrite Hfb.
           assert (Hg : In (index, word) (group_of ord (char_of col) l (char_of col it))).
           { apply filter_In. split; [exact Hit|apply Nat.eqb_refl]. }
           destruct (Hrun index word Hg) as (Hnd' & Hincl & Hout).
           destruct (Hext _ Hnd' Hincl) as [Hnd2 Hincl2].
           unfold run_ok, reading. cbn [fst snd length].
           split; [exact Hnd2|]. split; [exact Hincl2|].
           destruct Hout as [[? ?]|[? ?]]; [left|right]; split; auto; lia.
        -- intros p Hp. cbn [paths] in Hp. destruct Hp as [<-|Hp].
           ++ apply (Hext []); [constructor|intros ? []].
           ++ apply in_flat_map in Hp as ([c' child] & Hch & Hp).
              apply in_map_iff in Hp as (p' & <- & Hp').
              destruct (Forall2_in_r _ _ _ _ Hf Hch) as (c & _ & _ & [_ Hpaths]).
              destruct (Hpaths p' Hp') as [Hnd' Hincl].
              now apply Hext.
Qed.
End BuildValid.

(** ** The tree built for a corpus *)

Lemma node_inv_length_group l len :
  NoDup (map snd l) -> In len (length_keys l) ->
  node_inv len len (length_group l len) (range 0 len).
Proof.
  intros Hd Hin. unfold range. constructor.
  - now apply group_of_nonempty.
  - intros it Hit. apply filter_In in Hit as [_ E]. now apply Nat.eqb_eq in E.
  - now apply filter_words_distinct.
  - now rewrite length_seq.
  - rewrite firstn_all2 by (rewrite length_seq; lia). apply seq_NoDup.
  - intros c Hc. rewrite firstn_all2 in Hc by (rewrite length_seq; lia).
    apply in_seq in Hc. lia.
  - intros p Hp Hout. exfalso. apply Hout.
    rewrite firstn_all2 by (rewrite length_seq; lia). apply in_seq. lia.
Qed.

Lemma build_switch_valid opt l :
  valid_corpus l ->
  exists children,
    build_switch opt l
    = Ok (LengthDispatch (map snd l)
            (length (length_keys l) <? use_if_threshold opt) children)
    /\ Forall2 (fun len ct =>
                  fst ct = len
                  /\ node_ok opt len (length_group l len) (range 0 len) (snd ct))
         (length_keys l) children.
Proof.
  intros [Hne Hd].
  destruct (map_result_keys
              (fun len => length_group l len)
              (fun len g => build_letter_switch opt len g None)
              (fun len t => node_ok opt len (length_group l len) (range 0 len) t)
              (length_keys l))
    as (children & Hm & Hf).
  { intros len Hlen. apply (build_letter_switch_valid opt len len); [reflexivity|].
    now apply node_inv_length_group. }
  exists children. split; [|exact Hf].
  unfold build_switch. rewrite (nonempty_assert _ Hne). cbn [assert bind].
  rewrite (split_list_per_length_spec _ Hne). cbn [bind].
  cbv beta in Hm. unfold length_group, length_keys in Hm |- *. rewrite Hm. cbn [bind].
  now rewrite length_map.
Qed.

Lemma Forall2_map_fst {K T} (Q : K -> T -> Prop) keys (children : list (K * T)) :
  Forall2 (fun c ct => fst ct = c /\ Q c (snd ct)) keys children ->
  map fst children = keys.
Proof.
  induction 1 as [|c ct keys children [E _] _ IH]; [reflexivity|].
  simpl. now rewrite E, IH.
Qed.

(** Running the tree of a valid corpus on one of its words. *)
Lemma run_switch_valid opt l children index word :
  Forall2 (fun len ct =>
             fst ct = len
             /\ node_ok opt len (length_group l len) (range 0 len) (snd ct))
    (length_keys l) children ->
  In (index, word) l ->
  run_ok opt (String.length word) (range 0 (String.length word)) index
    (run_length_children children word).
Proof.
  intros Hf Hit. set (it := (index, word)) in *.
  destruct (sorted_keys_complete (fun k : nat => k) word_length l it Hit)
    as (len & Hlen & E).
  unfold word_length in E; cbn [snd it] in E. subst len.
  destruct (first_branch_key
              (fun len t => node_ok opt len (length_group l len) (range 0 len) t)
              (Nat.eqb (String.length word))
              (fun child => run_node child word) ([], NO_MATCH)
              _ _ _ Hf Hlen (Nat.eqb_refl _))
    as (t & [Hrun _] & Hfb).
  { intros len' _ E. apply Nat.eqb_eq in E. now symmetry. }
  unfold run_length_children. rewrite Hfb. apply Hrun.
  apply filter_In. split; [exact Hit|apply Nat.eqb_refl].
Qed.

Lemma paths_switch_valid opt l children p :
  Forall2 (fun len ct =>
             fst ct = len
             /\ node_ok opt len (length_group l len) (range 0 len) (snd ct))
    (length_keys l) children ->
  In p (flat_map (fun '(_, child) => paths child) children) ->
  NoDup p.
Proof.
  intros Hf Hp. apply in_flat_map in Hp as ([len child] & Hch & Hp).
  destruct (Forall2_in_r _ _ _ _ Hf Hch) as (len' & _ & _ & [_ Hpaths]).
  now apply Hpaths.
Qed.

(** ** Sample corpora and the lengths of a corpus *)

Lemma corpus_A_valid : valid_corpus corpus_A.
Proof.
  split; [discriminate|]. cbn.
  repeat constructor; cbn; intuition discriminate.
Qed.

Lemma length_keys_In l len :
  In len (length_keys l) <-> exists it, In it l /\ word_length it = len.
Proof.
  split.
  - apply sorted_keys_incl.
  - intros (it & Hit & <-).
    destruct (sorted_keys_complete (fun k : nat => k) word_length l it Hit)
      as (k & Hk & E).
    now subst k.
Qed.

Lemma length_keys_count l :
  length (length_keys l) = length (nodup Nat.eq_dec (map word_length l)).
Proof.
  unfold length_keys, sorted_keys.
  rewrite <- (Permutation_length (sorted_perm _ _)).
  apply Permutation_length, NoDup_Permutation.
  - generalize (distinct_keys_nodup (fun k : nat => k) (map word_length l)).
    now rewrite map_id.
  - apply NoDup_nodup.
  - intros x. now rewrite distinct_keys_nat_In, nodup_In.
Qed.

Lemma length_keys_ascending l : StronglySorted lt (length_keys l).
Proof. exact (sorted_keys_strict (fun k : nat => k) word_length l). Qed.

(** ** The order of the list *)

Lemma fold_max_perm (xs ys : list nat) :
  Permutation xs ys -> fold_right Nat.max 0 xs = fold_right Nat.max 0 ys.
Proof. induction 1; simpl; lia. Qed.

Lemma fold_min_perm (M : nat) (xs ys : list nat) :
  Permutation xs ys -> fold_right Nat.min M xs = fold_right Nat.min M ys.
Proof. induction 1; simpl; lia. Qed.

Lemma span_of_perm l l' column :
  Permutation l l' -> span_of l column = span_of l' column.
Proof.
  intros H. unfold span_of, min_code, max_code, column_codes.
  assert (Hp : Permutation (map (code_at column) l) (map (code_at column) l'))
    by now apply Permutation_map.
  now rewrite (fold_max_perm _ _ Hp), (fold_min_perm _ _ _ Hp).
Qed.

Lemma count_of_perm l l' column :
  Permutation l l' -> count_of l column = count_of l' column.
Proof.
  intros H. unfold count_of, column_codes.
  apply Permutation_length, NoDup_Permutation; try apply NoDup_nodup.
  intros x. rewrite !nodup_In.
  split; apply Permutation_in; [|symmetry]; now apply Permutation_map.
Qed.

Lemma column_in_range_perm l l' column :
  Permutation l l' -> column_in_range l column -> column_in_range l' column.
Proof.
  intros H Hr it Hit. apply Hr. now apply (Permutation_in _ (Permutation_sym H)).
Qed.

Lemma perm_nonempty {A} (l l' : list A) : Permutation l l' -> l <> [] -> l' <> [].
Proof.
  intros H Hne ->. apply Hne. now apply Permutation_nil, Permutation_sym.
Qed.

Lemma for_each_return_ext {X R S : Type} (xs : list X)
    (body body' : X -> S -> Result (LoopExit R S)) :
  (forall x, In x xs -> forall s, body x s = body' x s) ->
  forall s, for_each_return xs body s = for_each_return xs body' s.
Proof.
  induction xs as [|x xs IH]; intros H s; simpl; [reflexivity|].
  rewrite <- (H x (or_introl eq_refl)).
  destruct (body x s) as [[v|s']|e]; simpl; auto.
  apply IH. intros; apply H; now right.
Qed.

Lemma optimal_switch_column_perm opt l l' columns n :
  l <> [] -> Permutation l l' ->
  (forall i, i < n -> scannable l columns i) ->
  optimal_switch_column opt l columns n = optimal_switch_column opt l' columns n.
Proof.
  intros Hne Hp Hscan. unfold optimal_switch_column.
  rewrite (Permutation_length Hp).
  rewrite (for_each_return_ext _ (scan_column l columns) (scan_column l' columns));
    [reflexivity|].
  intros i Hi s. apply in_seq in Hi.
  assert (Hne' := perm_nonempty _ _ Hp Hne).
  rewrite (scan_column_spec _ _ Hne) by (apply Hscan; lia).
  rewrite (scan_column_spec _ _ Hne').
  2:{ destruct (Hscan i ltac:(lia)) as [Hic Hr]. split; [exact Hic|].
      now apply (column_in_range_perm l). }
  unfold span_at.
  now rewrite (span_of_perm _ _ _ Hp), (count_of_perm _ _ _ Hp).
Qed.

Lemma map_inj {A B} (f : A -> B) (xs ys : list A) :
  (forall a b, f a = f b -> a = b) -> map f xs = map f ys -> xs = ys.
Proof.
  intros Hf. revert ys; induction xs as [|x xs IH]; intros [|y ys] H; simpl in H;
    try discriminate; [reflexivity|].
  inversion H. f_equal; auto.
Qed.

Section GroupingPerm.
Context {K : Type} (rank : K -> nat) (key : item -> K).
Hypothesis rank_inj : forall a b, rank a = rank b -> a = b.

Lemma sorted_keys_ranks l r :
  In r (map rank (sorted_keys rank key l))
  <-> exists it, In it l /\ rank (key it) = r.
Proof.
  split.
  - intros H. apply in_map_iff in H as (k & <- & Hk).
    apply sorted_keys_incl in Hk as (it & Hit & <-). eauto.
  - intros (it & Hit & <-).
    destruct (sorted_keys_complete rank key l it Hit) as (k & Hk & E).
    rewrite <- E. now apply in_map.
Qed.

Lemma sorted_keys_perm l l' :
  Permutation l l' -> sorted_keys rank key l = sorted_keys rank key l'.
Proof.
  intros Hp. apply (map_inj rank _ _ rank_inj).
  apply strictly_sorted_unique; try apply sorted_keys_strict.
  intros r. rewrite !sorted_keys_ranks.
  split; intros (it & Hit & E); exists it; split; auto;
    [now apply (Permutation_in _ Hp)|now apply (Permutation_in _ (Permutation_sym Hp))].
Qed.

Lemma group_of_perm l l' k :
  Permutation l l' -> Permutation (group_of rank key l k) (group_of rank key l' k).
Proof.
  unfold group_of. induction 1; simpl.
  - constructor.
  - destruct (rank (key x) =? rank k); [now constructor|assumption].
  - destruct (rank (key x) =? rank k); destruct (rank (key y) =? rank k);
      try reflexivity. apply perm_swap.
  - etransitivity; eassumption.
Qed.
End GroupingPerm.

Lemma map_result_keys_ext {K X Y : Type} (G G' : K -> X) (f : K -> X -> Result Y)
    (keys : list K) :
  (forall c, In c keys -> f c (G c) = f c (G' c)) ->
  map_result (fun '(c, g) => let* t := f c g in Ok (c, t)) (map (fun c => (c, G c)) keys)
  = map_result (fun '(c, g) => let* t := f c g in Ok (c, t)) (map (fun c => (c, G' c)) keys).
Proof.
  induction keys as [|c keys IH]; intros H; [reflexivity|].
  cbn [map map_result]. rewrite (H c (or_introl eq_refl)).
  rewrite IH by (intros; apply H; now right). reflexivity.
Qed.

Lemma node_inv_perm L n l l' columns :
  Permutation l l' -> node_inv L n l columns -> node_inv L n l' columns.
Proof.
  intros Hp [Hne Hlen Hdis Hn Hnd Hrange Hagree].
  assert (Hin : forall it, In it l' -> In it l)
    by (intros it; apply Permutation_in; now symmetry).
  constructor; auto.
  - now apply (perm_nonempty l).
  - eapply Permutation_NoDup; [|exact Hdis]. now apply Permutation_map.
  - intros p Hpl Hout it1 it2 H1 H2. apply (Hagree p Hpl Hout); auto.
Qed.

Lemma build_letter_switch_perm opt L n :
  forall l l' columns0 columns,
    default_columns columns0 n = columns ->
    node_inv L n l columns ->
    Permutation l l' ->
    build_letter_switch opt n l columns0 = build_letter_switch opt n l' columns0.
Proof.
  induction n as [|n IH]; intros l l' columns0 columns Hd Hinv Hp.
  - assert (Hlen := Permutation_length Hp).
    destruct (length l =? 1) eqn:E1.
    + apply length_one in E1 as [a ->].
      now rewrite (Permutation_length_1_inv Hp).
    + cbn [build_letter_switch]. now rewrite <- Hlen, E1.
  - assert (Hlen := Permutation_length Hp).
    destruct (length l =? 1) eqn:E1.
    + apply length_one in E1 as [a ->].
      now rewrite (Permutation_length_1_inv Hp).
    + assert (Hinv' := node_inv_perm _ _ _ _ _ Hp Hinv).
      destruct Hinv as [Hne Hlenw Hdis Hn Hnd Hrange Hagree].
      assert (H2 := length_two l Hne E1).
      assert (Hscan : forall i, i < S n -> scannable l columns i).
      { intros i Hi. split; [lia|]. intros it Hit.
        change (column_of columns i < word_length it).
        rewrite (Hlenw it Hit). apply Hrange.
        apply (proj2 (in_window _ _ _ Hn)). exists i. split; [exact Hi|reflexivity]. }
      destruct (optimal_switch_column_total opt l columns (S n) Hne ltac:(lia) Hscan)
        as (k & use_if & Hosc).
      destruct (optimal_switch_column_in_window _ _ _ _ L _ _ H2 Hdis Hlenw Hagree Hosc)
        as [Hk Hkl].
      destruct (setitem_spec columns k (nth n columns 0) Hkl)
        as (columns' & Hset & Hl' & Hnth).
      set (col := nth k columns 0).
      assert (Hcol : column_in_range l col) by (apply (Hscan k Hk)).
      cbn [build_letter_switch]. rewrite <- Hlen, E1, Hd.
      rewrite <- (optimal_switch_column_perm opt l l' columns (S n) Hne Hp Hscan).
      destruct (assert (negb (length l =? 0))); cbn [bind]; [|reflexivity].
      rewrite Hosc. cbn [bind].
      rewrite (getitem_nth _ _ Hkl). cbn [bind].
      replace (S n - 1) with n by lia.
      rewrite (getitem_nth columns n) by lia. cbn [bind].
      rewrite Hset. cbn [bind]. fold col.
      rewrite (split_list_per_column_spec _ _ Hne Hcol).
      rewrite (split_list_per_column_spec l' col (perm_nonempty _ _ Hp Hne)
                 (column_in_range_perm _ _ _ Hp Hcol)).
      cbn [bind].
      rewrite <- (sorted_keys_perm ord (char_of col) ord_inj l l' Hp).
      rewrite (map_result_keys_ext
                 (fun c => group_of ord (char_of col) l c)
                 (fun c => group_of ord (char_of col) l' c)
                 (fun (_ : ascii) g => build_letter_switch opt n g (Some columns')));
        [reflexivity|].
      intros c Hc. apply (IH _ _ _ columns').
      * apply default_columns_some. destruct columns'; [simpl in Hl'; lia|discriminate].
      * now apply (node_inv_group L n l columns columns' k c).
      * now apply group_of_perm.
Qed.

Lemma build_switch_perm opt l l' :
  valid_corpus l -> Permutation l l' ->
  exists use_if children,
    build_switch opt l = Ok (LengthDispatch (map snd l) use_if children)
    /\ build_switch opt l' = Ok (LengthDispatch (map snd l') use_if children).
Proof.
  intros Hv Hp.
  destruct (build_switch_valid opt l Hv) as (children & Hb & _).
  exists (length (length_keys l) <? use_if_threshold opt), children.
  split; [exact Hb|].
  destruct Hv as [Hne Hd].
  unfold build_switch in Hb |- *.
  rewrite (nonempty_assert _ Hne) in Hb.
  rewrite (nonempty_assert _ (perm_nonempty _ _ Hp Hne)).
  cbn [assert bind] in Hb |- *.
  rewrite (split_list_per_length_spec _ Hne) in Hb.
  rewrite (split_list_per_length_spec _ (perm_nonempty _ _ Hp Hne)).
  cbn [bind] in Hb |- *.
  rewrite <- (sorted_keys_perm (fun k : nat => k) word_length (fun a b E => E) l l' Hp).
  rewrite <- (map_result_keys_ext
                (fun len => group_of (fun k : nat => k) word_length l len)
                (fun len => group_of (fun k : nat => k) word_length l' len)
                (fun len g => build_letter_switch opt len g None)).
  - destruct (map_result _ _) as [cs|e]; cbn [bind] in Hb |- *; [|discriminate].
    inversion Hb; subst. rewrite !length_map. reflexivity.
  - intros len Hlen. apply (build_letter_switch_perm opt len len _ _ None (range 0 len)).
    + reflexivity.
    + now apply node_inv_length_group.
    + now apply group_of_perm.
Qed.

Lemma corpus_D_valid : valid_corpus corpus_D.
Proof.
  split; [discriminate|]. cbn. repeat constructor; cbn; intuition discriminate.
Qed.

(** ** Writing only appends *)

Lemma appends_ret {A} (a : A) : appends (ret a).
Proof. intros opt. exists []. cbn. now rewrite app_nil_r. Qed.

Lemma appends_lift {A} (r : Result A) : appends (lift r).
Proof. intros opt. exists []. cbn. now rewrite app_nil_r. Qed.

Lemma appends_get_opt : appends get_opt.
Proof. intros opt. exists []. cbn. now rewrite app_nil_r. Qed.

Lemma appends_line s : appends (line s).
Proof. intros opt. eexists. rewrite line_run. reflexivity. Qed.

Lemma appends_indent : appends indent.
Proof. intros opt. exists []. cbn. now rewrite app_nil_r. Qed.

Lemma appends_dedent : appends dedent.
Proof. intros opt. exists []. cbn. now rewrite app_nil_r. Qed.

Lemma appends_bind {A B} (m : Gen A) (k : A -> Gen B) :
  appends m -> (forall a, appends (k a)) -> appends (gbind m k).
Proof.
  intros Hm Hk opt. unfold gbind.
  destruct (Hm opt) as [ls1 H1].
  destruct (m opt) as [[a|e] o1]; cbn [snd] in H1.
  - destruct (Hk a o1) as [ls2 H2]. exists (ls1 ++ ls2).
    now rewrite H2, H1, app_assoc.
  - exists ls1. exact H1.
Qed.

Lemma appends_if {A} (b : bool) (m1 m2 : Gen A) :
  appends m1 -> appends m2 -> appends (if b then m1 else m2).
Proof. now destruct b. Qed.

Lemma appends_for_each {X} (xs : list X) (body : X -> Gen unit) :
  (forall x, appends (body x)) -> appends (gen_for_each xs body).
Proof.
  intros H. induction xs as [|x xs IH]; cbn [gen_for_each].
  - apply appends_ret.
  - apply appends_bind; [apply H|intros _; exact IH].
Qed.

Ltac appends_step :=
  first [ apply appends_line | apply appends_indent | apply appends_dedent
        | apply appends_ret | apply appends_lift | apply appends_get_opt
        | apply appends_if
        | apply appends_bind; [|intros ?]
        | apply appends_for_each; intros [? ?] ].

Lemma appends_generate_letter_switch n :
  forall l columns, appends (generate_letter_switch n l columns).
Proof.
  induction n as [|n IH]; intros l columns; cbn [generate_letter_switch].
  - apply appends_bind; [apply appends_lift|intros _].
    destruct (length l =? 1); [|apply appends_lift].
    apply appends_bind; [apply appends_lift|intros [index word]].
    apply appends_line.
  - apply appends_bind; [apply appends_lift|intros _].
    destruct (length l =? 1).
    + apply appends_bind; [apply appends_lift|intros [index word]].
      cbn [Nat.eqb].
      apply appends_bind; [apply appends_get_opt|intros o].
      destruct (char_tail_test_threshold o <? S n); [apply appends_line|].
      repeat appends_step.
    + apply appends_bind; [apply appends_get_opt|intros o].
      apply appends_bind; [apply appends_lift|intros [k use_if]].
      repeat (apply appends_bind; [apply appends_lift|intros ?]).
      apply appends_bind; [apply appends_if; [apply appends_line|apply appends_ret]|intros _].
      apply appends_bind.
      * apply appends_for_each. intros [char g].
        apply appends_bind; [apply appends_if; apply appends_line|intros _].
        apply appends_bind; [apply appends_indent|intros _].
        apply appends_bind; [apply IH|intros _].
        apply appends_bind; [apply appends_dedent|intros _].
        apply appends_if; [apply appends_line|apply appends_ret].
      * intros _. repeat appends_step.
Qed.

(** * The claims *)

(** C1: on every word [w] of index [i] of a valid corpus, the procedure
    [generate_switch] writes leaves with [JSRW_GOT_MATCH(i)], or with
    [JSRW_TEST_GUESS(i)] at a leaf where more than 4 columns of [w] were
    not read; it never leaves with [JSRW_NO_MATCH()]. *)
Theorem corpus_word_is_matched (opt : Opt) (l : list item) :
  valid_corpus l ->
  char_tail_test_threshold opt = 4 ->
  exists tree,
    build_switch opt l = Ok tree
    /\ generate_switch l opt
       = (Ok tt, emit opt (render_switch (indent_level opt) tree))
    /\ forall index word, In (index, word) l ->
         (snd (run_switch tree word) = GOT_MATCH index
          \/ (snd (run_switch tree word) = TEST_GUESS index
              /\ NoDup (fst (run_switch tree word))
              /\ 4 < String.length word - length (fst (run_switch tree word))))
         /\ snd (run_switch tree word) <> NO_MATCH.
Proof.
  intros Hv Ht.
  destruct (build_switch_valid opt l Hv) as (children & Hb & Hf).
  eexists. split; [exact Hb|]. split.
  - apply (generate_switch_renders opt); [now split|exact Hb].
  - intros index word Hit. unfold run_switch. cbn [length_children].
    destruct (run_switch_valid opt l children index word Hf Hit)
      as (Hnd & _ & [[Hm _]|[Hg Hleft]]).
    + split; [now left|]. rewrite Hm. discriminate.
    + split; [right|rewrite Hg; discriminate].
      split; [exact Hg|]. split; [exact Hnd|]. now rewrite <- Ht.
Qed.

Lemma corpus_word_is_matched_witness :
  exists tree,
    build_switch (main_opt []) corpus_A = Ok tree
    /\ generate_switch corpus_A (main_opt [])
       = (Ok tt, emit (main_opt []) (render_switch (indent_level (main_opt [])) tree))
    /\ forall index word, In (index, word) corpus_A ->
         (snd (run_switch tree word) = GOT_MATCH index
          \/ (snd (run_switch tree word) = TEST_GUESS index
              /\ NoDup (fst (run_switch tree word))
              /\ 4 < String.length word - length (fst (run_switch tree word))))
         /\ snd (run_switch tree word) <> NO_MATCH.
Proof.
  apply (corpus_word_is_matched (main_opt []) corpus_A);
    [exact corpus_A_valid|reflexivity].
Defined.

(** C2 (the code departs from it): on [ab], [ac] the first column is
    shared (span 1), yet position 1 is returned, and the procedure
    written dispatches on column 1 first. *)
Theorem optimal_switch_column_shared_returns_1 :
  span_at corpus_C [0; 1] 0 = 1%Z
  /\ optimal_switch_column (main_opt []) corpus_C [0; 1] 2 = Ok (1, true)
  /\ build_letter_switch (main_opt []) 2 corpus_C None
     = Ok (ColumnDispatch 1 true
             [("b"%char, TailTest [(0, "a"%char)] 0 "ab");
              ("c"%char, TailTest [(0, "a"%char)] 1 "ac")]).
Proof. repeat split; vm_compute; reflexivity. Qed.

(** C3: in the tree built from a valid corpus no column is tested twice
    on a path from the root to a leaf. *)
Theorem no_column_tested_twice (opt : Opt) (l : list item) :
  valid_corpus l ->
  exists tree,
    build_switch opt l = Ok tree
    /\ generate_switch l opt
       = (Ok tt, emit opt (render_switch (indent_level opt) tree))
    /\ forall p, In p (paths_switch tree) -> NoDup p.
Proof.
  intros Hv.
  destruct (build_switch_valid opt l Hv) as (children & Hb & Hf).
  eexists. split; [exact Hb|]. split.
  - apply (generate_switch_renders opt); [now split|exact Hb].
  - intros p Hp. now apply (paths_switch_valid opt l children p Hf).
Qed.

Lemma no_column_tested_twice_witness :
  exists tree,
    build_switch (main_opt []) corpus_A = Ok tree
    /\ generate_switch corpus_A (main_opt [])
       = (Ok tt, emit (main_opt []) (render_switch (indent_level (main_opt [])) tree))
    /\ forall p, In p (paths_switch tree) -> NoDup p.
Proof.
  apply (no_column_tested_twice (main_opt []) corpus_A). exact corpus_A_valid.
Defined.

(** C4 fails as stated: the two orders of one corpus give different
    output. *)
Lemma output_depends_on_order :
  Permutation corpus_D corpus_D'
  /\ contents (snd (main [] corpus_D)) <> contents (snd (main [] corpus_D')).
Proof.
  split; [apply perm_swap|]. vm_compute. discriminate.
Qed.

(** C4, amended: listing the same pairs in another order changes the
    header comment, which names the words in the order of the list, and
    nothing else: what follows the header is the same, chunk by chunk. *)
Theorem output_same_after_header (opt : Opt) (l l' : list item) :
  valid_corpus l -> Permutation l l' ->
  exists dispatch,
    generate_switch l opt
    = (Ok tt, emit opt (render_header (indent_level opt) (map snd l) ++ dispatch))
    /\ generate_switch l' opt
       = (Ok tt, emit opt (render_header (indent_level opt) (map snd l') ++ dispatch)).
Proof.
  intros Hv Hp.
  destruct (build_switch_perm opt l l' Hv Hp) as (use_if & children & Hb & Hb').
  exists (render_dispatch (indent_level opt)
            (LengthDispatch (map snd l) use_if children)).
  split.
  - now rewrite (generate_switch_renders opt l opt _ (conj eq_refl eq_refl) Hb).
  - now rewrite (generate_switch_renders opt l' opt _ (conj eq_refl eq_refl) Hb').
Qed.

Lemma output_same_after_header_witness :
  exists dispatch,
    generate_switch corpus_D (main_opt [])
    = (Ok tt, emit (main_opt [])
                (render_header (indent_level (main_opt [])) (map snd corpus_D)
                 ++ dispatch))
    /\ generate_switch corpus_D' (main_opt [])
       = (Ok tt, emit (main_opt [])
                   (render_header (indent_level (main_opt [])) (map snd corpus_D')
                    ++ dispatch)).
Proof.
  apply (output_same_after_header (main_opt []) corpus_D corpus_D');
    [exact corpus_D_valid|apply perm_swap].
Defined.




(** C6: the length dispatch lists the lengths of the corpus in strictly
    ascending order, as a chain of [if (JSRW_LENGTH() == n)] exactly when
    there are fewer than 3 distinct lengths and as a switch otherwise. *)
Theorem length_dispatch_ascending (opt : Opt) (l : list item) :
  valid_corpus l ->
  use_if_threshold opt = 3 ->
  exists tree,
    build_switch opt l = Ok tree
    /\ generate_switch l opt
       = (Ok tt, emit opt (render_switch (indent_level opt) tree))
    /\ StronglySorted lt (map fst (length_children tree))
    /\ (forall len, In len (map fst (length_children tree))
                    <-> exists it, In it l /\ word_length it = len)
    /\ length_use_if tree
       = (length (nodup Nat.eq_dec (map word_length l)) <? 3).
Proof.
  intros Hv Ht.
  destruct (build_switch_valid opt l Hv) as (children & Hb & Hf).
  eexists. split; [exact Hb|]. split.
  - apply (generate_switch_renders opt); [now split|exact Hb].
  - cbn [length_children length_use_if].
    rewrite (Forall2_map_fst
               (fun len t => node_ok opt len (length_group l len) (range 0 len) t)
               _ _ Hf).
    split; [apply length_keys_ascending|].
    split; [apply length_keys_In|].
    now rewrite length_keys_count, Ht.
Qed.

Lemma length_dispatch_ascending_witness :
  exists tree,
    build_switch (main_opt []) corpus_A = Ok tree
    /\ generate_switch corpus_A (main_opt [])
       = (Ok tt, emit (main_opt []) (render_switch (indent_level (main_opt [])) tree))
    /\ StronglySorted lt (map fst (length_children tree))
    /\ (forall len, In len (map fst (length_children tree))
                    <-> exists it, In it corpus_A /\ word_length it = len)
    /\ length_use_if tree
       = (length (nodup Nat.eq_dec (map word_length corpus_A)) <? 3).
Proof.
  apply (length_dispatch_ascending (main_opt []) corpus_A);
    [exact corpus_A_valid|reflexivity].
Defined.

(** C7: when no unprocessed column has span 1, [optimal_switch_column]
    returns the first column of least count, as an if-chain, when that
    count is at most 3, and the first column of least span, as a switch,
    otherwise. *)
Theorem optimal_switch_column_least (opt : Opt) (l : list item)
    (columns : list nat) (n : nat) :
  use_if_threshold opt = 3 ->
  l <> [] -> 0 < n ->
  (forall i, i < n -> scannable l columns i) ->
  (forall i, i < n -> span_at l columns i <> 1%Z) ->
  exists kc ks,
    first_min (count_at l columns) n kc
    /\ first_min (span_at l columns) n ks
    /\ optimal_switch_column opt l columns n
       = Ok (if (count_at l columns kc <=? 3)%Z then (kc, true) else (ks, false)).
Proof.
  intros Ht Hne Hn Hscan Hspan.
  destruct (optimal_switch_column_total opt l columns n Hne Hn Hscan)
    as (k & use_if & Hosc).
  destruct (optimal_switch_column_inv _ _ _ _ _ _ Hosc)
    as (_ & _ & [(_ & _ & i & Hi & Hsp & _)|(_ & kc & ks & Hkc & Hks & E)]).
  - exfalso. now apply (Hspan i Hi).
  - exists kc, ks. split; [exact Hkc|]. split; [exact Hks|].
    rewrite Hosc, E, Ht. reflexivity.
Qed.

Lemma optimal_switch_column_least_witness :
  exists kc ks,
    first_min (count_at corpus_B (range 0 4)) 4 kc
    /\ first_min (span_at corpus_B (range 0 4)) 4 ks
    /\ optimal_switch_column (main_opt []) corpus_B (range 0 4) 4
       = Ok (if (count_at corpus_B (range 0 4) kc <=? 3)%Z
             then (kc, true) else (ks, false)).
Proof.
  apply (optimal_switch_column_least (main_opt []) corpus_B (range 0 4) 4).
  - reflexivity.
  - discriminate.
  - lia.
  - intros i Hi. split; [simpl; lia|].
    intros it Hit.
    assert (Hc : column_of (range 0 4) i < 4).
    { do 4 (destruct i as [|i]; [cbn; lia|]). lia. }
    assert (Hw : word_length it = 4) by (cbn in Hit; intuition (subst; reflexivity)).
    unfold word_length in Hw. rewrite Hw. exact Hc.
  - intros i Hi. do 4 (destruct i as [|i]; [vm_compute; discriminate|]). lia.
Defined.

(** C8 fails as stated: the header written for [(7, "do")] is these four
    lines, and they are also the header of [(8, "do")]; the index is not
    in it. *)
Lemma header_leaves_indices_out :
  firstn 4 (output (snd (main [] [(7%Z, "do")])))
  = [line_at 1 "/*";
     line_at 1 " * Generating switch for the list of 1 entries:";
     line_at 1 " * do";
     line_at 1 " */"]
  /\ firstn 4 (output (snd (main [] [(8%Z, "do")])))
     = firstn 4 (output (snd (main [] [(7%Z, "do")]))).
Proof. split; vm_compute; reflexivity. Qed.

(** C8, amended: the output of [generate_switch] begins with a header
    comment that gives the number of entries and then every word of the
    list, one per line, in the order of the list; the indices are not
    written. *)
Theorem output_begins_with_header (opt : Opt) (l : list item) :
  l <> [] ->
  exists rest,
    output (snd (generate_switch l opt))
    = output opt
      ++ [line_at (indent_level opt) "/*";
          line_at (indent_level opt)
            (fmt [" * Generating switch for the list of ";
                  str_of_nat (length l); " entries:"])]
      ++ map (fun '(index, word) => line_at (indent_level opt) (fmt [" * "; word])) l
      ++ [line_at (indent_level opt) " */"]
      ++ rest.
Proof.
  intros Hne. unfold generate_switch.
  rewrite (nonempty_assert _ Hne).
  unfold gbind at 1; cbn [lift assert].
  unfold gbind at 1; rewrite line_run.
  unfold gbind at 1; rewrite line_run.
  unfold gbind at 1; rewrite header_words_run.
  unfold gbind at 1; rewrite line_run.
  rewrite !emit_emit. cbn [indent_level emit].
  match goal with |- context [?m (emit opt ?hdr)] =>
    assert (Ha : appends m); [|destruct (Ha (emit opt hdr)) as [rest Hrest]]
  end.
  { apply appends_bind; [apply appends_lift|intros lpl].
    apply appends_bind; [apply appends_get_opt|intros o].
    apply appends_bind; [apply appends_if; [apply appends_line|apply appends_ret]|intros _].
    apply appends_bind.
    - apply appends_for_each. intros [len g].
      apply appends_bind; [apply appends_if; apply appends_line|intros _].
      apply appends_bind; [apply appends_indent|intros _].
      apply appends_bind; [apply appends_generate_letter_switch|intros _].
      apply appends_bind; [apply appends_dedent|intros _].
      apply appends_if; [apply appends_line|apply appends_ret].
    - intros _. repeat appends_step. }
  exists rest. rewrite Hrest. cbn [output emit].
  rewrite map_map. rewrite <- !app_assoc. cbn [app].
  do 3 f_equal. f_equal.
  apply map_ext. now intros [index word].
Qed.

Lemma output_begins_with_header_witness :
  exists rest,
    output (snd (generate_switch corpus_A (main_opt [])))
    = output (main_opt [])
      ++ [line_at (indent_level (main_opt [])) "/*";
          line_at (indent_level (main_opt []))
            (fmt [" * Generating switch for the list of ";
                  str_of_nat (length corpus_A); " entries:"])]
      ++ map (fun '(index, word) =>
                line_at (indent_level (main_opt [])) (fmt [" * "; word])) corpus_A
      ++ [line_at (indent_level (main_opt [])) " */"]
      ++ rest.
Proof.
  apply (output_begins_with_header (main_opt []) corpus_A). discriminate.
Defined.

(** C9: on an empty list [generate_switch] raises before it writes. *)
Theorem generate_switch_empty (opt : Opt) :
  generate_switch [] opt = (Raise AssertionError, opt).
Proof. reflexivity. Qed.

(** C10: for at least two pairwise distinct words of one length that
    agree on every column outside [columns[0..n-1]], the position
    [optimal_switch_column] returns is below [n], and [columns] has an
    entry there, which belongs to the window; the function does return
    when every window column is a column of the words. *)
Theorem optimal_switch_column_index_in_window (opt : Opt) (l : list item)
    (columns : list nat) (n L : nat) :
  2 <= length l ->
  NoDup (map snd l) ->
  (forall it, In it l -> word_length it = L) ->
  1 <= n ->
  (forall p, p < L -> ~ In p (firstn n columns) -> shared_column l p) ->
  (forall k use_if,
      optimal_switch_column opt l columns n = Ok (k, use_if) ->
      k < n
      /\ exists c, getitem columns k = Ok c /\ In c (firstn n columns))
  /\ ((forall i, i < n -> scannable l columns i) ->
      exists k use_if, optimal_switch_column opt l columns n = Ok (k, use_if)).
Proof.
  intros Hlen Hd Hl Hn Hagree. split.
  - intros k use_if Hosc.
    destruct (optimal_switch_column_in_window _ _ _ _ L _ _ Hlen Hd Hl Hagree Hosc)
      as [Hk Hkl].
    split; [exact Hk|]. exists (nth k columns 0).
    split; [now apply getitem_nth|].
    replace (nth k columns 0) with (nth k (firstn n columns) 0).
    + apply nth_In. rewrite length_firstn. lia.
    + rewrite nth_firstn. destruct (Nat.ltb_spec k n); [reflexivity|lia].
  - intros Hscan. apply optimal_switch_column_total; [|lia|exact Hscan].
    destruct l; [simpl in Hlen; lia|discriminate].
Qed.

Lemma optimal_switch_column_index_in_window_witness :
  (forall k use_if,
      optimal_switch_column (main_opt []) corpus_C [0; 1] 2 = Ok (k, use_if) ->
      k < 2 /\ exists c, getitem [0; 1] k = Ok c /\ In c (firstn 2 [0; 1]))
  /\ ((forall i, i < 2 -> scannable corpus_C [0; 1] i) ->
      exists k use_if,
        optimal_switch_column (main_opt []) corpus_C [0; 1] 2 = Ok (k, use_if)).
Proof.
  apply (optimal_switch_column_index_in_window (main_opt []) corpus_C [0; 1] 2 2).
  - simpl; lia.
  - cbn. repeat constructor; cbn; intuition discriminate.
  - intros it Hit. cbn in Hit. intuition (subst; reflexivity).
  - lia.
  - intros p Hp Hout. exfalso. apply Hout. cbn. lia.
Defined.

(** * Further properties of the generator *)

(** ** Induction on the tree a group of words is given *)

Lemma map_result_keys_inv {K X Y : Type} (G : K -> X) (f : K -> X -> Result Y)
    (keys : list K) (children : list (K * Y)) :
  map_result (fun '(c, g) => let* t := f c g in Ok (c, t))
    (map (fun c => (c, G c)) keys) = Ok children ->
  Forall2 (fun c ct => fst ct = c /\ f c (G c) = Ok (snd ct)) keys children.
Proof.
  revert children; induction keys as [|c keys IH]; intros children H.
  - cbn in H. inversion H. constructor.
  - cbn [map map_result] in H.
    destruct (f c (G c)) as [t|e] eqn:Ef; cbn [bind] in H; [|discriminate].
    destruct (map_result _ _) as [cs|e] eqn:Em; cbn [bind] in H; [|discriminate].
    inversion H; subst. constructor; [now split|now apply IH].
Qed.

Lemma Forall2_keys_impl {K T} (Q Q' : K -> T -> Prop) keys (children : list (K * T)) :
  Forall2 (fun c ct => fst ct = c /\ Q c (snd ct)) keys children ->
  (forall c t, In c keys -> Q c t -> Q' c t) ->
  Forall2 (fun c ct => fst ct = c /\ Q' c (snd ct)) keys children.
Proof.
  induction 1 as [|c ct keys children [E Hq] _ IH]; intros H; constructor.
  - split; [exact E|]. apply H; [now left|exact Hq].
  - apply IH. intros; apply H; [now right|assumption].
Qed.

Section BuiltInduction.
Variables (opt : Opt) (L : nat).
Variable P : nat -> list item -> list nat -> DecisionNode -> Prop.

Hypothesis P_match : forall index word columns,
  node_inv L 0 [(index, word)] columns ->
  P 0 [(index, word)] columns (LeafMatch index word).

Hypothesis P_guess : forall n index word columns,
  node_inv L n [(index, word)] columns ->
  char_tail_test_threshold opt < n ->
  P n [(index, word)] columns (LeafGuessMatch index word).

Hypothesis P_tail : forall n index word columns,
  node_inv L n [(index, word)] columns ->
  0 < n -> n <= char_tail_test_threshold opt ->
  P n [(index, word)] columns
    (TailTest (map (fun c => (c, char_of c (index, word))) (firstn n columns))
       index word).

Hypothesis P_dispatch : forall n l columns columns' k use_if children,
  node_inv L (S n) l columns ->
  2 <= length l ->
  optimal_switch_column opt l columns (S n) = Ok (k, use_if) ->
  k < S n ->
  length columns' = length columns ->
  (forall j, nth j columns' 0 = if j =? k then nth n columns 0 else nth j columns 0) ->
  Forall2 (fun c ct =>
             fst ct = c
             /\ P n (group_of ord (char_of (nth k columns 0)) l c) columns' (snd ct))
    (sorted_keys ord (char_of (nth k columns 0)) l) children ->
  P (S n) l columns (ColumnDispatch (nth k columns 0) use_if children).

Lemma built_leaf_ind n index word columns0 columns t :
  default_columns columns0 n = columns ->
  node_inv L n [(index, word)] columns ->
  build_letter_switch opt n [(index, word)] columns0 = Ok t ->
  P n [(index, word)] columns t.
Proof.
  intros Hd Hinv Hb. assert (Hinv' := Hinv).
  destruct Hinv' as [Hne Hlen Hdis Hn Hnd Hrange Hagree].
  assert (Hw : forall c, In c (firstn n columns) -> c < word_length (index, word)).
  { intros c Hc. rewrite (Hlen (index, word)) by now left. now apply Hrange. }
  destruct n as [|n].
  - cbn in Hb. inversion Hb; subst. now apply P_match.
  - cbn [build_letter_switch length Nat.eqb negb assert bind getitem nth_error] in Hb.
    rewrite Hd in Hb.
    destruct (Nat.ltb_spec (char_tail_test_threshold opt) (S n)).
    + inversion Hb; subst. now apply P_guess.
    + pose proof (tail_tests_ok (index, word) _ Hw) as Ht. cbn [snd] in Ht.
      rewrite Ht in Hb. cbn [bind] in Hb. inversion Hb; subst t.
      apply P_tail; [exact Hinv|lia|lia].
Qed.

Theorem built_tree_ind n :
  forall l columns0 columns t,
    default_columns columns0 n = columns ->
    node_inv L n l columns ->
    build_letter_switch opt n l columns0 = Ok t ->
    P n l columns t.
Proof.
  induction n as [|n IH]; intros l columns0 columns t Hd Hinv Hb.
  - destruct (length l =? 1) eqn:E1.
    + apply length_one in E1 as [[index word] ->]. now apply (built_leaf_ind 0 _ _ columns0).
    + exfalso. destruct Hinv as [Hne Hlen Hdis Hn Hnd Hrange Hagree].
      apply (distinct_words_differ l L); auto using length_two.
  - destruct (length l =? 1) eqn:E1.
    + apply length_one in E1 as [[index word] ->].
      now apply (built_leaf_ind (S n) _ _ columns0).
    + assert (Hinv' := Hinv).
      destruct Hinv' as [Hne Hlen Hdis Hn Hnd Hrange Hagree].
      assert (H2 := length_two l Hne E1).
      assert (Hscan : forall i, i < S n -> scannable l columns i).
      { intros i Hi. split; [lia|]. intros it Hit.
        change (column_of columns i < word_length it).
        rewrite (Hlen it Hit). apply Hrange.
        apply (proj2 (in_window _ _ _ Hn)). exists i. split; [exact Hi|reflexivity]. }
      destruct (optimal_switch_column_total opt l columns (S n) Hne ltac:(lia) Hscan)
        as (k & use_if & Hosc).
      destruct (optimal_switch_column_in_window _ _ _ _ L _ _ H2 Hdis Hlen Hagree Hosc)
        as [Hk Hkl].
      destruct (setitem_spec columns k (nth n columns 0) Hkl)
        as (columns' & Hset & Hl' & Hnth).
      assert (Hcol : column_in_range l (nth k columns 0)) by (apply (Hscan k Hk)).
      cbn [build_letter_switch] in Hb.
      rewrite (nonempty_assert _ Hne), E1, Hd in Hb.
      cbn [assert bind] in Hb. rewrite Hosc in Hb. cbn [bind] in Hb.
      rewrite (getitem_nth _ _ Hkl) in Hb. cbn [bind] in Hb.
      replace (S n - 1) with n in Hb by lia.
      rewrite (getitem_nth columns n) in Hb by lia. cbn [bind] in Hb.
      rewrite Hset in Hb. cbn [bind] in Hb.
      rewrite (split_list_per_column_spec _ _ Hne Hcol) in Hb. cbn [bind] in Hb.
      destruct (map_result _ _) as [children|e] eqn:Hm; cbn [bind] in Hb; [|discriminate].
      inversion Hb; subst t; clear Hb.
      apply (map_result_keys_inv
               (fun c => group_of ord (char_of (nth k columns 0)) l c)
               (fun (_ : ascii) g => build_letter_switch opt n g (Some columns'))) in Hm.
      apply (P_dispatch n l columns columns' k use_if children); auto.
      apply (Forall2_keys_impl
               (fun c t => build_letter_switch opt n
                             (group_of ord (char_of (nth k columns 0)) l c)
                             (Some columns') = Ok t)
               (fun c t => P n (group_of ord (char_of (nth k columns 0)) l c)
                             columns' t)
               _ _ Hm).
      intros c t Hc Ht. apply (IH _ (Some columns') columns' t); [| |exact Ht].
      * apply default_columns_some. destruct columns'; [simpl in Hl'; lia|discriminate].
      * now apply (node_inv_group L n l columns columns' k c).
Qed.
End BuiltInduction.

(** ** Running the procedure on any string *)

Lemma first_branch_none {K T R : Type} (test : K -> bool) (body : T -> R)
    (default : R) (children : list (K * T)) :
  (forall c, In c (map fst children) -> test c = false) ->
  first_branch test body default children = default.
Proof.
  induction children as [|[c t] children IH]; intros H; [reflexivity|].
  cbn [first_branch]. rewrite (H c) by now left.
  apply IH. intros; apply H; now right.
Qed.

Lemma at_is_get (s : string) (column : nat) (c : ascii) :
  at_is s column c = true <-> String.get column s = Some c.
Proof.
  unfold at_is. destruct (String.get column s) as [x|].
  - rewrite Ascii.eqb_eq. split; congruence.
  - split; discriminate.
Qed.

(** The conjunction of a tail test, on any string. *)
Lemma run_tests_any (w s : string) (index : Z) (cols : list nat) :
  NoDup cols ->
  (forall c, In c cols -> c < String.length w) ->
  let r := run_tests (map (fun c => (c, char_of c (index, w))) cols) index s in
  NoDup (fst r) /\ incl (fst r) cols
  /\ match snd r with
     | GOT_MATCH i => i = index /\ forall c, In c cols -> String.get c s = String.get c w
     | TEST_GUESS _ => False
     | NO_MATCH => exists c, In c cols /\ String.get c s <> String.get c w
     end.
Proof.
  induction cols as [|c cols IH]; intros Hnd Hr; cbn [map run_tests].
  - cbn. repeat split; [constructor|intros ? []|intros ? []].
  - inversion Hnd as [|? ? Hni Hnd']; subst.
    assert (Hc : String.get c w = Some (char_of c (index, w))).
    { apply (get_char_of c (index, w)). apply Hr. now left. }
    destruct (at_is s c (char_of c (index, w))) eqn:E.
    + apply at_is_get in E.
      destruct (IH Hnd' (fun x Hx => Hr x (or_intror Hx))) as (N & I & O).
      unfold reading. cbn [fst snd].
      split; [constructor; [intros Hin; apply Hni, I, Hin|exact N]|].
      split; [intros x [<-|Hx]; [now left|right; now apply I]|].
      destruct (snd (run_tests _ index s)) as [i| |].
      * destruct O as [-> O]. split; [reflexivity|].
        intros x [<-|Hx]; [congruence|now apply O].
      * exact O.
      * destruct O as (x & Hx & Hne). exists x. split; [now right|exact Hne].
    + cbn [fst snd]. split; [repeat constructor; intros []|].
      split; [intros x [<-|[]]; now left|].
      exists c. split; [now left|]. intros Eq.
      assert (at_is s c (char_of c (index, w)) = true)
        by (apply at_is_get; congruence).
      congruence.
Qed.

Lemma agree_everywhere_eq (s w : string) (L : nat) :
  String.length s = L -> String.length w = L ->
  (forall p, p < L -> String.get p s = String.get p w) -> s = w.
Proof.
  intros Hs Hw H. apply string_ext; [congruence|].
  intros p Hp. apply H. lia.
Qed.

Section RunAny.
Variables (opt : Opt) (L : nat).
Local Abbreviation sound_node := (sound_node opt L).

Lemma sound_match index word columns :
  node_inv L 0 [(index, word)] columns ->
  sound_node 0 [(index, word)] columns (LeafMatch index word).
Proof.
  intros [Hne Hlen Hdis Hn Hnd Hrange Hagree] s Hs Ha.
  cbn. split; [constructor|]. split; [intros ? []|].
  left. f_equal. symmetry.
  apply (agree_everywhere_eq s word L Hs (Hlen (index, word) (or_introl eq_refl))).
  intros p Hp. apply (Ha p Hp (fun H => H) (index, word)). now left.
Qed.

Lemma sound_guess n index word columns :
  node_inv L n [(index, word)] columns ->
  char_tail_test_threshold opt < n ->
  sound_node n [(index, word)] columns (LeafGuessMatch index word).
Proof.
  intros _ Ht s Hs Ha. cbn.
  split; [constructor|]. split; [intros ? []|].
  exists word. split; [now left|]. split; [intros ? []|]. cbn. lia.
Qed.

Lemma sound_tail n index word columns :
  node_inv L n [(index, word)] columns ->
  0 < n -> n <= char_tail_test_threshold opt ->
  sound_node n [(index, word)] columns
    (TailTest (map (fun c => (c, char_of c (index, word))) (firstn n columns))
       index word).
Proof.
  intros [Hne Hlen Hdis Hn Hnd Hrange Hagree] _ _ s Hs Ha.
  assert (Hw : String.length word = L) by (apply (Hlen (index, word)); now left).
  cbn [run_node].
  destruct (run_tests_any word s index (firstn n columns) Hnd) as (N & I & O).
  { intros c Hc. rewrite Hw. now apply Hrange. }
  split; [exact N|]. split; [exact I|].
  destruct (snd (run_tests _ index s)) as [i| |].
  - destruct O as [-> O]. left. f_equal. symmetry.
    apply (agree_everywhere_eq s word L Hs Hw). intros p Hp.
    destruct (in_dec Nat.eq_dec p (firstn n columns)) as [Hin|Hout];
      [now apply O|].
    apply (Ha p Hp Hout (index, word)). now left.
  - contradiction.
  - destruct O as (c & Hc & Hne'). intros i [E|[]]. inversion E; subst.
    now apply Hne'.
Qed.

Lemma sound_dispatch n l columns columns' k use_if children :
  node_inv L (S n) l columns ->
  2 <= length l ->
  optimal_switch_column opt l columns (S n) = Ok (k, use_if) ->
  k < S n ->
  length columns' = length columns ->
  (forall j, nth j columns' 0 = if j =? k then nth n columns 0 else nth j columns 0) ->
  Forall2 (fun c ct =>
             fst ct = c
             /\ sound_node n (group_of ord (char_of (nth k columns 0)) l c)
                  columns' (snd ct))
    (sorted_keys ord (char_of (nth k columns 0)) l) children ->
  sound_node (S n) l columns (ColumnDispatch (nth k columns 0) use_if children).
Proof.
  intros [Hne Hlen Hdis Hn Hnd Hrange Hagree] _ _ Hk Hl' Hnth Hf s Hs Ha.
  set (col := nth k columns 0) in *.
  assert (Hext := fun p => extend_path columns columns' n k p Hk Hn Hnd Hl' Hnth).
  fold col in Hext.
  assert (Hrem := window_remove columns columns' n k Hk Hn Hnd Hl' Hnth).
  fold col in Hrem.
  assert (Hcolw : In col (firstn (S n) columns)).
  { apply (proj2 (in_window _ _ _ Hn)). exists k. split; [exact Hk|reflexivity]. }
  assert (HcolL : col < L) by now apply Hrange.
  assert (Hgs : String.get col s = Some (char_of col (0%Z, s))).
  { apply (get_char_of col (0%Z, s)). unfold word_length; cbn [snd]. lia. }
  set (ch := char_of col (0%Z, s)) in *.
  assert (Hitem : forall it, In it l -> String.get col (snd it) = Some (char_of col it)).
  { intros it Hit. apply get_char_of. rewrite (Hlen it Hit). exact HcolL. }
  assert (Hsame : forall i, In (i, s) l -> char_of col (i, s) = ch).
  { intros i Hi. specialize (Hitem _ Hi). cbn [snd] in Hitem. congruence. }
  cbn [run_node].
  destruct (in_dec ascii_dec ch (sorted_keys ord (char_of col) l)) as [Hin|Hout].
  - destruct (first_branch_key
                (fun c t => sound_node n (group_of ord (char_of col) l c) columns' t)
                (at_is s col) (fun child => run_node child s) ([], NO_MATCH)
                _ _ _ Hf Hin (proj2 (at_is_get s col ch) Hgs))
      as (t & Hsound & Hfb).
    { intros c' _ Hc'. apply at_is_get in Hc'. congruence. }
    rewrite Hfb.
    assert (Hgrp : forall it, In it (group_of ord (char_of col) l ch) ->
                              In it l /\ char_of col it = ch).
    { intros it Hit. apply filter_In in Hit as [Hit E].
      split; [exact Hit|]. apply Nat.eqb_eq in E. now apply ord_inj. }
    destruct (Hsound s Hs) as (N & I & O).
    { intros p Hp Hout it Hit. destruct (Hgrp it Hit) as [Hitl Hch].
      destruct (Nat.eq_dec p col) as [->|Hpc].
      - rewrite (Hitem it Hitl), Hch. exact Hgs.
      - apply (Ha p Hp); [|exact Hitl].
        intros Hw. apply Hout. apply Hrem. now split. }
    destruct (Hext _ N I) as [N2 I2].
    unfold run_sound, reading. cbn [fst snd].
    split; [exact N2|]. split; [exact I2|].
    destruct (snd (run_node t s)) as [i|i|].
    + now apply Hgrp in O.
    + destruct O as (w & Hw & Hread & Hleft). exists w.
      destruct (Hgrp _ Hw) as [Hwl Hwc].
      split; [exact Hwl|]. split.
      * intros c [<-|Hc]; [|now apply Hread].
        specialize (Hitem _ Hwl). cbn [snd] in Hitem. congruence.
      * cbn [length]. lia.
    + intros i Hi. apply (O i). apply filter_In. split; [exact Hi|].
      apply Nat.eqb_eq. now rewrite (Hsame i Hi).
  - rewrite first_branch_none.
    + unfold run_sound, reading. cbn [fst snd].
      split; [repeat constructor; intros []|].
      split; [intros c [<-|[]]; exact Hcolw|].
      intros i Hi. apply Hout.
      destruct (sorted_keys_complete ord (char_of col) l _ Hi) as (c & Hc & E).
      apply ord_inj in E. rewrite <- (Hsame i Hi). now subst c.
    + intros c Hc.
      rewrite (Forall2_map_fst
                 (fun c t => sound_node n (group_of ord (char_of col) l c) columns' t)
                 _ _ Hf) in Hc.
      destruct (at_is s col c) eqn:E; [|reflexivity].
      apply at_is_get in E. exfalso. apply Hout. congruence.
Qed.

Lemma run_node_sound n l columns0 columns t :
  default_columns columns0 n = columns ->
  node_inv L n l columns ->
  build_letter_switch opt n l columns0 = Ok t ->
  sound_node n l columns t.
Proof.
  apply (built_tree_ind opt L sound_node).
  - exact sound_match.
  - exact sound_guess.
  - exact sound_tail.
  - exact sound_dispatch.
Qed.
End RunAny.

(** The children of the length dispatch are the trees of the length
    groups. *)
Lemma build_switch_children opt l tree :
  valid_corpus l ->
  build_switch opt l = Ok tree ->
  Forall2 (fun len ct =>
             fst ct = len
             /\ build_letter_switch opt len (length_group l len) None = Ok (snd ct))
    (length_keys l) (length_children tree).
Proof.
  intros [Hne Hd] Hb. unfold build_switch in Hb.
  rewrite (nonempty_assert _ Hne) in Hb. cbn [assert bind] in Hb.
  rewrite (split_list_per_length_spec _ Hne) in Hb. cbn [bind] in Hb.
  destruct (map_result _ _) as [children|e] eqn:Hm; cbn [bind] in Hb; [|discriminate].
  inversion Hb; subst tree. cbn [length_children].
  exact (map_result_keys_inv
           (fun len => group_of (fun k : nat => k) word_length l len)
           (fun len g => build_letter_switch opt len g None) _ _ Hm).
Qed.

(** A run of the whole procedure on any string. *)
Lemma run_switch_sound opt l tree s :
  valid_corpus l ->
  build_switch opt l = Ok tree ->
  (In (String.length s) (length_keys l)
   /\ run_sound opt (String.length s) (range 0 (String.length s))
        (length_group l (String.length s)) s (run_switch tree s))
  \/ (~ In (String.length s) (length_keys l)
      /\ run_switch tree s = ([], NO_MATCH)).
Proof.
  intros Hv Hb. assert (Hf := build_switch_children opt l tree Hv Hb).
  destruct Hv as [Hne Hd]. unfold run_switch, run_length_children.
  destruct (in_dec Nat.eq_dec (String.length s) (length_keys l)) as [Hin|Hout].
  - left. split; [exact Hin|].
    destruct (first_branch_key
                (fun len t => build_letter_switch opt len (length_group l len) None = Ok t)
                (Nat.eqb (String.length s))
                (fun child => run_node child s) ([], NO_MATCH)
                _ _ _ Hf Hin (Nat.eqb_refl _))
      as (t & Hbt & Hfb).
    { intros len' _ E. apply Nat.eqb_eq in E. now symmetry. }
    rewrite Hfb.
    apply (run_node_sound opt (String.length s) (String.length s)
             (length_group l (String.length s)) None (range 0 (String.length s)) t
             eq_refl (node_inv_length_group l _ Hd Hin) Hbt s eq_refl).
    intros p Hp Hw. exfalso. apply Hw. unfold range.
    rewrite firstn_all2 by (rewrite length_seq; lia). apply in_seq. lia.
  - right. split; [exact Hout|].
    apply first_branch_none. intros len Hlen.
    rewrite (Forall2_map_fst
               (fun len t => build_letter_switch opt len (length_group l len) None = Ok t)
               _ _ Hf) in Hlen.
    apply Nat.eqb_neq. intros E. apply Hout. now rewrite E.
Qed.

Lemma length_group_In l len it :
  In it (length_group l len) <-> In it l /\ word_length it = len.
Proof.
  unfold length_group, group_of. rewrite filter_In, Nat.eqb_eq. reflexivity.
Qed.

Lemma range_window_bound n c : In c (firstn n (range 0 n)) -> c < n.
Proof.
  unfold range. rewrite firstn_all2 by (rewrite length_seq; lia).
  intros H. apply in_seq in H. lia.
Qed.

Lemma valid_switch_renders opt l :
  valid_corpus l ->
  exists tree,
    build_switch opt l = Ok tree
    /\ generate_switch l opt
       = (Ok tt, emit opt (render_switch (indent_level opt) tree)).
Proof.
  intros Hv. destruct (build_switch_valid opt l Hv) as (children & Hb & _).
  eexists. split; [exact Hb|].
  apply (generate_switch_renders opt); [now split|exact Hb].
Qed.

(** X13: [JSRW_GOT_MATCH(i)] is exact: the procedure written for a valid
    corpus accepts a string as word [i] only if the string is word [i]. *)
Theorem got_match_is_exact (opt : Opt) (l : list item) :
  valid_corpus l ->
  exists tree,
    build_switch opt l = Ok tree
    /\ generate_switch l opt
       = (Ok tt, emit opt (render_switch (indent_level opt) tree))
    /\ forall s index,
         snd (run_switch tree s) = GOT_MATCH index -> In (index, s) l.
Proof.
  intros Hv. destruct (valid_switch_renders opt l Hv) as (tree & Hb & Hg).
  exists tree. split; [exact Hb|]. split; [exact Hg|].
  intros s index Hr.
  destruct (run_switch_sound opt l tree s Hv Hb) as [(_ & _ & _ & O)|[_ E]].
  - rewrite Hr in O. now apply length_group_In in O.
  - rewrite E in Hr. discriminate.
Qed.

Lemma got_match_is_exact_witness :
  exists tree,
    build_switch (main_opt []) corpus_A = Ok tree
    /\ generate_switch corpus_A (main_opt [])
       = (Ok tt, emit (main_opt []) (render_switch (indent_level (main_opt [])) tree))
    /\ forall s index,
         snd (run_switch tree s) = GOT_MATCH index -> In (index, s) corpus_A.
Proof.
  apply (got_match_is_exact (main_opt []) corpus_A). exact corpus_A_valid.
Defined.



(** X15: a string whose length no word of the corpus has is rejected
    without a character being read. *)
Theorem unknown_length_is_rejected (opt : Opt) (l : list item) :
  valid_corpus l ->
  exists tree,
    build_switch opt l = Ok tree
    /\ generate_switch l opt
       = (Ok tt, emit opt (render_switch (indent_level opt) tree))
    /\ forall s,
         (forall it, In it l -> word_length it <> String.length s) ->
         run_switch tree s = ([], NO_MATCH).
Proof.
  intros Hv. destruct (valid_switch_renders opt l Hv) as (tree & Hb & Hg).
  exists tree. split; [exact Hb|]. split; [exact Hg|].
  intros s Hs.
  destruct (run_switch_sound opt l tree s Hv Hb) as [(Hin & _)|[_ E]]; [|exact E].
  apply length_keys_In in Hin as (it & Hit & E). now apply Hs in Hit.
Qed.

Lemma unknown_length_is_rejected_witness :
  exists tree,
    build_switch (main_opt []) corpus_A = Ok tree
    /\ generate_switch corpus_A (main_opt [])
       = (Ok tt, emit (main_opt []) (render_switch (indent_level (main_opt [])) tree))
    /\ forall s,
         (forall it, In it corpus_A -> word_length it <> String.length s) ->
         run_switch tree s = ([], NO_MATCH).
Proof.
  apply (unknown_length_is_rejected (main_opt []) corpus_A). exact corpus_A_valid.
Defined.

(** X16: strings of at most 4 characters are decided exactly: such a
    string is accepted as word [i] if and only if it is word [i] of the
    corpus, and it is rejected otherwise; it is never guessed. *)
Theorem short_strings_decided_exactly (opt : Opt) (l : list item) :
  valid_corpus l ->
  char_tail_test_threshold opt = 4 ->
  exists tree,
    build_switch opt l = Ok tree
    /\ generate_switch l opt
       = (Ok tt, emit opt (render_switch (indent_level opt) tree))
    /\ forall s,
         String.length s <= 4 ->
         (forall index,
             snd (run_switch tree s) = GOT_MATCH index <-> In (index, s) l)
         /\ ((forall index, ~ In (index, s) l) <->
             snd (run_switch tree s) = NO_MATCH).
Proof.
  intros Hv Ht. destruct (valid_switch_renders opt l Hv) as (tree & Hb & Hg).
  exists tree. split; [exact Hb|]. split; [exact Hg|].
  intros s Hs.
  assert (Hcases : (exists i, snd (run_switch tree s) = GOT_MATCH i /\ In (i, s) l)
                   \/ (snd (run_switch tree s) = NO_MATCH
                       /\ forall i, ~ In (i, s) l)).
  { destruct (run_switch_sound opt l tree s Hv Hb) as [(Hin & _ & _ & O)|[Hout E]].
    - destruct (snd (run_switch tree s)) as [i|i|].
      + left. exists i. split; [reflexivity|]. now apply length_group_In in O.
      + destruct O as (_ & _ & _ & Hleft). rewrite Ht in Hleft. lia.
      + right. split; [reflexivity|]. intros i Hi. apply (O i).
        apply length_group_In. now split.
    - right. rewrite E. split; [reflexivity|]. intros i Hi. apply Hout.
      apply length_keys_In. exists (i, s). now split. }
  destruct Hv as [_ Hd]. split.
  - intros index. split.
    + intros Hr. destruct Hcases as [(i & Hi & Hin)|[Hn _]]; [|congruence].
      rewrite Hr in Hi. inversion Hi; subst. exact Hin.
    + intros Hin. destruct Hcases as [(i & Hi & Hin')|[_ Hn]]; [|now apply Hn in Hin].
      rewrite Hi. f_equal.
      (* one word, one index *)
      clear - Hd Hin Hin'. induction l as [|[j w] l IH]; [contradiction|].
      cbn [map snd] in Hd. inversion Hd as [|? ? Hni Hd']; subst.
      destruct Hin as [E|Hin]; destruct Hin' as [E'|Hin'].
      * congruence.
      * inversion E; subst. exfalso. apply Hni.
        apply in_map_iff. exists (i, s). now split.
      * inversion E'; subst. exfalso. apply Hni.
        apply in_map_iff. exists (index, s). now split.
      * now apply IH.
  - split.
    + intros Hn. destruct Hcases as [(i & _ & Hin)|[E _]]; [now apply Hn in Hin|exact E].
    + intros E. destruct Hcases as [(i & Hi & _)|[_ Hn]]; [congruence|exact Hn].
Qed.

Lemma short_strings_decided_exactly_witness :
  exists tree,
    build_switch (main_opt []) corpus_A = Ok tree
    /\ generate_switch corpus_A (main_opt [])
       = (Ok tt, emit (main_opt []) (render_switch (indent_level (main_opt [])) tree))
    /\ forall s,
         String.length s <= 4 ->
         (forall index,
             snd (run_switch tree s) = GOT_MATCH index <-> In (index, s) corpus_A)
         /\ ((forall index, ~ In (index, s) corpus_A) <->
             snd (run_switch tree s) = NO_MATCH).
Proof.
  apply (short_strings_decided_exactly (main_opt []) corpus_A);
    [exact corpus_A_valid|reflexivity].
Defined.

(** ** Every evaluation of [JSRW_AT] *)

Lemma reads_tests_run tests index s :
  reads_tests tests s = fst (run_tests tests index s).
Proof.
  induction tests as [|[column c] tl IH]; [reflexivity|].
  cbn [reads_tests run_tests]. destruct (at_is s column c); [|reflexivity].
  unfold reading. cbn [fst]. now rewrite IH.
Qed.

(** The branch a chain takes does not depend on what the bodies compute. *)
Lemma first_branch_choice {K T : Type} (test : K -> bool) (cs : list (K * T)) :
  (exists k t, In (k, t) cs /\ test k = true
               /\ forall (R : Type) (body : T -> R) (default : R),
                    first_branch test body default cs = body t)
  \/ (forall (R : Type) (body : T -> R) (default : R),
        first_branch test body default cs = default).
Proof.
  induction cs as [|[k t] cs IH].
  - right. reflexivity.
  - destruct (test k) eqn:E.
    + left. exists k, t. split; [now left|]. split; [exact E|].
      intros R body default. cbn [first_branch]. now rewrite E.
    + destruct IH as [(k' & t' & Hin & Ht & H)|H].
      * left. exists k', t'. split; [now right|]. split; [exact Ht|].
        intros R body default. cbn [first_branch]. rewrite E. apply H.
      * right. intros R body default. cbn [first_branch]. rewrite E. apply H.
Qed.

(** An if-chain reads its column once for every branch it tries, then
    runs the body of the branch it takes. *)
Lemma reads_chain_blocks {T : Type} (s : string) (column : nat) (body : T -> list nat)
    (cs : list (ascii * T)) :
  exists j,
    reads_chain s column body cs
    = repeat column j ++ first_branch (at_is s column) body [] cs
    /\ j <= length cs /\ (cs <> [] -> 0 < j).
Proof.
  induction cs as [|[c t] cs (j & E & Hj & Hpos)].
  - exists 0. split; [reflexivity|]. split; [reflexivity|congruence].
  - cbn [reads_chain first_branch]. destruct (at_is s column c).
    + exists 1. split; [reflexivity|]. cbn [length]. split; lia.
    + exists (S j). rewrite E. split; [reflexivity|]. cbn [length]. split; lia.
Qed.

Lemma reads_in_runs_nodup reads : NoDup reads -> reads_in_runs reads.
Proof.
  intros Hnd a b d c E. exfalso. subst reads.
  apply NoDup_remove_2 in Hnd. apply Hnd.
  rewrite in_app_iff. right. rewrite in_app_iff. right. now left.
Qed.

Lemma reads_in_runs_cons c reads :
  reads_in_runs reads ->
  (~ In c reads \/ exists tl, reads = c :: tl) ->
  reads_in_runs (c :: reads).
Proof.
  intros Hr Hc a b d x E y Hy.
  destruct a as [|a0 a].
  - cbn [app] in E. inversion E as [[Ex Et]]. subst x.
    destruct Hc as [Hout|(tl & ->)].
    + exfalso. apply Hout. rewrite Et, in_app_iff. right. now left.
    + destruct b as [|b0 b]; [contradiction|].
      cbn [app] in Et. inversion Et as [[Eb Etl]]. subst b0.
      destruct Hy as [<-|Hy]; [reflexivity|].
      apply (Hr [] b d c); [now rewrite Etl|exact Hy].
  - cbn [app] in E. inversion E as [[Ea Et]].
    now apply (Hr a b d x).
Qed.

Lemma reads_in_runs_repeat c j reads :
  reads_in_runs reads -> ~ In c reads -> reads_in_runs (repeat c j ++ reads).
Proof.
  intros Hr Hout. induction j as [|j IH]; [exact Hr|].
  cbn [repeat app]. apply reads_in_runs_cons; [exact IH|].
  destruct j as [|j]; [now left|]. right. cbn [repeat app]. eauto.
Qed.

Lemma in_repeat_app (c : nat) j (reads : list nat) x :
  0 < j -> (In x (repeat c j ++ reads) <-> In x (c :: reads)).
Proof.
  intros Hj. rewrite in_app_iff. cbn [In]. split.
  - intros [H|H]; [left; symmetry; now apply (repeat_spec j c x)|now right].
  - intros [<-|H]; [left|now right].
    destruct j; [lia|now left].
Qed.

Section ReadsAny.
Variables (opt : Opt) (L : nat).

Lemma reads_ok_tail n index word columns :
  node_inv L n [(index, word)] columns ->
  0 < n -> n <= char_tail_test_threshold opt ->
  reads_ok n columns
    (TailTest (map (fun c => (c, char_of c (index, word))) (firstn n columns))
       index word).
Proof.
  intros [Hne Hlen Hdis Hn Hnd Hrange Hagree] _ _ s.
  assert (Hw : String.length word = L) by (apply (Hlen (index, word)); now left).
  cbn [reads_node run_node]. rewrite (reads_tests_run _ index s).
  destruct (run_tests_any word s index (firstn n columns) Hnd) as (N & I & _).
  { intros c Hc. rewrite Hw. now apply Hrange. }
  split; [exact I|]. split; [now apply reads_in_runs_nodup|reflexivity].
Qed.

Lemma reads_ok_dispatch n l columns columns' k use_if children :
  node_inv L (S n) l columns ->
  2 <= length l ->
  optimal_switch_column opt l columns (S n) = Ok (k, use_if) ->
  k < S n ->
  length columns' = length columns ->
  (forall j, nth j columns' 0 = if j =? k then nth n columns 0 else nth j columns 0) ->
  Forall2 (fun c ct =>
             fst ct = c /\ reads_ok n columns' (snd ct))
    (sorted_keys ord (char_of (nth k columns 0)) l) children ->
  reads_ok (S n) columns (ColumnDispatch (nth k columns 0) use_if children).
Proof.
  intros [Hne Hlen Hdis Hn Hnd Hrange Hagree] _ _ Hk Hl' Hnth Hf s.
  set (col := nth k columns 0) in *.
  assert (Hrem := window_remove columns columns' n k Hk Hn Hnd Hl' Hnth).
  fold col in Hrem.
  assert (Hcolw : In col (firstn (S n) columns)).
  { apply (proj2 (in_window _ _ _ Hn)). exists k. split; [exact Hk|reflexivity]. }
  assert (Hkeys := Forall2_map_fst (fun _ t => reads_ok n columns' t) _ _ Hf).
  assert (Hch : children <> []).
  { intros ->. cbn in Hkeys. destruct l as [|it l]; [congruence|].
    destruct (sorted_keys_complete ord (char_of col) (it :: l) it
                (or_introl eq_refl)) as (c & Hc & _).
    rewrite <- Hkeys in Hc. exact Hc. }
  assert (Hshape : exists j,
             0 < j
             /\ reads_node (ColumnDispatch col use_if children) s
                = repeat col j
                  ++ first_branch (at_is s col) (fun child => reads_node child s)
                       [] children).
  { cbn [reads_node]. destruct use_if.
    - destruct (reads_chain_blocks s col (fun child => reads_node child s) children)
        as (j & E & _ & Hpos).
      exists j. split; [now apply Hpos|exact E].
    - exists 1. split; [lia|reflexivity]. }
  destruct Hshape as (j & Hj & ->). cbn [run_node]. unfold reading. cbn [fst].
  destruct (first_branch_choice (at_is s col) children)
    as [(c & t & Hin & _ & Hfb)|Hfb]; rewrite !Hfb.
  - destruct (Forall2_in_r _ _ _ _ Hf Hin) as (c' & _ & _ & Hok).
    cbn [snd] in Hok. destruct (Hok s) as (I & R & S).
    assert (Hout : ~ In col (reads_node t s)).
    { intros Hc. apply I, Hrem in Hc. now destruct Hc. }
    split; [|split].
    + intros x Hx. apply (in_repeat_app col j _ x Hj) in Hx.
      destruct Hx as [<-|Hx]; [exact Hcolw|]. now apply I, Hrem in Hx.
    + now apply reads_in_runs_repeat.
    + intros x. rewrite (in_repeat_app col j _ x Hj). cbn [In]. now rewrite S.
  - rewrite app_nil_r. cbn [fst]. split; [|split].
    + intros x Hx. apply repeat_spec in Hx. now subst x.
    + intros a b d c E x Hx.
      assert (Hall : forall y, In y (repeat col j) -> y = col)
        by (intros y; apply repeat_spec).
      rewrite E in Hall.
      rewrite (Hall x), (Hall c); [reflexivity| |].
      * rewrite in_app_iff. right. now left.
      * rewrite in_app_iff. right. right. rewrite in_app_iff. now left.
    + intros x. rewrite <- (app_nil_r (repeat col j)).
      now rewrite (in_repeat_app col j [] x Hj).
Qed.

Lemma reads_node_ok n l columns0 columns t :
  default_columns columns0 n = columns ->
  node_inv L n l columns ->
  build_letter_switch opt n l columns0 = Ok t ->
  reads_ok n columns t.
Proof.
  apply (built_tree_ind opt L (fun n _ columns t => reads_ok n columns t)).
  - intros index word cols _ s. cbn.
    split; [intros ? []|]. split; [now apply reads_in_runs_nodup, NoDup_nil|reflexivity].
  - intros n0 index word cols _ _ s. cbn.
    split; [intros ? []|]. split; [now apply reads_in_runs_nodup, NoDup_nil|reflexivity].
  - exact reads_ok_tail.
  - exact reads_ok_dispatch.
Qed.
End ReadsAny.

(** X17: on any string the procedure applies [JSRW_AT] only to positions
    below the length of the string.  An if-chain evaluates its column
    again for every branch it tries, so a position may be read several
    times, but always in one go: a position once left is not read again.
    The positions read are the columns [run_switch] lists, each once. *)
Theorem reads_stay_in_the_string (opt : Opt) (l : list item) :
  valid_corpus l ->
  exists tree,
    build_switch opt l = Ok tree
    /\ generate_switch l opt
       = (Ok tt, emit opt (render_switch (indent_level opt) tree))
    /\ forall s,
         (forall c, In c (reads_switch tree s) -> c < String.length s)
         /\ (forall a b d c,
                reads_switch tree s = a ++ c :: b ++ c :: d ->
                forall x, In x b -> x = c)
         /\ NoDup (fst (run_switch tree s))
         /\ (forall c, In c (reads_switch tree s) <-> In c (fst (run_switch tree s))).
Proof.
  intros Hv. destruct (valid_switch_renders opt l Hv) as (tree & Hb & Hg).
  exists tree. split; [exact Hb|]. split; [exact Hg|].
  intros s.
  assert (Hnd : NoDup (fst (run_switch tree s))).
  { destruct (run_switch_sound opt l tree s Hv Hb) as [(_ & N & _)|[_ E]];
      [exact N|rewrite E; constructor]. }
  assert (Hf := build_switch_children opt l tree Hv Hb).
  destruct Hv as [Hne Hd].
  unfold reads_switch, run_switch, run_length_children in *.
  destruct (first_branch_choice (Nat.eqb (String.length s)) (length_children tree))
    as [(len & t & Hin & Hlen & Hfb)|Hfb]; rewrite !Hfb in *.
  - apply Nat.eqb_eq in Hlen. subst len.
    destruct (Forall2_in_r _ _ _ _ Hf Hin) as (len' & Hkey & E & Hbt).
    cbn [fst snd] in E, Hbt. subst len'.
    destruct (reads_node_ok opt _ _ _ None (range 0 (String.length s)) t eq_refl
                (node_inv_length_group l _ Hd Hkey) Hbt s) as (I & R & S).
    split; [|split; [exact R|split; [exact Hnd|exact S]]].
    intros c Hc. now apply range_window_bound, I.
  - split; [intros ? []|]. split; [|split; [exact Hnd|reflexivity]].
    intros [|? ?] ? ? ? E; discriminate.
Qed.

Lemma reads_stay_in_the_string_witness :
  exists tree,
    build_switch (main_opt []) corpus_A = Ok tree
    /\ generate_switch corpus_A (main_opt [])
       = (Ok tt, emit (main_opt []) (render_switch (indent_level (main_opt [])) tree))
    /\ forall s,
         (forall c, In c (reads_switch tree s) -> c < String.length s)
         /\ (forall a b d c,
                reads_switch tree s = a ++ c :: b ++ c :: d ->
                forall x, In x b -> x = c)
         /\ NoDup (fst (run_switch tree s))
         /\ (forall c, In c (reads_switch tree s) <-> In c (fst (run_switch tree s))).
Proof.
  apply (reads_stay_in_the_string (main_opt []) corpus_A). exact corpus_A_valid.
Defined.

(** The chain on column 1 that the procedure of [if], [in], [int] opens
    with evaluates [JSRW_AT(1)] twice on [in], once for each branch. *)
Example reads_of_in :
  exists tree,
    build_switch (main_opt []) corpus_A = Ok tree
    /\ reads_switch tree "in" = [1; 1; 0]
    /\ run_switch tree "in" = ([1; 0], GOT_MATCH 1).
Proof. eexists. split; [reflexivity|]. split; reflexivity. Qed.

(** ** Which exception *)

Lemma for_each_raises_index {X S : Type} (xs : list X) (body : X -> S -> Result S)
    (bad : X -> Prop) :
  (forall x s, bad x -> body x s = Raise IndexError) ->
  (forall x s e, body x s = Raise e -> e = IndexError) ->
  (exists x, In x xs /\ bad x) ->
  forall s, for_each xs body s = Raise IndexError.
Proof.
  intros Hbad Hkind. induction xs as [|x xs IH]; intros (y & Hy & By) s;
    [contradiction|].
  cbn [for_each]. destruct (body x s) as [s1|e] eqn:E; cbn [bind].
  - destruct Hy as [->|Hy]; [rewrite (Hbad y s By) in E; discriminate|].
    apply IH. eauto.
  - now rewrite (Hkind _ _ _ E).
Qed.

Lemma for_each_raise_kind {X S : Type} (xs : list X) (body : X -> S -> Result S) :
  (forall x s e, body x s = Raise e -> e = IndexError) ->
  forall s e, for_each xs body s = Raise e -> e = IndexError.
Proof.
  intros Hkind. induction xs as [|x xs IH]; intros s e H; [discriminate|].
  cbn [for_each] in H. destruct (body x s) as [s1|e1] eqn:E; cbn [bind] in H.
  - now apply IH in H.
  - inversion H; subst. now apply Hkind in E.
Qed.

Lemma char_at_short word column :
  String.length word <= column -> char_at word column = Raise IndexError.
Proof.
  intros H. unfold char_at.
  destruct (String.get column word) as [c|] eqn:E; [|reflexivity].
  apply get_some_range in E. lia.
Qed.

Lemma char_at_raise_kind word column e :
  char_at word column = Raise e -> e = IndexError.
Proof. unfold char_at. destruct (String.get column word); congruence. Qed.

Lemma getitem_raise_kind {A} (xs : list A) i e :
  getitem xs i = Raise e -> e = IndexError.
Proof. unfold getitem. destruct (nth_error xs i); congruence. Qed.

Lemma span_and_count_at_raise_kind l column e :
  l <> [] -> span_and_count_at l column = Raise e -> e = IndexError.
Proof.
  intros Hne H. unfold span_and_count_at in H.
  rewrite (nonempty_assert _ Hne) in H. cbn [assert bind] in H.
  match type of H with (bind ?fe _ = _) => destruct fe as [d|e1] eqn:E end;
    cbn [bind] in H.
  - destruct (getitem_last _) as [hi|e2] eqn:E2; cbn [bind] in H.
    + destruct (getitem _ 0) as [lo|e3] eqn:E3; cbn [bind] in H; [discriminate|].
      inversion H; subst. now apply getitem_raise_kind in E3.
    + inversion H; subst. unfold getitem_last in E2.
      destruct (sorted _ _); congruence.
  - inversion H; subst. apply for_each_raise_kind in E; [exact E|].
    intros [index word] s e1 Hb. cbn in Hb.
    destruct (char_at word column) eqn:Ec; cbn [bind] in Hb; [discriminate|].
    inversion Hb; subst. now apply char_at_raise_kind in Ec.
Qed.

(** ** Counting the characters of a column *)

Lemma nodup_within (xs : list nat) (lo hi : nat) :
  NoDup xs -> (forall x, In x xs -> lo <= x <= hi) -> length xs <= hi - lo + 1.
Proof.
  intros Hn Hb. rewrite <- (length_seq (hi - lo + 1) lo).
  apply NoDup_incl_length; [exact Hn|].
  intros x Hx. apply in_seq. specialize (Hb x Hx). lia.
Qed.

Lemma count_le_span l column :
  l <> [] -> (1 <= Z.of_nat (count_of l column) <= span_of l column)%Z.
Proof.
  intros Hne.
  destruct (min_code_spec l column Hne) as [Hmin Hlb].
  destruct (max_code_spec l column Hne) as [Hmax Hub].
  unfold count_of, span_of. split.
  - destruct (nodup Nat.eq_dec (column_codes l column)) eqn:E; [|cbn; lia].
    exfalso. assert (H : In (max_code l column) []) by (rewrite <- E; now apply nodup_In).
    exact H.
  - assert (H := nodup_within (nodup Nat.eq_dec (column_codes l column))
                   (min_code l column) (max_code l column)
                   (NoDup_nodup _ _)).
    assert (min_code l column <= max_code l column) by now apply Hub.
    specialize (H (fun x Hx => conj (Hlb x (proj1 (nodup_In _ _ _) Hx)) (Hub x (proj1 (nodup_In _ _ _) Hx)))). lia.
Qed.

(** X1: on a non-empty list whose words all reach [column],
    [span_and_count_at] returns the greatest code minus the least code
    plus 1, and the number of distinct characters of the column. *)
Theorem span_and_count_at_computes (l : list item) (column : nat) :
  l <> [] ->
  (forall it, In it l -> column < String.length (snd it)) ->
  span_and_count_at l column
  = Ok ((Z.of_nat (max_code l column) - Z.of_nat (min_code l column) + 1)%Z,
        length (nodup Nat.eq_dec (column_codes l column)))
  /\ In (max_code l column) (column_codes l column)
  /\ In (min_code l column) (column_codes l column)
  /\ forall x, In x (column_codes l column) ->
               min_code l column <= x <= max_code l column.
Proof.
  intros Hne Hr.
  destruct (min_code_spec l column Hne) as [Hmin Hlb].
  destruct (max_code_spec l column Hne) as [Hmax Hub].
  split; [exact (span_and_count_at_spec l column Hne Hr)|].
  split; [exact Hmax|]. split; [exact Hmin|].
  intros x Hx. split; [now apply Hlb|now apply Hub].
Qed.

Lemma span_and_count_at_computes_witness :
  span_and_count_at corpus_B 0
  = Ok ((Z.of_nat (max_code corpus_B 0) - Z.of_nat (min_code corpus_B 0) + 1)%Z,
        length (nodup Nat.eq_dec (column_codes corpus_B 0)))
  /\ In (max_code corpus_B 0) (column_codes corpus_B 0)
  /\ In (min_code corpus_B 0) (column_codes corpus_B 0)
  /\ forall x, In x (column_codes corpus_B 0) ->
               min_code corpus_B 0 <= x <= max_code corpus_B 0.
Proof.
  apply (span_and_count_at_computes corpus_B 0); [discriminate|].
  intros it Hit. cbn in Hit. intuition (subst; cbn; lia).
Defined.

(** X2: [span_and_count_at] raises [AssertionError] on the empty list and
    [IndexError] when a word of a non-empty list is too short for the
    column; it returns exactly when neither is the case. *)
Theorem span_and_count_at_raises (l : list item) (column : nat) :
  (l = [] -> span_and_count_at l column = Raise AssertionError)
  /\ (l <> [] ->
      (exists it, In it l /\ String.length (snd it) <= column) ->
      span_and_count_at l column = Raise IndexError)
  /\ ((exists r, span_and_count_at l column = Ok r)
      <-> l <> [] /\ forall it, In it l -> column < String.length (snd it)).
Proof.
  split; [intros ->; reflexivity|]. split.
  - intros Hne Hshort. unfold span_and_count_at.
    rewrite (nonempty_assert _ Hne). cbn [assert bind].
    rewrite (for_each_raises_index l _
               (fun it => String.length (snd it) <= column)); [reflexivity| | |exact Hshort].
    + intros [index word] s Hb. cbn [snd] in Hb. now rewrite (char_at_short _ _ Hb).
    + intros [index word] s e Hb.
      destruct (char_at word column) eqn:Ec; cbn [bind] in Hb; [discriminate|].
      inversion Hb; subst. now apply char_at_raise_kind in Ec.
  - split.
    + intros [r H]. now apply span_and_count_at_ok in H.
    + intros [Hne Hr]. eexists. now apply span_and_count_at_spec.
Qed.

(** X3: whatever [span_and_count_at] returns, the count is at least 1 and
    at most the span, and the span is 1 exactly when the count is 1. *)
Theorem span_and_count_at_bounds (l : list item) (column : nat) (span : Z)
    (count : nat) :
  span_and_count_at l column = Ok (span, count) ->
  (1 <= Z.of_nat count <= span)%Z /\ (span = 1%Z <-> count = 1).
Proof.
  intros H. destruct (span_and_count_at_ok _ _ _ H) as [Hne Hr].
  rewrite (span_and_count_at_spec _ _ Hne Hr) in H. inversion H; subst.
  split; [now apply count_le_span|].
  rewrite (span_of_one _ _ Hne), (count_of_one _ _ Hne). reflexivity.
Qed.

Lemma span_and_count_at_bounds_witness :
  (1 <= Z.of_nat 4 <= 18)%Z /\ (18%Z = 1%Z <-> 4 = 1).
Proof.
  apply (span_and_count_at_bounds corpus_B 0 18 4). vm_compute. reflexivity.
Defined.

(** ** The exceptions of the column scan *)

Lemma scan_column_raise_kind l columns index st e :
  l <> [] -> scan_column l columns index st = Raise e -> e = IndexError.
Proof.
  intros Hne H. unfold scan_column in H.
  destruct (getitem columns index) as [c|e1] eqn:Eg; cbn [bind] in H.
  2:{ inversion H; subst. now apply getitem_raise_kind in Eg. }
  destruct (span_and_count_at l c) as [[span count]|e1] eqn:Es; cbn [bind] in H.
  2:{ inversion H; subst. now apply (span_and_count_at_raise_kind l c). }
  destruct (span_and_count_at_bounds _ _ _ _ Es) as [[H1 H2] H3].
  replace (span =? 0)%Z with false in H by (symmetry; apply Z.eqb_neq; lia).
  cbn [negb assert bind] in H.
  destruct (span =? 1)%Z eqn:E1.
  - apply Z.eqb_eq, H3 in E1. subst count. discriminate.
  - apply Z.eqb_neq in E1.
    destruct (count =? 1) eqn:Ec; [|discriminate].
    apply Nat.eqb_eq, H3 in Ec. contradiction.
Qed.

Lemma for_each_return_raise_kind {X R S : Type} (xs : list X)
    (body : X -> S -> Result (LoopExit R S)) :
  (forall x s e, body x s = Raise e -> e = IndexError) ->
  forall s e, for_each_return xs body s = Raise e -> e = IndexError.
Proof.
  intros Hkind. induction xs as [|x xs IH]; intros s e H; [discriminate|].
  cbn [for_each_return] in H.
  destruct (body x s) as [[v|s1]|e1] eqn:E; cbn [bind] in H.
  - discriminate.
  - now apply IH in H.
  - inversion H; subst. now apply Hkind in E.
Qed.

(** X4: [optimal_switch_column] raises [AssertionError] exactly on an
    empty list or on zero unprocessed columns: the assertions inside its
    loop do not fail.  Any other exception is an [IndexError], and there
    is none when the first [n] entries of [columns] are columns of all the
    words. *)
Theorem optimal_switch_column_raises (opt : Opt) (l : list item)
    (columns : list nat) (n : nat) :
  (l = [] \/ n = 0 ->
   optimal_switch_column opt l columns n = Raise AssertionError)
  /\ (l <> [] -> 0 < n ->
      (forall e, optimal_switch_column opt l columns n = Raise e -> e = IndexError)
      /\ ((forall i, i < n ->
             i < length columns
             /\ forall it, In it l -> nth i columns 0 < String.length (snd it)) ->
          exists k use_if, optimal_switch_column opt l columns n = Ok (k, use_if))).
Proof.
  split.
  - intros [-> | ->]; [reflexivity|]. unfold optimal_switch_column.
    destruct (negb (length l =? 0)); reflexivity.
  - intros Hne Hn. split.
    + intros e H. unfold optimal_switch_column in H.
      rewrite (nonempty_assert _ Hne) in H.
      destruct n as [|n]; [lia|]. cbn [assert bind Nat.eqb negb] in H.
      destruct (for_each_return _ _ _) as [r|e1] eqn:E; cbn [bind] in H.
      * destruct r as [v|st]; [discriminate|].
        destruct (min_count st <=? use_if_threshold opt); discriminate.
      * inversion H; subst.
        apply for_each_return_raise_kind in E; [exact E|].
        intros i s e1. now apply scan_column_raise_kind.
    + intros Hs. now apply optimal_switch_column_total.
Qed.

Lemma optimal_switch_column_raises_witness :
  (forall e, optimal_switch_column (main_opt []) corpus_C [0; 1] 2 = Raise e ->
             e = IndexError)
  /\ ((forall i, i < 2 ->
         i < length [0; 1]
         /\ forall it, In it corpus_C -> nth i [0; 1] 0 < String.length (snd it)) ->
      exists k use_if,
        optimal_switch_column (main_opt []) corpus_C [0; 1] 2 = Ok (k, use_if)).
Proof.
  apply (optimal_switch_column_raises (main_opt []) corpus_C [0; 1] 2);
    [discriminate|lia].
Defined.

(** ** The groups are a partition *)

Section Partition.
Context {K : Type} (rank : K -> nat) (key : item -> K).

Lemma flat_map_groups_cons (it : item) (l : list item) (ks : list K) :
  NoDup (map rank ks) ->
  Permutation
    (flat_map (group_of rank key (it :: l)) ks)
    ((if has_rank rank (key it) ks then [it] else [])
     ++ flat_map (group_of rank key l) ks).
Proof.
  induction ks as [|k ks IH]; intros Hn; [reflexivity|].
  cbn [map] in Hn. inversion Hn as [|? ? Hni Hn']; subst.
  cbn [flat_map has_rank existsb]. fold (has_rank rank (key it) ks).
  unfold group_of at 1. cbn [filter]. fold (group_of rank key l k).
  rewrite (Nat.eqb_sym (rank k)).
  destruct (rank (key it) =? rank k) eqn:E; cbn [orb].
  - assert (Hnone : has_rank rank (key it) ks = false).
    { apply has_rank_false. intros k' Hk' E'. apply Hni.
      apply Nat.eqb_eq in E. rewrite <- E, <- E'. now apply in_map. }
    rewrite Hnone in IH. cbn [app] in IH |- *.
    constructor. apply Permutation_app_head. now apply IH.
  - rewrite (IH Hn').
    destruct (has_rank rank (key it) ks); cbn [app]; [|reflexivity].
    symmetry. apply Permutation_middle.
Qed.

Lemma flat_map_groups (l : list item) (ks : list K) :
  NoDup (map rank ks) ->
  (forall it, In it l -> has_rank rank (key it) ks = true) ->
  Permutation (flat_map (group_of rank key l) ks) l.
Proof.
  intros Hn. induction l as [|it l IH]; intros Hall.
  - induction ks as [|k ks IHk]; [reflexivity|].
    cbn [flat_map]. inversion Hn; subst. now apply IHk.
  - rewrite (flat_map_groups_cons it l ks Hn).
    rewrite (Hall it) by now left. cbn [app]. constructor.
    apply IH. intros; apply Hall; now right.
Qed.

Lemma sorted_keys_partition (l : list item) :
  Permutation (flat_map (group_of rank key l) (sorted_keys rank key l)) l.
Proof.
  apply flat_map_groups.
  - eapply Permutation_NoDup; [apply Permutation_map, sorted_perm|].
    apply distinct_keys_nodup.
  - intros it Hit. apply has_rank_true.
    destruct (sorted_keys_complete rank key l it Hit) as (k & Hk & E). eauto.
Qed.

Lemma concat_groups (l : list item) (ks : list K) :
  concat (map snd (map (fun k => (k, group_of rank key l k)) ks))
  = flat_map (group_of rank key l) ks.
Proof. rewrite map_map. cbn [snd]. now rewrite flat_map_concat_map. Qed.
End Partition.

(** X6: [split_list_per_column] partitions the list by the character at
    [column]: the groups come in strictly ascending order of character
    code, none is empty, the group of [c] is the entries with [c] at
    [column], in the order of the list, and the groups together are the
    list, no entry lost or repeated. *)
Theorem split_list_per_column_partitions (l : list item) (column : nat) :
  l <> [] ->
  (forall it, In it l -> column < String.length (snd it)) ->
  exists groups,
    split_list_per_column l column = Ok groups
    /\ StronglySorted (fun c1 c2 => ord c1 < ord c2) (map fst groups)
    /\ (forall c g, In (c, g) groups ->
          g <> []
          /\ g = filter (fun it => ord (char_of column it) =? ord c) l)
    /\ (forall it, In it l -> exists g, In (char_of column it, g) groups /\ In it g)
    /\ Permutation (concat (map snd groups)) l.
Proof.
  intros Hne Hr. eexists. split; [exact (split_list_per_column_spec l column Hne Hr)|].
  split; [|split; [|split]].
  - rewrite map_map. cbn [fst]. rewrite map_id.
    exact (sorted_keys_strict ord (char_of column) l).
  - intros c g Hin. apply in_map_iff in Hin as (c' & E & Hc'). inversion E; subst.
    split; [now apply group_of_nonempty|reflexivity].
  - intros it Hit.
    destruct (sorted_keys_complete ord (char_of column) l it Hit) as (c & Hc & E).
    apply ord_inj in E. subst c.
    exists (group_of ord (char_of column) l (char_of column it)). split.
    + apply in_map_iff. eauto.
    + apply filter_In. split; [exact Hit|apply Nat.eqb_refl].
  - rewrite concat_groups. apply sorted_keys_partition.
Qed.

Lemma split_list_per_column_partitions_witness :
  exists groups,
    split_list_per_column corpus_B 0 = Ok groups
    /\ StronglySorted (fun c1 c2 => ord c1 < ord c2) (map fst groups)
    /\ (forall c g, In (c, g) groups ->
          g <> []
          /\ g = filter (fun it => ord (char_of 0 it) =? ord c) corpus_B)
    /\ (forall it, In it corpus_B ->
          exists g, In (char_of 0 it, g) groups /\ In it g)
    /\ Permutation (concat (map snd groups)) corpus_B.
Proof.
  apply (split_list_per_column_partitions corpus_B 0); [discriminate|].
  intros it Hit. cbn in Hit. intuition (subst; cbn; lia).
Defined.

(** X7: [split_list_per_column] raises [AssertionError] on the empty list
    and [IndexError] when a word of a non-empty list is too short for the
    column. *)
Theorem split_list_per_column_raises (l : list item) (column : nat) :
  (l = [] -> split_list_per_column l column = Raise AssertionError)
  /\ (l <> [] ->
      (exists it, In it l /\ String.length (snd it) <= column) ->
      split_list_per_column l column = Raise IndexError).
Proof.
  split; [intros ->; reflexivity|].
  intros Hne Hshort. unfold split_list_per_column.
  rewrite (nonempty_assert _ Hne). cbn [assert bind].
  rewrite (for_each_raises_index l _
             (fun it => String.length (snd it) <= column)); [reflexivity| | |exact Hshort].
  - intros [index word] s Hb. cbn [snd] in Hb. now rewrite (char_at_short _ _ Hb).
  - intros [index word] s e Hb.
    destruct (char_at word column) eqn:Ec; cbn [bind] in Hb; [discriminate|].
    inversion Hb; subst. now apply char_at_raise_kind in Ec.
Qed.

(** X8: [split_list_per_length] partitions a non-empty list by word
    length: the groups come in strictly ascending order of length, none is
    empty, the group of [n] is the entries of length [n], in the order of
    the list, and the groups together are the list, no entry lost or
    repeated; on the empty list it raises [AssertionError]. *)
Theorem split_list_per_length_partitions (l : list item) :
  (l = [] -> split_list_per_length l = Raise AssertionError)
  /\ (l <> [] ->
      exists groups,
        split_list_per_length l = Ok groups
        /\ StronglySorted lt (map fst groups)
        /\ (forall n g, In (n, g) groups ->
              g <> []
              /\ g = filter (fun it => String.length (snd it) =? n) l)
        /\ (forall it, In it l ->
              exists g, In (String.length (snd it), g) groups /\ In it g)
        /\ Permutation (concat (map snd groups)) l).
Proof.
  split; [intros ->; reflexivity|].
  intros Hne. eexists. split; [exact (split_list_per_length_spec l Hne)|].
  split; [|split; [|split]].
  - rewrite map_map. cbn [fst]. rewrite map_id.
    exact (sorted_keys_strict (fun k : nat => k) word_length l).
  - intros n g Hin. apply in_map_iff in Hin as (n' & E & Hn'). inversion E; subst.
    split; [now apply group_of_nonempty|reflexivity].
  - intros it Hit.
    destruct (sorted_keys_complete (fun k : nat => k) word_length l it Hit)
      as (n & Hn & E).
    cbn in E. subst n.
    exists (group_of (fun k : nat => k) word_length l (word_length it)). split.
    + apply in_map_iff. exists (word_length it). split; [reflexivity|exact Hn].
    + apply filter_In. split; [exact Hit|apply Nat.eqb_refl].
  - rewrite concat_groups. apply sorted_keys_partition.
Qed.

(** ** When no tree is built, the generator raises *)

Section GeneratorRaises.
Variable opt0 : Opt.

Lemma gen_for_each_blocks_raise {K : Type} (head : K -> Gen unit)
    (hd : Z -> K -> list string) (tail : Gen unit) (tl : Z -> list string)
    (body : K -> list item -> Gen unit)
    (build : K -> list item -> Result DecisionNode) :
  (forall k opt, head k opt = (Ok tt, emit opt (hd (indent_level opt) k))) ->
  (forall opt, tail opt = (Ok tt, emit opt (tl (indent_level opt)))) ->
  (forall k g opt t, same_thresholds opt0 opt -> build k g = Ok t ->
     body k g opt = (Ok tt, emit opt (render_node (indent_level opt) t))) ->
  (forall k g opt e, same_thresholds opt0 opt -> build k g = Raise e ->
     exists o', body k g opt = (Raise e, o')) ->
  forall (xs : list (K * list item)) opt e,
    same_thresholds opt0 opt ->
    map_result (fun '(k, g) => let* t := build k g in Ok (k, t)) xs = Raise e ->
    exists o',
      gen_for_each xs (fun '(k, g) => head k ;; indent ;; body k g ;; dedent ;; tail) opt
      = (Raise e, o').
Proof.
  intros Hhead Htail Hok Hraise.
  induction xs as [|[k g] xs IHl]; intros opt e Hs Hm; [discriminate|].
  cbn [map_result] in Hm. cbn [gen_for_each]. unfold gbind.
  rewrite Hhead, indent_run.
  destruct (build k g) as [t|e1] eqn:Hb; cbn [bind] in Hm.
  - rewrite (Hok k g _ t); [|now apply same_thresholds_indent, same_thresholds_emit|exact Hb].
    rewrite dedent_run, Htail.
    destruct (map_result _ xs) as [cs|e2] eqn:Hcs; cbn [bind] in Hm; [discriminate|].
    inversion Hm; subst e2.
    apply (IHl _ e); [|reflexivity].
    apply same_thresholds_emit, same_thresholds_indent, same_thresholds_emit,
      same_thresholds_indent, same_thresholds_emit, Hs.
  - inversion Hm; subst e1.
    destruct (Hraise k g (with_indent (emit opt (hd (indent_level opt) k))
                            (indent_level (emit opt (hd (indent_level opt) k)) + 1)) e)
      as [o' Ho']; [now apply same_thresholds_indent, same_thresholds_emit|exact Hb|].
    rewrite Ho'. eauto.
Qed.

Lemma generate_letter_switch_raises n :
  forall l cols opt e,
    same_thresholds opt0 opt ->
    build_letter_switch opt0 n l cols = Raise e ->
    exists o', generate_letter_switch n l cols opt = (Raise e, o').
Proof.
  induction n as [|n IH]; intros l cols opt e Hs Hb.
  - cbn [build_letter_switch generate_letter_switch] in *.
    destruct (negb (length l =? 0)).
    2:{ cbn [assert bind] in Hb. inversion Hb; subst. eexists; reflexivity. }
    cbn [assert bind] in Hb. unfold gbind at 1; cbn [lift assert].
    destruct (length l =? 1).
    2:{ inversion Hb; subst. eexists; reflexivity. }
    destruct (getitem l 0) as [[index word]|e1]; cbn [bind] in Hb; [discriminate|].
    inversion Hb; subst. eexists; reflexivity.
  - cbn [build_letter_switch generate_letter_switch] in *.
    destruct (negb (length l =? 0)).
    2:{ cbn [assert bind] in Hb. inversion Hb; subst. eexists; reflexivity. }
    cbn [assert bind] in Hb. unfold gbind at 1; cbn [lift assert].
    destruct (length l =? 1).
    + destruct (getitem l 0) as [[index word]|e1]; cbn [bind] in Hb.
      2:{ inversion Hb; subst. eexists; reflexivity. }
      unfold gbind at 1; cbn [lift].
      cbn [Nat.eqb] in Hb |- *.
      unfold gbind at 1; cbn [get_opt].
      destruct Hs as [Hu Hc]. rewrite Hc.
      destruct (char_tail_test_threshold opt0 <? S n); [discriminate|].
      unfold gbind at 1; cbn [lift]. rewrite for_each_conds.
      destruct (map_result _ _) as [tests|e1]; cbn [bind] in Hb |- *; [discriminate|].
      inversion Hb; subst. eexists; reflexivity.
    + unfold gbind at 1; cbn [get_opt].
      rewrite (optimal_switch_column_thresholds opt0 opt) by exact Hs.
      destruct (optimal_switch_column opt0 l _ (S n)) as [[oci use_if]|e1];
        cbn [bind] in Hb.
      2:{ inversion Hb; subst. eexists; reflexivity. }
      unfold gbind at 1; cbn [lift].
      destruct (getitem _ oci) as [optimal_column|e1]; cbn [bind] in Hb.
      2:{ inversion Hb; subst. eexists; reflexivity. }
      unfold gbind at 1; cbn [lift].
      destruct (getitem _ (S n - 1)) as [last_column|e1]; cbn [bind] in Hb.
      2:{ inversion Hb; subst. eexists; reflexivity. }
      unfold gbind at 1; cbn [lift].
      destruct (setitem _ oci last_column) as [columns|e1]; cbn [bind] in Hb.
      2:{ inversion Hb; subst. eexists; reflexivity. }
      unfold gbind at 1; cbn [lift].
      destruct (split_list_per_column l optimal_column) as [lpc|e1]; cbn [bind] in Hb.
      2:{ inversion Hb; subst. eexists; reflexivity. }
      unfold gbind at 1; cbn [lift].
      destruct (map_result _ lpc) as [children|e1] eqn:Hch; cbn [bind] in Hb;
        [discriminate|].
      inversion Hb; subst e1; clear Hb.
      unfold gbind at 1. rewrite opt_line_run.
      unfold gbind at 1.
      destruct (gen_for_each_blocks_raise
                 (fun char => if use_if
                     then line (fmt ["if (JSRW_AT("; str_of_nat optimal_column;
                                     ") == "; repr_char char; ") {"])
                     else line (fmt ["  case "; repr_char char; ":"]))
                 (fun lvl char => if use_if
                     then [line_at lvl (fmt ["if (JSRW_AT("; str_of_nat optimal_column;
                                     ") == "; repr_char char; ") {"])]
                     else [line_at lvl (fmt ["  case "; repr_char char; ":"])])
                 (if use_if then line "}" else ret tt)
                 (fun lvl => if use_if then [line_at lvl "}"] else [])
                 (fun _ g => generate_letter_switch n g (Some columns))
                 (fun _ g => build_letter_switch opt0 n g (Some columns))
                 ltac:(intros; apply ite_line_run)
                 ltac:(intros; apply opt_line_run)
                 ltac:(intros; now apply (generate_letter_switch_renders opt0))
                 ltac:(intros; now apply IH)
                 lpc
                 (emit opt
                    (if negb use_if
                     then [line_at (indent_level opt)
                             (fmt ["switch (JSRW_AT("; str_of_nat optimal_column; ")) {"])]
                     else []))
                 e) as [o' Ho'];
        [now apply same_thresholds_emit|exact Hch|].
      rewrite Ho'. eauto.
Qed.

Lemma generate_switch_raises l opt e :
  same_thresholds opt0 opt ->
  build_switch opt0 l = Raise e ->
  exists o', generate_switch l opt = (Raise e, o').
Proof.
  intros Hs Hb. unfold build_switch, generate_switch in *.
  destruct (negb (length l =? 0)).
  2:{ cbn [assert bind] in Hb. inversion Hb; subst. eexists; reflexivity. }
  cbn [assert bind] in Hb. unfold gbind at 1; cbn [lift assert].
  unfold gbind at 1; rewrite line_run.
  unfold gbind at 1; rewrite line_run.
  unfold gbind at 1; rewrite header_words_run.
  unfold gbind at 1; rewrite line_run.
  destruct (split_list_per_length l) as [lpl|e1]; cbn [bind] in Hb.
  2:{ inversion Hb; subst. eexists; reflexivity. }
  unfold gbind at 1; cbn [lift].
  unfold gbind at 1; cbn [get_opt].
  destruct (map_result _ lpl) as [children|e1] eqn:Hch; cbn [bind] in Hb; [discriminate|].
  inversion Hb; subst e1; clear Hb.
  rewrite !emit_emit. cbn [use_if_threshold emit].
  destruct Hs as [Hu Hc]. rewrite Hu.
  set (use_if := length lpl <? use_if_threshold opt0).
  unfold gbind at 1. rewrite opt_line_run.
  unfold gbind at 1.
  match goal with |- context [gen_for_each lpl _ ?st] =>
  destruct (gen_for_each_blocks_raise
             (fun len => if use_if
                 then line (fmt ["if (JSRW_LENGTH() == "; str_of_nat len; ") {"])
                 else line (fmt ["  case "; str_of_nat len; ":"]))
             (fun lvl len => if use_if
                 then [line_at lvl (fmt ["if (JSRW_LENGTH() == "; str_of_nat len; ") {"])]
                 else [line_at lvl (fmt ["  case "; str_of_nat len; ":"])])
             (if use_if then line "}" else ret tt)
             (fun lvl => if use_if then [line_at lvl "}"] else [])
             (fun len g => generate_letter_switch len g None)
             (fun len g => build_letter_switch opt0 len g None)
             ltac:(intros; apply ite_line_run)
             ltac:(intros; apply opt_line_run)
             ltac:(intros; now apply (generate_letter_switch_renders opt0))
             ltac:(intros; now apply generate_letter_switch_raises)
             lpl st e) as [o' Ho']
  end;
    [repeat apply same_thresholds_emit; now split|exact Hch|].
  rewrite Ho'. eauto.
Qed.
End GeneratorRaises.

(** ** What a normal return leaves behind *)

Lemma generate_switch_outcome opt l :
  (exists tree,
      build_switch opt l = Ok tree
      /\ generate_switch l opt
         = (Ok tt, emit opt (render_switch (indent_level opt) tree)))
  \/ (exists e o', build_switch opt l = Raise e
                   /\ generate_switch l opt = (Raise e, o')).
Proof.
  destruct (build_switch opt l) as [tree|e] eqn:Hb.
  - left. exists tree. split; [reflexivity|].
    now apply (generate_switch_renders opt l opt tree (conj eq_refl eq_refl)).
  - right. destruct (generate_switch_raises opt l opt e (conj eq_refl eq_refl) Hb)
      as [o' Ho'].
    eauto.
Qed.

Lemma generate_letter_switch_outcome opt n l columns :
  (exists t,
      build_letter_switch opt n l columns = Ok t
      /\ generate_letter_switch n l columns opt
         = (Ok tt, emit opt (render_node (indent_level opt) t)))
  \/ (exists e o', build_letter_switch opt n l columns = Raise e
                   /\ generate_letter_switch n l columns opt = (Raise e, o')).
Proof.
  destruct (build_letter_switch opt n l columns) as [t|e] eqn:Hb.
  - left. exists t. split; [reflexivity|].
    now apply (generate_letter_switch_renders opt n l columns opt t
                 (conj eq_refl eq_refl)).
  - right.
    destruct (generate_letter_switch_raises opt n l columns opt e
                (conj eq_refl eq_refl) Hb) as [o' Ho'].
    eauto.
Qed.

(** X9: when [generate_letter_switch] returns normally, the indentation
    level and the thresholds of [opt] are what they were, and the stream
    is the old stream with lines added. *)
Theorem generate_letter_switch_restores_indent (n : nat) (l : list item)
    (columns : option (list nat)) (opt opt' : Opt) :
  generate_letter_switch n l columns opt = (Ok tt, opt') ->
  indent_level opt' = indent_level opt
  /\ use_if_threshold opt' = use_if_threshold opt
  /\ char_tail_test_threshold opt' = char_tail_test_threshold opt
  /\ exists lines, output opt' = output opt ++ lines.
Proof.
  intros H.
  destruct (generate_letter_switch_outcome opt n l columns)
    as [(t & _ & Hg)|(e & o' & _ & Hg)]; rewrite Hg in H; [|discriminate].
  inversion H; subst opt'. cbn. eauto.
Qed.

Lemma generate_letter_switch_restores_indent_witness :
  indent_level (snd (generate_letter_switch 2 corpus_C None (main_opt [])))
  = indent_level (main_opt [])
  /\ use_if_threshold (snd (generate_letter_switch 2 corpus_C None (main_opt [])))
     = use_if_threshold (main_opt [])
  /\ char_tail_test_threshold
       (snd (generate_letter_switch 2 corpus_C None (main_opt [])))
     = char_tail_test_threshold (main_opt [])
  /\ exists lines,
       output (snd (generate_letter_switch 2 corpus_C None (main_opt [])))
       = output (main_opt []) ++ lines.
Proof.
  apply (generate_letter_switch_restores_indent 2 corpus_C None (main_opt [])).
  vm_compute. reflexivity.
Defined.

(** X10: when [generate_switch] returns normally, the indentation level
    and the thresholds of [opt] are what they were, and the stream is the
    old stream with lines added. *)
Theorem generate_switch_restores_indent (l : list item) (opt opt' : Opt) :
  generate_switch l opt = (Ok tt, opt') ->
  indent_level opt' = indent_level opt
  /\ use_if_threshold opt' = use_if_threshold opt
  /\ char_tail_test_threshold opt' = char_tail_test_threshold opt
  /\ exists lines, output opt' = output opt ++ lines.
Proof.
  intros H.
  destruct (generate_switch_outcome opt l)
    as [(t & _ & Hg)|(e & o' & _ & Hg)]; rewrite Hg in H; [|discriminate].
  inversion H; subst opt'. cbn. eauto.
Qed.

Lemma generate_switch_restores_indent_witness :
  indent_level (snd (generate_switch corpus_A (main_opt [])))
  = indent_level (main_opt [])
  /\ use_if_threshold (snd (generate_switch corpus_A (main_opt [])))
     = use_if_threshold (main_opt [])
  /\ char_tail_test_threshold (snd (generate_switch corpus_A (main_opt [])))
     = char_tail_test_threshold (main_opt [])
  /\ exists lines,
       output (snd (generate_switch corpus_A (main_opt [])))
       = output (main_opt []) ++ lines.
Proof.
  apply (generate_switch_restores_indent corpus_A (main_opt [])).
  vm_compute. reflexivity.
Defined.

(** X11: in every run, a raising one included, [generate_switch] and
    [generate_letter_switch] leave what was in the stream in place and
    only add to its end. *)
Theorem generator_only_appends (n : nat) (l : list item)
    (columns : option (list nat)) (opt : Opt) :
  (exists lines, output (snd (generate_switch l opt)) = output opt ++ lines)
  /\ (exists lines,
        output (snd (generate_letter_switch n l columns opt))
        = output opt ++ lines).
Proof.
  split; [|apply appends_generate_letter_switch].
  revert opt. change (appends (generate_switch l)). unfold generate_switch.
  apply appends_bind; [apply appends_lift|intros _].
  apply appends_bind; [apply appends_line|intros _].
  apply appends_bind; [apply appends_line|intros _].
  apply appends_bind.
  { apply appends_for_each. intros [index word]. apply appends_line. }
  intros _.
  apply appends_bind; [apply appends_line|intros _].
  apply appends_bind; [apply appends_lift|intros lpl].
  apply appends_bind; [apply appends_get_opt|intros o].
  apply appends_bind; [apply appends_if; [apply appends_line|apply appends_ret]|intros _].
  apply appends_bind.
  - apply appends_for_each. intros [len g].
    apply appends_bind; [apply appends_if; apply appends_line|intros _].
    apply appends_bind; [apply appends_indent|intros _].
    apply appends_bind; [apply appends_generate_letter_switch|intros _].
    apply appends_bind; [apply appends_dedent|intros _].
    apply appends_if; [apply appends_line|apply appends_ret].
  - intros _. repeat appends_step.
Qed.

(** ** One leaf for every word *)

Lemma flat_map_leaves_groups {K : Type} (G : K -> list item) (keys : list K)
    (children : list (K * DecisionNode)) :
  Forall2 (fun c ct => fst ct = c /\ Permutation (leaves (snd ct)) (G c))
    keys children ->
  Permutation (flat_map (fun '(_, child) => leaves child) children)
    (flat_map G keys).
Proof.
  induction 1 as [|c [c' t] keys children [_ Hp] _ IH]; [reflexivity|].
  cbn [flat_map snd] in *. now apply Permutation_app.
Qed.

Lemma leaves_of_node opt L n l columns0 columns t :
  default_columns columns0 n = columns ->
  node_inv L n l columns ->
  build_letter_switch opt n l columns0 = Ok t ->
  Permutation (leaves t) l.
Proof.
  apply (built_tree_ind opt L (fun _ l _ t => Permutation (leaves t) l));
    try (intros; reflexivity).
  intros n0 l0 cols cols' k use_if children _ _ _ _ _ _ Hf.
  cbn [leaves]. rewrite (flat_map_leaves_groups _ _ _ Hf).
  apply sorted_keys_partition.
Qed.

(** X18: the tree built from a valid corpus has exactly one leaf for every
    entry of the corpus: its leaves, read left to right, are a permutation
    of the list. *)
Theorem one_leaf_per_word (opt : Opt) (l : list item) :
  valid_corpus l ->
  exists tree,
    build_switch opt l = Ok tree
    /\ generate_switch l opt
       = (Ok tt, emit opt (render_switch (indent_level opt) tree))
    /\ Permutation (leaves_switch tree) l.
Proof.
  intros Hv. destruct (valid_switch_renders opt l Hv) as (tree & Hb & Hg).
  exists tree. split; [exact Hb|]. split; [exact Hg|].
  assert (Hf := build_switch_children opt l tree Hv Hb).
  destruct Hv as [Hne Hd]. unfold leaves_switch.
  rewrite (flat_map_leaves_groups (length_group l) (length_keys l)).
  - apply (sorted_keys_partition (fun k : nat => k) word_length l).
  - apply (Forall2_keys_impl
             (fun len t => build_letter_switch opt len (length_group l len) None = Ok t)
             (fun len t => Permutation (leaves t) (length_group l len))
             _ _ Hf).
    intros len t Hlen Ht.
    apply (leaves_of_node opt len len _ None (range 0 len) t eq_refl
             (node_inv_length_group l len Hd Hlen) Ht).
Qed.

Lemma one_leaf_per_word_witness :
  exists tree,
    build_switch (main_opt []) corpus_A = Ok tree
    /\ generate_switch corpus_A (main_opt [])
       = (Ok tt, emit (main_opt []) (render_switch (indent_level (main_opt [])) tree))
    /\ Permutation (leaves_switch tree) corpus_A.
Proof.
  apply (one_leaf_per_word (main_opt []) corpus_A). exact corpus_A_valid.
Defined.

(** ** The branches of a dispatch *)

Lemma fold_labels_ascending {K : Type} (keys : list K)
    (children : list (K * DecisionNode)) :
  Forall2 (fun c ct => fst ct = c /\ labels_ascending (snd ct)) keys children ->
  fold_right (fun '(_, child) rest => labels_ascending child /\ rest) True children.
Proof.
  induction 1 as [|c [c' t] keys children [_ Ht] _ IH]; [exact I|].
  cbn [fold_right snd] in *. now split.
Qed.

Lemma labels_of_node opt L n l columns0 columns t :
  default_columns columns0 n = columns ->
  node_inv L n l columns ->
  build_letter_switch opt n l columns0 = Ok t ->
  labels_ascending t.
Proof.
  apply (built_tree_ind opt L (fun _ _ _ t => labels_ascending t));
    try (intros; exact I).
  intros n0 l0 cols cols' k use_if children Hinv _ _ _ _ _ Hf.
  cbn [labels_ascending].
  assert (Hkeys := Forall2_map_fst (fun _ t => labels_ascending t) _ _ Hf).
  split; [|split].
  - intros ->. cbn in Hkeys.
    destruct Hinv as [Hne _ _ _ _ _ _]. destruct l0 as [|it l0]; [congruence|].
    destruct (sorted_keys_complete ord (char_of (nth k cols 0)) (it :: l0) it
                (or_introl eq_refl)) as (c & Hc & _).
    rewrite <- Hkeys in Hc. exact Hc.
  - rewrite Hkeys. exact (sorted_keys_strict ord (char_of (nth k cols 0)) l0).
  - now apply (fold_labels_ascending _ _ Hf).
Qed.

(** X19: in the tree built from a valid corpus every dispatch on a
    character has at least one branch, and its branches carry pairwise
    different characters, in strictly ascending order of character code. *)
Theorem case_labels_ascending (opt : Opt) (l : list item) :
  valid_corpus l ->
  exists tree,
    build_switch opt l = Ok tree
    /\ generate_switch l opt
       = (Ok tt, emit opt (render_switch (indent_level opt) tree))
    /\ forall len child, In (len, child) (length_children tree) ->
                         labels_ascending child.
Proof.
  intros Hv. destruct (valid_switch_renders opt l Hv) as (tree & Hb & Hg).
  exists tree. split; [exact Hb|]. split; [exact Hg|].
  assert (Hf := build_switch_children opt l tree Hv Hb).
  destruct Hv as [Hne Hd].
  intros len child Hin.
  destruct (Forall2_in_r _ _ _ _ Hf Hin) as (len' & Hlen & E & Hbt).
  cbn [fst snd] in E, Hbt. subst len'.
  apply (labels_of_node opt len len _ None (range 0 len) child eq_refl
           (node_inv_length_group l len Hd Hlen) Hbt).
Qed.

Lemma case_labels_ascending_witness :
  exists tree,
    build_switch (main_opt []) corpus_A = Ok tree
    /\ generate_switch corpus_A (main_opt [])
       = (Ok tt, emit (main_opt []) (render_switch (indent_level (main_opt [])) tree))
    /\ forall len child, In (len, child) (length_children tree) ->
                         labels_ascending child.
Proof.
  apply (case_labels_ascending (main_opt []) corpus_A). exact corpus_A_valid.
Defined.

(** ** A word listed twice *)

Lemma repeats_word_length l : repeats_word l -> 2 <= length l.
Proof.
  intros (l1 & a & l2 & b & l3 & -> & _).
  rewrite !length_app. cbn [length]. rewrite length_app. cbn [length]. lia.
Qed.

Lemma repeats_word_filter (keep : item -> bool) l1 a l2 b l3 :
  snd a = snd b -> keep a = true -> keep b = true ->
  repeats_word (filter keep (l1 ++ a :: l2 ++ b :: l3)).
Proof.
  intros Hab Ha Hb.
  exists (filter keep l1), a, (filter keep l2), b, (filter keep l3).
  split; [|exact Hab].
  rewrite filter_app. cbn [filter]. rewrite Ha, filter_app. cbn [filter].
  now rewrite Hb.
Qed.

Lemma Forall2_in_l {A B} (R : A -> B -> Prop) xs ys x :
  Forall2 R xs ys -> In x xs -> exists y, In y ys /\ R x y.
Proof.
  induction 1 as [|x0 y0 xs ys HR Hf IH]; intros Hin; [contradiction|].
  destruct Hin as [->|Hin]; [exists y0; split; [now left|exact HR]|].
  destruct (IH Hin) as (y & Hy & Hr). exists y. split; [now right|exact Hr].
Qed.

Lemma split_list_per_column_ok l column groups :
  split_list_per_column l column = Ok groups ->
  l <> [] /\ column_in_range l column.
Proof.
  unfold split_list_per_column. intros H.
  destruct l as [|it0 l0] eqn:El; [discriminate|]. rewrite <- El in *.
  split; [subst; discriminate|].
  replace (negb (length l =? 0)) with true in H by (subst l; reflexivity).
  cbn [assert bind] in H.
  match type of H with (bind ?fe _ = _) => destruct fe as [d|e] eqn:E end;
    [|discriminate].
  intros [index word] Hin.
  destruct (for_each_inv _ _ _ _ E _ Hin) as (s1 & s2 & Hb).
  cbn in Hb. destruct (char_at word column) as [c|] eqn:Ec; [|discriminate].
  apply char_at_ok in Ec. now apply get_some_range in Ec.
Qed.

Lemma char_of_same_word column (a b : item) :
  snd a = snd b -> char_of column a = char_of column b.
Proof. unfold char_of. now intros ->. Qed.

Lemma repeats_word_no_tree opt n :
  forall l columns t,
    repeats_word l -> build_letter_switch opt n l columns <> Ok t.
Proof.
  induction n as [|n IH]; intros l columns t Hrep H.
  - assert (H2 := repeats_word_length l Hrep).
    cbn [build_letter_switch] in H.
    destruct l as [|a [|b l]]; cbn [length] in H2; try lia.
    cbn in H. discriminate.
  - assert (H2 := repeats_word_length l Hrep).
    assert (E1 : (length l =? 1) = false) by (apply Nat.eqb_neq; lia).
    assert (Hne : l <> []) by (intros ->; cbn in H2; lia).
    cbn [build_letter_switch] in H.
    rewrite (nonempty_assert _ Hne), E1 in H. cbn [assert bind] in H.
    destruct (optimal_switch_column _ _ _ _) as [[k use_if]|e]; cbn [bind] in H;
      [|discriminate].
    destruct (getitem _ k) as [col|e]; cbn [bind] in H; [|discriminate].
    destruct (getitem _ (S n - 1)) as [last_column|e]; cbn [bind] in H; [|discriminate].
    destruct (setitem _ k last_column) as [columns'|e]; cbn [bind] in H; [|discriminate].
    destruct (split_list_per_column l col) as [lpc|e] eqn:Es; cbn [bind] in H;
      [|discriminate].
    destruct (split_list_per_column_ok _ _ _ Es) as [_ Hr].
    rewrite (split_list_per_column_spec _ _ Hne Hr) in Es. inversion Es; subst lpc.
    destruct (map_result _ _) as [children|e] eqn:Hm; cbn [bind] in H; [|discriminate].
    apply (map_result_keys_inv
             (fun c => group_of ord (char_of col) l c)
             (fun (_ : ascii) g => build_letter_switch opt n g (Some columns'))) in Hm.
    destruct Hrep as (l1 & a & l2 & b & l3 & El & Hab).
    assert (Ha : In a l) by (subst l; apply in_or_app; right; now left).
    destruct (sorted_keys_complete ord (char_of col) l a Ha) as (c & Hc & Ec).
    apply ord_inj in Ec. subst c.
    destruct (Forall2_in_l _ _ _ _ Hm Hc) as ([c' t'] & _ & _ & Hbt).
    cbn [snd] in Hbt. revert Hbt. apply IH.
    unfold group_of. rewrite El. apply repeats_word_filter; [exact Hab| |].
    + apply Nat.eqb_refl.
    + rewrite (char_of_same_word col b a (eq_sym Hab)). apply Nat.eqb_refl.
Qed.

Lemma repeats_word_no_switch opt l :
  repeats_word l -> exists e, build_switch opt l = Raise e.
Proof.
  intros Hrep. assert (H2 := repeats_word_length l Hrep).
  assert (Hne : l <> []) by (intros ->; cbn in H2; lia).
  unfold build_switch. rewrite (nonempty_assert _ Hne). cbn [assert bind].
  rewrite (split_list_per_length_spec _ Hne). cbn [bind].
  destruct (map_result _ _) as [children|e] eqn:Hm; cbn [bind]; [|eauto].
  exfalso.
  apply (map_result_keys_inv
           (fun len => group_of (fun k : nat => k) word_length l len)
           (fun len g => build_letter_switch opt len g None)) in Hm.
  destruct Hrep as (l1 & a & l2 & b & l3 & El & Hab).
  assert (Ha : In a l) by (subst l; apply in_or_app; right; now left).
  destruct (sorted_keys_complete (fun k : nat => k) word_length l a Ha)
    as (len & Hlen & Elen).
  cbn in Elen. subst len.
  destruct (Forall2_in_l _ _ _ _ Hm Hlen) as ([len' t'] & _ & _ & Hbt).
  cbn [snd] in Hbt. revert Hbt. apply repeats_word_no_tree.
  unfold group_of. rewrite El. apply repeats_word_filter; [exact Hab| |].
  - apply Nat.eqb_refl.
  - unfold word_length. rewrite Hab. apply Nat.eqb_refl.
Qed.

(** X12: a list that names a word twice is refused: [generate_switch]
    raises on it, whatever the indices and whatever else is in the list. *)
Theorem repeated_word_raises (opt : Opt) (l1 l2 l3 : list item) (i j : Z)
    (word : string) :
  exists e opt',
    generate_switch (l1 ++ (i, word) :: l2 ++ (j, word) :: l3) opt
    = (Raise e, opt').
Proof.
  destruct (repeats_word_no_switch opt (l1 ++ (i, word) :: l2 ++ (j, word) :: l3))
    as [e He].
  { exists l1, (i, word), l2, (j, word), l3. now split. }
  destruct (generate_switch_raises opt _ opt e (conj eq_refl eq_refl) He) as [o' Ho'].
  eauto.
Qed.

(** ** When a switch is chosen *)

(** X5: [optimal_switch_column] chooses a switch only when every
    unprocessed column carries more than 3 distinct characters and none is
    shared by all the words; the column it returns is then the first of
    least span. *)
Theorem switch_only_over_many_characters (opt : Opt) (l : list item)
    (columns : list nat) (n k : nat) :
  use_if_threshold opt = 3 ->
  optimal_switch_column opt l columns n = Ok (k, false) ->
  first_min (span_at l columns) n k
  /\ forall i, i < n ->
       (3 < count_at l columns i)%Z /\ span_at l columns i <> 1%Z.
Proof.
  intros Ht H.
  destruct (optimal_switch_column_inv _ _ _ _ _ _ H)
    as (_ & _ & [(_ & Hb & _)|(Hall & kc & ks & Hkc & Hks & E)]); [discriminate|].
  rewrite Ht in E.
  destruct (Z.leb_spec (count_at l columns kc) (Z.of_nat 3)); inversion E; subst.
  split; [exact Hks|]. intros i Hi. split; [|now apply Hall].
  destruct Hkc as (_ & Hle & _). specialize (Hle i Hi). lia.
Qed.

Lemma switch_only_over_many_characters_witness :
  first_min (span_at corpus_B (range 0 4)) 4 2
  /\ forall i, i < 4 ->
       (3 < count_at corpus_B (range 0 4) i)%Z
       /\ span_at corpus_B (range 0 4) i <> 1%Z.
Proof.
  apply (switch_only_over_many_characters (main_opt []) corpus_B (range 0 4) 4 2).
  - reflexivity.
  - vm_compute. reflexivity.
Defined.

Lemma sorted_keys_count l column :
  length (sorted_keys ord (char_of column) l) = count_of l column.
Proof.
  unfold sorted_keys, count_of.
  rewrite <- (Permutation_length (sorted_perm _ _)).
  rewrite <- (length_map ord).
  apply Permutation_length, NoDup_Permutation.
  - apply distinct_keys_nodup.
  - apply NoDup_nodup.
  - intros x. rewrite nodup_In. unfold column_codes. split.
    + intros Hx. apply in_map_iff in Hx as (c & <- & Hc).
      apply distinct_keys_incl, in_map_iff in Hc as (it & <- & Hit).
      rewrite <- code_at_char_of. now apply in_map.
    + intros Hx. apply in_map_iff in Hx as (it & <- & Hit).
      assert (Hc := distinct_keys_complete ord (map (char_of column) l)
                      (char_of column it) (in_map _ _ _ Hit)).
      apply has_rank_true in Hc as (c & Hc & E).
      rewrite code_at_char_of, <- E. now apply in_map.
Qed.

Lemma fold_switches_wide {K : Type} thr (keys : list K)
    (children : list (K * DecisionNode)) :
  Forall2 (fun c ct => fst ct = c /\ switches_wide thr (snd ct)) keys children ->
  fold_right (fun '(_, child) rest => switches_wide thr child /\ rest) True children.
Proof.
  induction 1 as [|c [c' t] keys children [_ Ht] _ IH]; [exact I|].
  cbn [fold_right snd] in *. now split.
Qed.

Lemma switches_of_node opt L n l columns0 columns t :
  default_columns columns0 n = columns ->
  node_inv L n l columns ->
  build_letter_switch opt n l columns0 = Ok t ->
  switches_wide (use_if_threshold opt) t.
Proof.
  apply (built_tree_ind opt L (fun _ _ _ t => switches_wide (use_if_threshold opt) t));
    try (intros; exact I).
  intros n0 l0 cols cols' k use_if children Hinv _ Hosc Hk _ _ Hf.
  cbn [switches_wide]. split; [|now apply (fold_switches_wide _ _ _ Hf)].
  intros ->.
  assert (Hlen : length children = length (sorted_keys ord (char_of (nth k cols 0)) l0)).
  { rewrite <- (Forall2_map_fst
                  (fun _ t => switches_wide (use_if_threshold opt) t) _ _ Hf).
    now rewrite length_map. }
  rewrite Hlen, sorted_keys_count.
  destruct (optimal_switch_column_inv _ _ _ _ _ _ Hosc)
    as (_ & _ & [(_ & Hb & _)|(Hall & kc & ks & Hkc & Hks & E)]); [discriminate|].
  destruct (Z.leb_spec (count_at l0 cols kc) (Z.of_nat (use_if_threshold opt)));
    inversion E; subst.
  destruct Hkc as (_ & Hle & _). specialize (Hle ks Hk).
  unfold count_at, column_of in *. lia.
Qed.

(** X20: in the tree built from a valid corpus every [switch] on a
    character has more than 3 [case] branches. *)
Theorem switches_have_many_cases (opt : Opt) (l : list item) :
  valid_corpus l ->
  use_if_threshold opt = 3 ->
  exists tree,
    build_switch opt l = Ok tree
    /\ generate_switch l opt
       = (Ok tt, emit opt (render_switch (indent_level opt) tree))
    /\ forall len child, In (len, child) (length_children tree) ->
                         switches_wide 3 child.
Proof.
  intros Hv Ht. destruct (valid_switch_renders opt l Hv) as (tree & Hb & Hg).
  exists tree. split; [exact Hb|]. split; [exact Hg|].
  assert (Hf := build_switch_children opt l tree Hv Hb).
  destruct Hv as [Hne Hd].
  intros len child Hin.
  destruct (Forall2_in_r _ _ _ _ Hf Hin) as (len' & Hlen & E & Hbt).
  cbn [fst snd] in E, Hbt. subst len'. rewrite <- Ht.
  apply (switches_of_node opt len len _ None (range 0 len) child eq_refl
           (node_inv_length_group l len Hd Hlen) Hbt).
Qed.

Lemma switches_have_many_cases_witness :
  exists tree,
    build_switch (main_opt []) corpus_B = Ok tree
    /\ generate_switch corpus_B (main_opt [])
       = (Ok tt, emit (main_opt []) (render_switch (indent_level (main_opt [])) tree))
    /\ forall len child, In (len, child) (length_children tree) ->
                         switches_wide 3 child.
Proof.
  apply (switches_have_many_cases (main_opt []) corpus_B); [|reflexivity].
  split; [discriminate|]. cbn. repeat constructor; cbn; intuition discriminate.
Defined.
